(** * Lazy format resolution of SBIS raw data (Types/_entity/adapter/SbisFormatController.ts)

    A shallow embedding of [eachFormatEntry], [recoverFormats], [IteratorArray],
    [RecursiveStack], [RecursiveIterator] and [SbisFormatController], and the
    properties of the format lookup that the specification states, followed
    by further properties read off the code.

    Conventions of the embedding.
    - A payload is a tree of arrays and objects.  Nothing in this file of the
      source ever replaces an array element or the [d] field of an object, so
      that nesting is the inductive type [jsvalue] itself.
    - The fields [f] and [s] of an object are mutated in place by
      [recoverData]; they live in a store ([objs]) keyed by the identity
      ([loc]) of the object.  Two occurrences of one [loc] are one object.
    - A format (the array held by [s], by the cache, returned by [getFormat])
      is a reference into a second store ([arrs]); [_clone] allocates there.
    - A JS exception is the [Throw] outcome; the state reached when it was
      raised is kept, as it is for a caller that catches it.
    - The engine is embedded twice: on the list of its wrappers, which the
      properties of the controller are proved on, and in [Classes] on the
      objects as the classes hold them, by reference; the second is shown
      to do what the first does. *)

From stdpp Require Import gmap list strings.

Set Warnings "-register-all".

(** ** Data model *)

(** Identity of a heap-allocated JS object or array. *)
Definition loc := positive.

(** Modelled from the spec: [IFieldFormat] is declared in SbisFormatMixin, which
    is not part of the sources at hand; the spec calls it a field descriptor,
    "opaque to this subsystem beyond being a copyable value". *)
Inductive IFieldFormat := FieldFormat (name : string) (type : string).

(** What may sit in raw data: primitives, arrays, and objects with their [d]. *)
Inductive jsvalue :=
  | JUndefined
  | JNull
  | JBool (b : bool)
  | JNum (z : Z)
  | JStr (x : string)
  | JArray (items : list jsvalue)
  | JObject (ref : loc) (d : jsvalue).

(** [type FormatCarrier = IRecordFormat | ITableFormat]: the optional fields
    [f] (format id) and [s] (inline structure) of an object; [None] is
    [undefined]. *)
Record FormatCarrier := { f : option Z; s : option loc }.

Record heap := {
  objs : gmap loc FormatCarrier;
  arrs : gmap loc (list IFieldFormat)
}.

(** Reading [f] and [s] of the object [l]; an object without these fields reads
    [undefined] for both. *)
Definition fields (h : heap) (l : loc) : FormatCarrier :=
  default {| f := None; s := None |} (objs h !! l).

(** JS truthiness ([if (x)], [x || y]); numbers are integers here. *)
Definition truthy (v : jsvalue) : bool :=
  match v with
  | JUndefined | JNull => false
  | JBool b => b
  | JNum z => negb (z =? 0)%Z
  | JStr x => negb (String.eqb x "")
  | JArray _ | JObject _ _ => true
  end.

(** [v instanceof Object]: arrays and objects. *)
Definition instanceof_Object (v : jsvalue) : bool :=
  match v with
  | JArray _ | JObject _ _ => true
  | _ => false
  end.

(** [typeof v === 'object']: arrays, objects and [null]. *)
Definition typeof_object (v : jsvalue) : bool :=
  match v with
  | JArray _ | JObject _ _ | JNull => true
  | _ => false
  end.

(** ** Outcomes *)

Inductive error :=
  | ReferenceError   (* "Couldn't find format by id": the spec's LookupError *)
  | TypeError        (* [slice] called on what is no array *)
  | RangeError.      (* the host call stack is exhausted *)

Inductive outcome (A : Type) :=
  | Ok (a : A)
  | Throw (e : error).
Arguments Ok {A} a.
Arguments Throw {A} e.

(** ** RecursiveStack *)

(** The wrapper that [RecursiveIterator] pushes for a value: [{data}], later
    extended with [iterator] (arrays) and [completed] (objects).  An iterator
    over an array that nobody mutates is held as what it has still to yield,
    which is the state of the native array iterator as well as of an
    [IteratorArray] ([_data] from [currentIndex + 1] on). *)
Record node := {
  data : jsvalue;
  iterator : option (list jsvalue);
  completed : bool
}.

Definition wrap (v : jsvalue) : node :=
  {| data := v; iterator := None; completed := false |}.

(** The class as it is written: [_stack], a map from depth to wrapper,
    [_current] and [processableId]. *)
Module RecursiveStackMap.

Record t := {
  _stack : gmap Z node;
  _current : option node;
  processableId : Z
}.

Definition new : t := {| _stack := ∅; _current := None; processableId := -1 |}.

Definition currentNode (st : t) : option node := _current st.

Definition push (n : node) (st : t) : t :=
  let pid := (processableId st + 1)%Z in
  {| _stack := <[pid := n]> (_stack st); _current := Some n;
     processableId := pid |}.

Definition pop (st : t) : t :=
  let pid := (processableId st - 1)%Z in
  {| _stack := delete (pid + 1)%Z (_stack st); _current := _stack st !! pid;
     processableId := pid |}.

(** The wrappers at the depths below [n], the deepest first. *)
Fixpoint slots (m : gmap Z node) (n : nat) : list node :=
  match n with
  | O => []
  | S k =>
      match m !! Z.of_nat k with
      | Some x => x :: slots m k
      | None => slots m k
      end
  end.

(** The stack read from its top. *)
Definition view (st : t) : list node :=
  slots (_stack st) (Z.to_nat (processableId st + 1)).

(** What [push] and [pop] keep: the depths in use are [0 .. processableId]
    and [_current] is the wrapper at [processableId]. *)
Definition wf (st : t) : Prop :=
  (-1 <= processableId st)%Z /\
  (forall k, is_Some (_stack st !! k) <-> (0 <= k <= processableId st)%Z) /\
  _current st = _stack st !! processableId st.

End RecursiveStackMap.

(** The stack as the list of its wrappers, the top first: the
    [RecursiveStackMap.view] of the class, on which [push], [pop],
    [currentNode] and [processableId] are the following (lemmas
    [RecursiveStackMap_push] and after). *)
Definition RecursiveStack := list node.

Definition new_RecursiveStack : RecursiveStack := [].

Definition processableId (st : RecursiveStack) : Z := Z.of_nat (length st) - 1.

Definition currentNode (st : RecursiveStack) : option node := head st.

Definition push (n : node) (st : RecursiveStack) : RecursiveStack := n :: st.

Definition pop (st : RecursiveStack) : RecursiveStack := tail st.

(** A write to a field of the wrapper held in the local [node] of [_process],
    which is the current one whenever such a write happens. *)
Definition update_current (g : node -> node) (st : RecursiveStack) : RecursiveStack :=
  match st with
  | [] => []
  | n :: rest => g n :: rest
  end.

Definition set_iterator (it : list jsvalue) (n : node) : node :=
  {| data := data n; iterator := Some it; completed := completed n |}.

Definition set_completed (n : node) : node :=
  {| data := data n; iterator := iterator n; completed := true |}.

(** ** IteratorArray *)

Module IteratorArray.

(** [class IteratorArray]: [currentIndex] and [_data]. *)
Record t := { currentIndex : Z; _data : list jsvalue }.

Definition new (items : list jsvalue) : t :=
  {| currentIndex := -1; _data := items |}.

Definition isDone (it : t) : bool :=
  (currentIndex it =? Z.of_nat (length (_data it)))%Z.

(** [next()]: the value, [done], and the iterator with [currentIndex]
    advanced; a read past the end of an array is [undefined]. *)
Definition next (it : t) : jsvalue * bool * t :=
  let it' := {| currentIndex := currentIndex it + 1; _data := _data it |} in
  if isDone it' then (JUndefined, true, it')
  else (default JUndefined (_data it' !! Z.to_nat (currentIndex it')), false, it').

(** What the iterator has still to yield. *)
Definition to_yield (it : t) : list jsvalue :=
  drop (Z.to_nat (currentIndex it + 1)) (_data it).

End IteratorArray.

(** [_getIterator(data)]: the native iterator of the array or an
    [IteratorArray], either way one that has all of [data] to yield. *)
Definition _getIterator (items : list jsvalue) : list jsvalue := items.

(** ** RecursiveIterator *)

Definition RecursiveIterator := RecursiveStack.

(** [constructor(data)]: a fresh stack with the root wrapper on it. *)
Definition new_RecursiveIterator (v : jsvalue) : RecursiveIterator :=
  push (wrap v) new_RecursiveStack.

(** Result of [_process]: [None] when the recursion budget is used up,
    otherwise the returned format ([None] for [undefined]) with the stack and
    the storage as the call leaves them. *)
Definition processed : Type := option (option loc * RecursiveStack * gmap Z loc).

(** The [while (true)] loop of the array branch of [_process]: [it] is what
    [node.iterator] has still to yield, so [node.iterator.next()] is done on
    [[]] and otherwise gives the head and leaves the tail in the wrapper;
    [proc] is the recursive call [this._process(storage, id)]. *)
Fixpoint array_loop (proc : RecursiveStack -> gmap Z loc -> processed)
    (it : list jsvalue) (st : RecursiveStack) (storage : gmap Z loc) : processed :=
  match it with
  | [] => Some (None, pop st, storage)
  | item :: it' =>
      let st := update_current (set_iterator it') st in
      if instanceof_Object item then
        match proc (push (wrap item) st) storage with
        | None => None
        | Some (Some result, st', storage') => Some (Some result, st', storage')
        | Some (None, st', storage') => array_loop proc it' st' storage'
        end
      else array_loop proc it' st storage
  end.

(** The guard [node.data.f !== undefined && node.data.s && !storage.has(node.data.f)]
    of the object branch: the id and the structure to record, if it holds.
    [declaration] is its part on the object alone. *)
Definition declaration (h : heap) (l : loc) : option (Z * loc) :=
  match f (fields h l), s (fields h l) with
  | Some i, Some a => Some (i, a)
  | _, _ => None
  end.

Definition undeclared (h : heap) (l : loc) (storage : gmap Z loc) : option (Z * loc) :=
  match declaration h l with
  | Some (i, a) => if decide (storage !! i = None) then Some (i, a) else None
  | None => None
  end.

(** [_process(storage, id)], with the depth of recursion bounded by [fuel]. *)
Fixpoint _process (h : heap) (fuel : nat) (st : RecursiveStack)
    (storage : gmap Z loc) (id : option Z) : processed :=
  match fuel with
  | O => None
  | S fuel' =>
      match currentNode st with
      | None => None
      | Some node =>
          match data node with
          | JArray items =>
              let it := match iterator node with
                        | Some it => it
                        | None => _getIterator items
                        end in
              array_loop (fun st' storage' => _process h fuel' st' storage' id)
                         it st storage
          | JObject l d =>
              if completed node then Some (None, pop st, storage)
              else
                (* the rest of the branch, from [let result;] on *)
                let descend storage :=
                  if truthy d then
                    match _process h fuel'
                            (push (wrap d) (update_current set_completed st))
                            storage id with
                    | None => None
                    | Some (Some result, st', storage') =>
                        Some (Some result, st', storage')
                    | Some (None, st', storage') => Some (None, pop st', storage')
                    end
                  else Some (None, pop st, storage) in
                match undeclared h l storage with
                | Some (i, a) =>
                    if decide (Some i = id)
                    then Some (Some a, st, <[i := a]> storage)
                    else descend (<[i := a]> storage)
                | None => descend storage
                end
          | _ => Some (None, pop st, storage)
          end
      end
  end.

(** [IResultGenerator]: [next] builds [{value: undefined, done: true}] and
    [{value: result, done: false}] only. *)
Inductive IResultGenerator :=
  | Done
  | Yield (value : loc).

(** [next(storage, id)]; [fuel] bounds the iterations of its loop as well as
    the recursion of [_process]. *)
Fixpoint next_fuel (h : heap) (fuel : nat) (g : RecursiveIterator)
    (storage : gmap Z loc) (id : option Z)
  : option (IResultGenerator * RecursiveIterator * gmap Z loc) :=
  match fuel with
  | O => None
  | S fuel' =>
      if (processableId g <? 0)%Z
      then Some (Done, g, storage)
      else
        match _process h fuel g storage id with
        | None => None
        | Some (Some result, g', storage') =>
            Some (Yield result, g', storage')
        | Some (None, g', storage') => next_fuel h fuel' g' storage' id
        end
  end.

(** The values a wrapper still has wrappers pushed for: what its iterator
    has to yield, or the [d] of an object not yet [completed]. *)
Definition children (n : node) : list jsvalue :=
  match data n with
  | JArray items => default items (iterator n)
  | JObject _ d => if completed n then [] else [d]
  | _ => []
  end.

(** Nesting depth of a value, which is the depth [_process] recurses to on
    its wrapper. *)
Fixpoint depth (v : jsvalue) : nat :=
  match v with
  | JArray items => S (list_max (map depth items))
  | JObject _ d => S (depth d)
  | _ => 1
  end.

Definition node_depth (n : node) : nat := S (list_max (map depth (children n))).

(** A budget under which [next] never runs dry on [g] (see [next_fuel_scan]
    and [next_fuel_mono]). *)
Definition engine_fuel (g : RecursiveIterator) : nat :=
  S (length g + list_max (map node_depth g)).

Definition next (h : heap) (g : RecursiveIterator) (storage : gmap Z loc)
    (id : option Z) : option (IResultGenerator * RecursiveIterator * gmap Z loc) :=
  next_fuel h (engine_fuel g) g storage id.

(** ** eachFormatEntry *)

(** [record.s !== undefined || record.f !== undefined]. *)
Definition is_carrier (h : heap) (l : loc) : bool :=
  bool_decide (s (fields h l) ≠ None) || bool_decide (f (fields h l) ≠ None).

(** [eachFormatEntry(data, callback)].  The callback receives the object (its
    identity), may change the heap and a state [A] of its own, and may throw,
    which ends the walk. *)
Fixpoint eachFormatEntry {A : Type} (v : jsvalue)
    (callback : loc -> heap * A -> outcome unit * (heap * A))
    (st : heap * A) : outcome unit * (heap * A) :=
  match v with
  | JArray items =>
      (fix each (l : list jsvalue) (st : heap * A) : outcome unit * (heap * A) :=
         match l with
         | [] => (Ok (), st)
         | item :: l' =>
             match eachFormatEntry item callback st with
             | (Ok _, st') => each l' st'
             | (Throw e, st') => (Throw e, st')
             end
         end) items st
  | JObject l d =>
      match (if is_carrier st.1 l then callback l st else (Ok (), st)) with
      | (Ok _, st') =>
          if truthy d then eachFormatEntry d callback st' else (Ok (), st')
      | (Throw e, st') => (Throw e, st')
      end
  | _ => (Ok (), st)
  end.

(** ** SbisFormatController *)

Record SbisFormatController := {
  _cache : gmap Z loc;
  _data : jsvalue;
  _generator : option RecursiveIterator
}.

(** [constructor(data?)]; [_generator] is left [undefined]. *)
Definition new_SbisFormatController (v : jsvalue) : SbisFormatController :=
  {| _cache := ∅; _data := v; _generator := None |}.

(** [_clone(format)]: [format.slice()], a new array with the same elements.
    A reference that is no array has no [slice]. *)
Definition _clone (h : heap) (format : loc) : outcome loc * heap :=
  match arrs h !! format with
  | Some fl =>
      let a := fresh (dom (arrs h)) in
      (Ok a, {| objs := objs h; arrs := <[a := fl]> (arrs h) |})
  | None => (Throw TypeError, h)
  end.

(** [setOriginal(id, data)]. *)
Definition setOriginal (h : heap) (c : SbisFormatController) (id : Z) (fmt : loc)
  : outcome unit * SbisFormatController * heap :=
  match _clone h fmt with
  | (Ok a, h') =>
      (Ok (),
       {| _cache := <[id := a]> (_cache c); _data := _data c;
          _generator := _generator c |},
       h')
  | (Throw e, h') => (Throw e, c, h')
  end.

(** [get generator()]: nothing in the class assigns [_generator]. *)
Definition generator (c : SbisFormatController) : RecursiveIterator :=
  match _generator c with
  | Some g => g
  | None => new_RecursiveIterator (_data c)
  end.

(** [this._cache.get(id)] with [this._cache.has(id)] as [is_Some]; the keys of
    the cache are numbers, so [undefined] is never one. *)
Definition cache_get (c : SbisFormatController) (id : option Z) : option loc :=
  id ≫= fun i => _cache c !! i.

(** [copy ? this._clone(a) : a]. *)
Definition copied (h : heap) (copy : bool) (a : loc) : outcome loc * heap :=
  if copy then _clone h a else (Ok a, h).

(** [getFormat(id, copy)].  The engine that [generator] returns is mutated by
    [next]; that is seen later only if it is the one [_generator] holds. *)
Definition getFormat (h : heap) (c : SbisFormatController) (id : option Z)
    (copy : bool) : outcome loc * SbisFormatController * heap :=
  match cache_get c id with
  | Some a => let '(r, h') := copied h copy a in (r, c, h')
  | None =>
      match next h (generator c) (_cache c) id with
      | None => (Throw RangeError, c, h)
      | Some (result, g', cache') =>
          let c' := {| _cache := cache'; _data := _data c;
                       _generator := (fun _ => g') <$> _generator c |} in
          match result with
          | Done => (Throw ReferenceError, c', h)
          | Yield a => let '(r, h') := copied h copy a in (r, c', h')
          end
      end
  end.

(** [scanFormats(data)]. *)
Definition scanFormats (h : heap) (c : SbisFormatController) (v : jsvalue)
  : outcome unit * SbisFormatController * heap :=
  if typeof_object v then
    match next h (new_RecursiveIterator v) (_cache c) None with
    | None => (Throw RangeError, c, h)
    | Some (_, _, cache') =>
        (Ok (),
         {| _cache := cache'; _data := _data c; _generator := _generator c |},
         h)
    end
  else (Ok (), c, h).

(** ** recoverFormats and recoverData *)

Definition set_s (h : heap) (l : loc) (a : loc) : heap :=
  {| objs := <[l := {| f := f (fields h l); s := Some a |}]> (objs h);
     arrs := arrs h |}.

(** [delete recovered.f]. *)
Definition delete_f (h : heap) (l : loc) : heap :=
  {| objs := <[l := {| f := None; s := s (fields h l) |}]> (objs h);
     arrs := arrs h |}.

(** The callback of [recoverFormats]; its state is the controller and the
    [result] array. *)
Definition recover_entry (entry : loc)
    (st : heap * (SbisFormatController * list loc))
  : outcome unit * (heap * (SbisFormatController * list loc)) :=
  let '(h, (c, result)) := st in
  let '(r, c', h') :=
    match s (fields h entry) with
    | Some a => (Ok a, c, h)
    | None => getFormat h c (f (fields h entry)) false
    end in
  match r with
  | Ok a => (Ok (), (set_s h' entry a, (c', result ++ [entry])))
  | Throw e => (Throw e, (h', (c', result)))
  end.

Definition recoverFormats (h : heap) (v : jsvalue) (c : SbisFormatController)
  : outcome (list loc) * SbisFormatController * heap :=
  match eachFormatEntry v recover_entry (h, (c, [])) with
  | (Ok _, (h', (c', result))) => (Ok result, c', h')
  | (Throw e, (h', (c', _))) => (Throw e, c', h')
  end.

(** [static recoverData(data, controller?)]; the value returned is [data]
    itself. *)
Definition recoverData (h : heap) (v : jsvalue)
    (controller : option SbisFormatController)
  : outcome jsvalue * SbisFormatController * heap :=
  let c := default (new_SbisFormatController v) controller in
  match recoverFormats h v c with
  | (Ok result, c', h') => (Ok v, c', foldl delete_f h' result)
  | (Throw e, c', h') => (Throw e, c', h')
  end.

(** ** Sequences of calls on one controller *)

Inductive call :=
  | CallGetFormat (id : option Z) (copy : bool)
  | CallSetOriginal (id : Z) (fmt : loc)
  | CallScanFormats (v : jsvalue).

Definition run_call (st : SbisFormatController * heap) (k : call)
  : SbisFormatController * heap :=
  let '(c, h) := st in
  match k with
  | CallGetFormat id copy => let '(_, c', h') := getFormat h c id copy in (c', h')
  | CallSetOriginal id fmt => let '(_, c', h') := setOriginal h c id fmt in (c', h')
  | CallScanFormats v => let '(_, c', h') := scanFormats h c v in (c', h')
  end.

Definition run_calls (st : SbisFormatController * heap) (ks : list call)
  : SbisFormatController * heap :=
  foldl run_call st ks.

(** Calls of [getFormat] alone, each an id and a [copy]. *)
Definition calls_of_lookups (lookups : list (option Z * bool)) : list call :=
  map (fun p => CallGetFormat p.1 p.2) lookups.

(** ** Document order *)

(** The entries [eachFormatEntry] calls its callback for, in the order of the
    calls: the carriers of the payload in document order. *)
Definition collect_entry (entry : loc) (st : heap * list loc)
  : outcome unit * (heap * list loc) :=
  (Ok (), (st.1, st.2 ++ [entry])).

Definition entries (h : heap) (v : jsvalue) : list loc :=
  (eachFormatEntry v collect_entry (h, [])).2.2.

(** The inline structures of a payload with their ids, in document order. *)
Definition declarations (h : heap) (v : jsvalue) : list (Z * loc) :=
  omap (declaration h) (entries h v).

(** The structure of the first pair with the id [N]. *)
Fixpoint first_with_id (N : Z) (ds : list (Z * loc)) : option loc :=
  match ds with
  | [] => None
  | (i, a) :: ds' => if decide (i = N) then Some a else first_with_id N ds'
  end.

(** The structure declared earliest in document order for [N]. *)
Definition first_declared (h : heap) (v : jsvalue) (N : Z) : option loc :=
  first_with_id N (declarations h v).

(** ** The traversal as one pass over a list *)

(** All objects below a value, parents before children, siblings left to
    right. *)
Fixpoint objects (v : jsvalue) : list loc :=
  match v with
  | JArray items => flat_map objects items
  | JObject l d => l :: objects d
  | _ => []
  end.

(** The objects a wrapper has still to hand to the object branch of
    [_process], itself first if it wraps an object. *)
Definition work (n : node) : list loc :=
  match data n with
  | JArray items => flat_map objects (default items (iterator n))
  | JObject l d => if completed n then [] else l :: objects d
  | _ => []
  end.

Definition pending (st : RecursiveStack) : list loc := flat_map work st.

(** What the object branch does to the storage at one object. *)
Definition record (h : heap) (storage : gmap Z loc) (l : loc) : gmap Z loc :=
  match undeclared h l storage with
  | Some (i, a) => <[i := a]> storage
  | None => storage
  end.

(** One pass over the pending objects: record each, stop at the one that
    newly records [id] and leave it pending. *)
Fixpoint scan (h : heap) (pend : list loc) (storage : gmap Z loc) (id : option Z)
  : option loc * list loc * gmap Z loc :=
  match pend with
  | [] => (None, [], storage)
  | l :: pend' =>
      match undeclared h l storage with
      | Some (i, a) =>
          if decide (Some i = id) then (Some a, pend, <[i := a]> storage)
          else scan h pend' (<[i := a]> storage) id
      | None => scan h pend' storage id
      end
  end.

Definition yielded (r : IResultGenerator) : option loc :=
  match r with
  | Done => None
  | Yield a => Some a
  end.

(** ** Notions of the statements *)

(** The controller a lookup leaves when it had to traverse. *)
Definition with_cache (c : SbisFormatController) (cache : gmap Z loc)
  : SbisFormatController :=
  {| _cache := cache; _data := _data c; _generator := _generator c |}.

(** Calling [callback] for the objects of a list in turn, until one throws. *)
Fixpoint run_entries {A : Type}
    (callback : loc -> heap * A -> outcome unit * (heap * A))
    (ls : list loc) (st : heap * A) : outcome unit * (heap * A) :=
  match ls with
  | [] => (Ok (), st)
  | l :: ls' =>
      match callback l st with
      | (Ok _, st') => run_entries callback ls' st'
      | (Throw e, st') => (Throw e, st')
      end
  end.

Definition carriers (h : heap) (v : jsvalue) : list loc :=
  filter (fun l => is_carrier h l = true) (objects v).

(** [res] is what one pass over [w] gives, with [rest] the stack below. *)
Definition pass (h : heap) (id : option Z) (w : list loc)
    (rest : RecursiveStack) (storage : gmap Z loc) (res : processed) : Prop :=
  exists r st' storage' pend',
    res = Some (r, st', storage') /\
    scan h w storage id = (r, pend', storage') /\
    match r with
    | None => st' = rest
    | Some _ => pending st' = pend' ++ pending rest
    end.

(** The call [k], made in the state [st], puts [N] into the cache whatever the
    payload of the controller holds: [setOriginal(N, fmt)] with an array
    [fmt], or [scanFormats(v)] with [N] declared in [v]. *)
Definition seeds (N : Z) (st : SbisFormatController * heap) (k : call) : Prop :=
  match k with
  | CallGetFormat _ _ => False
  | CallSetOriginal i fmt => i = N /\ is_Some (arrs st.2 !! fmt)
  | CallScanFormats v => is_Some (first_declared st.2 v N)
  end.

Fixpoint seeded (N : Z) (st : SbisFormatController * heap) (ks : list call)
  : Prop :=
  match ks with
  | [] => False
  | k :: ks' => seeds N st k \/ seeded N (run_call st k) ks'
  end.

(** The seeding that the claim on the lookup failure counts: [setOriginal]
    alone. *)
Fixpoint seeded_by_setOriginal (N : Z) (st : SbisFormatController * heap)
    (ks : list call) : Prop :=
  match ks with
  | [] => False
  | k :: ks' =>
      match k with
      | CallSetOriginal _ _ => seeds N st k
      | _ => False
      end \/ seeded_by_setOriginal N (run_call st k) ks'
  end.

(** [N] is in the cache or declared in the payload of the controller. *)
Definition known (N : Z) (st : SbisFormatController * heap) : Prop :=
  is_Some (_cache st.1 !! N) \/ is_Some (first_declared st.2 (_data st.1) N).

(** The cache holds for [N], if anything, the structure declared earliest in
    the payload of the controller. *)
Definition agrees (N : Z) (st : SbisFormatController * heap) : Prop :=
  forall b, _cache st.1 !! N = Some b ->
            first_declared st.2 (_data st.1) N = Some b.

(** Calls of [next] on one engine with the targets [ids], the storage handed
    from each call to the next as the controller hands its cache. *)
Fixpoint drive (h : heap) (g : RecursiveIterator) (storage : gmap Z loc)
    (ids : list (option Z))
  : option (list IResultGenerator * RecursiveIterator * gmap Z loc) :=
  match ids with
  | [] => Some ([], g, storage)
  | id :: ids' =>
      match next h g storage id with
      | None => None
      | Some (r, g', storage') =>
          match drive h g' storage' ids' with
          | None => None
          | Some (rs, g'', storage'') => Some (r :: rs, g'', storage'')
          end
      end
  end.

(** The objects of [v] split into those the engine has passed and those it
    has not reached; the storage is what recording the passed ones in turn,
    each once, makes of [storage0]; pending are the objects not reached,
    after the one that was yielded last if the engine stopped there (it is
    left on the stack for its [d] to be descended into); the guard of the
    object branch fails from now on at every object passed, so that none of
    them is recorded again. *)
Definition passed_once (h : heap) (v : jsvalue) (storage0 : gmap Z loc)
    (g : RecursiveIterator) (storage : gmap Z loc) : Prop :=
  exists passed rest,
    objects v = passed ++ rest /\
    storage = foldl (record h) storage0 passed /\
    (pending g = rest \/
     exists passed' l, passed = passed' ++ [l] /\ pending g = l :: rest) /\
    (forall l, l ∈ passed -> undeclared h l storage = None).

(** The heap [hk] that [recoverFormats] has reached from [h0]: no [f] has
    changed, and an [s] has changed only where there was none, to what the
    cache holds for the [f] of the object. *)
Definition patched (h0 hk : heap) (cache : gmap Z loc) : Prop :=
  arrs hk = arrs h0 /\
  forall l,
    f (fields hk l) = f (fields h0 l) /\
    (s (fields hk l) = s (fields h0 l) \/
     (s (fields h0 l) = None /\
      exists i a, f (fields h0 l) = Some i /\ s (fields hk l) = Some a /\
                  cache !! i = Some a)).

(** The state of [recoverFormats] on the way: heap and controller reached
    from [h0] and [c0], and the entries pushed to [result]. *)
Definition recovering (h0 : heap) (c0 : SbisFormatController) (hk : heap)
    (ck : SbisFormatController) (res : list loc) : Prop :=
  patched h0 hk (_cache ck) /\
  _data ck = _data c0 /\
  _generator ck = None /\
  (forall M b, _cache c0 !! M = Some b -> _cache ck !! M = Some b) /\
  (forall M b, _cache ck !! M = Some b ->
     _cache c0 !! M = Some b \/
     (_cache c0 !! M = None /\ first_declared h0 (_data c0) M = Some b)) /\
  (forall l, l ∈ res -> is_Some (s (fields hk l))).

(** ** Concrete payloads *)

(** The scenario of the specification:
    [[{f:1, s:[{n:'id'}], d:[{f:2, s:[{n:'x'}]}, {f:1}]}]]; the objects are 1,
    2 and 3 in document order, the arrays 10 and 11. *)
Definition spec_heap : heap :=
  {| objs := {[ 1%positive := {| f := Some 1%Z; s := Some 10%positive |};
                2%positive := {| f := Some 2%Z; s := Some 11%positive |};
                3%positive := {| f := Some 1%Z; s := None |} ]};
     arrs := {[ 10%positive := [FieldFormat "id" "Number"];
                11%positive := [FieldFormat "x" "String"] ]} |}.

Definition spec_payload : jsvalue :=
  JArray [JObject 1%positive
            (JArray [JObject 2%positive JUndefined;
                     JObject 3%positive JUndefined])].

(** [[{f:1, s:A}, {f:1, s:B}]]: the id 1 inlined twice, [A] is array 10 and
    [B] array 11. *)
Definition twice_heap : heap :=
  {| objs := {[ 1%positive := {| f := Some 1%Z; s := Some 10%positive |};
                2%positive := {| f := Some 1%Z; s := Some 11%positive |} ]};
     arrs := {[ 10%positive := [FieldFormat "id" "Number"];
                11%positive := [FieldFormat "x" "String"] ]} |}.

Definition twice_payload : jsvalue :=
  JArray [JObject 1%positive JUndefined; JObject 2%positive JUndefined].

(** [{f:5}]: a reference to a format that nothing declares. *)
Definition dangling_heap : heap :=
  {| objs := {[ 4%positive := {| f := Some 5%Z; s := None |} ]}; arrs := ∅ |}.

Definition dangling_payload : jsvalue := JObject 4%positive JUndefined.

(** The scenario with a second payload beside it, [{f:7, s:[{n:'y'}]}]:
    object 5 and array 12. *)
Definition two_heap : heap :=
  {| objs := {[ 1%positive := {| f := Some 1%Z; s := Some 10%positive |};
                2%positive := {| f := Some 2%Z; s := Some 11%positive |};
                3%positive := {| f := Some 1%Z; s := None |};
                5%positive := {| f := Some 7%Z; s := Some 12%positive |} ]};
     arrs := {[ 10%positive := [FieldFormat "id" "Number"];
                11%positive := [FieldFormat "x" "String"];
                12%positive := [FieldFormat "y" "String"] ]} |}.

Definition other_payload : jsvalue := JObject 5%positive JUndefined.

(** The engine as [getFormat(2)] leaves it on the scenario: stopped at
    object 2, with object 3 still to come. *)
Definition paused_engine : RecursiveIterator :=
  [ wrap (JObject 2%positive JUndefined);
    {| data := JArray [JObject 2%positive JUndefined; JObject 3%positive JUndefined];
       iterator := Some [JObject 3%positive JUndefined];
       completed := false |};
    {| data := JObject 1%positive
                 (JArray [JObject 2%positive JUndefined;
                          JObject 3%positive JUndefined]);
       iterator := None;
       completed := true |};
    {| data := spec_payload; iterator := Some []; completed := false |} ].

(** ** Notions of the further properties *)

(** [n] successive calls of [next()] on one [IteratorArray]: the results
    [{value, done}] in the order of the calls, and the iterator as the last
    call leaves it. *)
Fixpoint IteratorArray_calls (n : nat) (it : IteratorArray.t)
  : list (jsvalue * bool) * IteratorArray.t :=
  match n with
  | O => ([], it)
  | S k =>
      let '(v, d, it') := IteratorArray.next it in
      let '(rs, it'') := IteratorArray_calls k it' in
      ((v, d) :: rs, it'')
  end.

(** The calls a user of [RecursiveStack] makes that change it. *)
Inductive stack_op :=
  | OpPush (n : node)
  | OpPop.

Definition RecursiveStackMap_step (st : RecursiveStackMap.t) (op : stack_op)
  : RecursiveStackMap.t :=
  match op with
  | OpPush n => RecursiveStackMap.push n st
  | OpPop => RecursiveStackMap.pop st
  end.

Definition RecursiveStack_step (st : RecursiveStack) (op : stack_op)
  : RecursiveStack :=
  match op with
  | OpPush n => push n st
  | OpPop => pop st
  end.

(** No [pop()] of [ops] is made on an empty stack, [size] being the number of
    wrappers on the stack before [ops]. *)
Fixpoint pops_in_bounds (size : nat) (ops : list stack_op) : bool :=
  match ops with
  | [] => true
  | OpPush _ :: ops' => pops_in_bounds (S size) ops'
  | OpPop :: ops' =>
      match size with
      | O => false
      | S size' => pops_in_bounds size' ops'
      end
  end.

(** The call is [setOriginal(M, ...)]. *)
Definition sets_original (M : Z) (k : call) : Prop :=
  match k with
  | CallSetOriginal i _ => i = M
  | _ => False
  end.

(** ** The engine on the objects of the classes *)

(** [RecursiveIterator] with the objects it works on held by reference, as
    the classes are written: the wrappers [{data, iterator, completed}] are
    objects in a store of their own, reached from [_stack], from [_current]
    and from the local [node] of [_process]; the iterator of an array is the
    native one or an [IteratorArray], as the environment has it. *)
Module Classes.

(** What [_getIterator] returns: the native iterator of the array, held as
    what it has still to yield, or an [IteratorArray]. *)
Inductive array_iterator :=
  | Native (rest : list jsvalue)
  | Fallback (it : IteratorArray.t).

(** [iterator.next()]: value, [done], and the iterator after the call. *)
Definition iterator_next (it : array_iterator)
  : jsvalue * bool * array_iterator :=
  match it with
  | Native [] => (JUndefined, true, Native [])
  | Native (x :: rest) => (x, false, Native rest)
  | Fallback it =>
      let '(v, d, it') := IteratorArray.next it in (v, d, Fallback it')
  end.

(** [_getIterator(data)], with the answer of [doesEnvSupportIterator()]. *)
Definition _getIterator (doesEnvSupportIterator : bool)
    (items : list jsvalue) : array_iterator :=
  if doesEnvSupportIterator then Native items
  else Fallback (IteratorArray.new items).

Record wrapper := {
  data : jsvalue;
  iterator : option array_iterator;
  completed : bool
}.

(** The engine: the wrapper objects by identity, and the fields of its
    [RecursiveStack]. *)
Record t := {
  wrappers : gmap loc wrapper;
  _stack : gmap Z loc;
  _current : option loc;
  processableId : Z
}.

Definition new_RecursiveStack : t :=
  {| wrappers := ∅; _stack := ∅; _current := None; processableId := -1 |}.

Definition currentNode (e : t) : option loc := _current e.

(** [this._stackNodes.push({data: v})]: the literal is a new object. *)
Definition push (v : jsvalue) (e : t) : t :=
  let r := fresh (dom (wrappers e)) in
  let pid := (processableId e + 1)%Z in
  {| wrappers :=
       <[r := {| data := v; iterator := None; completed := false |}]>
         (wrappers e);
     _stack := <[pid := r]> (_stack e);
     _current := Some r;
     processableId := pid |}.

Definition pop (e : t) : t :=
  let pid := (processableId e - 1)%Z in
  {| wrappers := wrappers e;
     _stack := delete (pid + 1)%Z (_stack e);
     _current := _stack e !! pid;
     processableId := pid |}.

(** A write to a field of the wrapper [r]: whoever holds [r] sees it. *)
Definition write (r : loc) (g : wrapper -> wrapper) (e : t) : t :=
  {| wrappers := alter g r (wrappers e);
     _stack := _stack e;
     _current := _current e;
     processableId := processableId e |}.

Definition set_iterator (it : array_iterator) (w : wrapper) : wrapper :=
  {| data := data w; iterator := Some it; completed := completed w |}.

Definition set_completed (w : wrapper) : wrapper :=
  {| data := data w; iterator := iterator w; completed := true |}.

(** [constructor(data)]. *)
Definition new_RecursiveIterator (v : jsvalue) : t := push v new_RecursiveStack.

Definition processed : Type := option (option loc * t * gmap Z loc).

(** The [while (true)] loop of the array branch, [node] being the wrapper
    [r]; [n] bounds its iterations. *)
Fixpoint array_loop (proc : t -> gmap Z loc -> processed) (n : nat) (r : loc)
    (e : t) (storage : gmap Z loc) : processed :=
  match n with
  | O => None
  | S n' =>
      match wrappers e !! r ≫= iterator with
      | None => None
      | Some it =>
          let '(item, done, it') := iterator_next it in
          let e := write r (set_iterator it') e in
          if done then Some (None, pop e, storage)
          else if instanceof_Object item then
            match proc (push item e) storage with
            | None => None
            | Some (Some result, e', storage') =>
                Some (Some result, e', storage')
            | Some (None, e', storage') => array_loop proc n' r e' storage'
            end
          else array_loop proc n' r e storage
      end
  end.

(** [_process(storage, id)]; [fuel] bounds the depth of the recursion, and
    the loop over an array is given one iteration more than the array has
    items. *)
Fixpoint _process (env : bool) (h : heap) (fuel : nat) (e : t)
    (storage : gmap Z loc) (id : option Z) : processed :=
  match fuel with
  | O => None
  | S fuel' =>
      match currentNode e with
      | None => None
      | Some r =>
          match wrappers e !! r with
          | None => None
          | Some node =>
              match data node with
              | JArray items =>
                  let e := match iterator node with
                           | Some _ => e
                           | None =>
                               write r (set_iterator (_getIterator env items)) e
                           end in
                  array_loop (fun e' storage' => _process env h fuel' e' storage' id)
                             (S (length items)) r e storage
              | JObject l d =>
                  if completed node then Some (None, pop e, storage)
                  else
                    let descend storage :=
                      if truthy d then
                        match _process env h fuel'
                                (write r set_completed (push d e)) storage id with
                        | None => None
                        | Some (Some result, e', storage') =>
                            Some (Some result, e', storage')
                        | Some (None, e', storage') =>
                            Some (None, write r set_completed (pop e'), storage')
                        end
                      else Some (None, write r set_completed (pop e), storage) in
                    match undeclared h l storage with
                    | Some (i, a) =>
                        if decide (Some i = id)
                        then Some (Some a, e, <[i := a]> storage)
                        else descend (<[i := a]> storage)
                    | None => descend storage
                    end
              | _ => Some (None, pop e, storage)
              end
          end
      end
  end.

Fixpoint next_fuel (env : bool) (h : heap) (fuel : nat) (e : t)
    (storage : gmap Z loc) (id : option Z)
  : option (IResultGenerator * t * gmap Z loc) :=
  match fuel with
  | O => None
  | S fuel' =>
      if (processableId e <? 0)%Z
      then Some (Done, e, storage)
      else
        match _process env h fuel e storage id with
        | None => None
        | Some (Some result, e', storage') => Some (Yield result, e', storage')
        | Some (None, e', storage') => next_fuel env h fuel' e' storage' id
        end
  end.

(** What an iterator has still to yield. *)
Definition to_yield (it : array_iterator) : list jsvalue :=
  match it with
  | Native rest => rest
  | Fallback it => IteratorArray.to_yield it
  end.

(** The wrapper as the list view of the stack holds it. *)
Definition node_of (w : wrapper) : node :=
  Build_node (data w) (to_yield <$> iterator w) (completed w).

(** The wrapper at depth [k] of the stack. *)
Definition slot (e : t) (k : Z) : option wrapper :=
  _stack e !! k ≫= fun r => wrappers e !! r.

Fixpoint slots (e : t) (n : nat) : list node :=
  match n with
  | O => []
  | S k =>
      match slot e (Z.of_nat k) with
      | Some w => node_of w :: slots e k
      | None => slots e k
      end
  end.

(** The stack read from its top. *)
Definition view (e : t) : RecursiveStack :=
  slots e (Z.to_nat (processableId e + 1)).

(** [next(storage, id)], with the budget of the list view. *)
Definition next (env : bool) (h : heap) (e : t) (storage : gmap Z loc)
    (id : option Z) : option (IResultGenerator * t * gmap Z loc) :=
  next_fuel env h (engine_fuel (view e)) e storage id.

(** Calls of [next] on one engine, as [drive]. *)
Fixpoint drive (env : bool) (h : heap) (e : t) (storage : gmap Z loc)
    (ids : list (option Z))
  : option (list IResultGenerator * t * gmap Z loc) :=
  match ids with
  | [] => Some ([], e, storage)
  | id :: ids' =>
      match next env h e storage id with
      | None => None
      | Some (r, e', storage') =>
          match drive env h e' storage' ids' with
          | None => None
          | Some (rs, e'', storage'') => Some (r :: rs, e'', storage'')
          end
      end
  end.

(** The iterator of a wrapper on the stack: it belongs to an array, has no
    more to yield than the array has items, and an [IteratorArray] has not
    been called past its [done]. *)
Definition iterator_ok (w : wrapper) : Prop :=
  forall it, iterator w = Some it ->
    (exists items, data w = JArray items /\
                   length (to_yield it) <= length items) /\
    match it with
    | Native _ => True
    | Fallback i =>
        (-1 <= IteratorArray.currentIndex i <
           Z.of_nat (length (IteratorArray._data i)))%Z
    end.

(** What [push], [pop] and the writes of [_process] keep: the depths in use
    are [0 .. processableId], [_current] is the wrapper at [processableId],
    and the wrappers on the stack are distinct objects. *)
Definition wf (e : t) : Prop :=
  (-1 <= processableId e)%Z /\
  (forall k, is_Some (_stack e !! k) <-> (0 <= k <= processableId e)%Z) /\
  _current e = _stack e !! processableId e /\
  (forall k r, _stack e !! k = Some r ->
     exists w, wrappers e !! r = Some w /\ iterator_ok w) /\
  (forall k k' r, _stack e !! k = Some r -> _stack e !! k' = Some r -> k = k').

(** The depths that both stacks have hold the same wrapper objects. *)
Definition same_below (e e' : t) : Prop :=
  forall k, (k <= processableId e)%Z -> (k <= processableId e')%Z ->
            _stack e' !! k = _stack e !! k.

End Classes.

(** The class engine does on [e] what the list engine does on its view:
    the same result and storage, and it leaves an engine whose view is the
    stack that the list engine leaves. *)
Definition simulates (e : Classes.t) (res : processed)
    (resC : Classes.processed) : Prop :=
  forall x l' s', res = Some (x, l', s') ->
    exists e', resC = Some (x, e', s') /\ Classes.view e' = l' /\
               Classes.wf e' /\ Classes.same_below e e'.

(** * Properties *)

(** ** The stack class and its list *)

Lemma RecursiveStackMap_slots_insert (m : gmap Z node) (p : Z) (x : node)
    (n : nat) :
  (Z.of_nat n <= p)%Z ->
  RecursiveStackMap.slots (<[p := x]> m) n = RecursiveStackMap.slots m n.
Proof.
  induction n as [|k IH]; intros Hp; simpl; [done|].
  rewrite lookup_insert_ne by lia. rewrite IH by lia. done.
Qed.

Lemma RecursiveStackMap_slots_delete (m : gmap Z node) (p : Z) (n : nat) :
  (Z.of_nat n <= p)%Z ->
  RecursiveStackMap.slots (delete p m) n = RecursiveStackMap.slots m n.
Proof.
  induction n as [|k IH]; intros Hp; simpl; [done|].
  rewrite lookup_delete_ne by lia. rewrite IH by lia. done.
Qed.

Lemma RecursiveStackMap_new :
  RecursiveStackMap.wf RecursiveStackMap.new /\
  RecursiveStackMap.view RecursiveStackMap.new = new_RecursiveStack.
Proof.
  split; [|done]. split; [simpl; lia|]. split; [|done].
  intros k. simpl. rewrite lookup_empty. split; [by intros [? ?]|lia].
Qed.

Lemma RecursiveStackMap_push (n : node) (st : RecursiveStackMap.t) :
  RecursiveStackMap.wf st ->
  RecursiveStackMap.wf (RecursiveStackMap.push n st) /\
  RecursiveStackMap.view (RecursiveStackMap.push n st) =
    push n (RecursiveStackMap.view st).
Proof.
  intros (Hpid & Hkeys & Hcur). split.
  - split; [simpl; lia|]. split; simpl.
    + intros k. destruct (decide (k = RecursiveStackMap.processableId st + 1)%Z)
        as [->|Hne].
      * rewrite lookup_insert_eq. split; [lia|eauto].
      * rewrite lookup_insert_ne by done. rewrite Hkeys. lia.
    + by rewrite lookup_insert_eq.
  - unfold RecursiveStackMap.view, push. simpl.
    replace (Z.to_nat (RecursiveStackMap.processableId st + 1 + 1))
      with (S (Z.to_nat (RecursiveStackMap.processableId st + 1))) by lia.
    simpl. rewrite Z2Nat.id by lia. rewrite lookup_insert_eq.
    rewrite RecursiveStackMap_slots_insert by lia. done.
Qed.

Lemma RecursiveStackMap_pop (st : RecursiveStackMap.t) :
  RecursiveStackMap.wf st -> (0 <= RecursiveStackMap.processableId st)%Z ->
  RecursiveStackMap.wf (RecursiveStackMap.pop st) /\
  RecursiveStackMap.view (RecursiveStackMap.pop st) =
    pop (RecursiveStackMap.view st).
Proof.
  intros (Hpid & Hkeys & Hcur) Hpos. split.
  - split; [simpl; lia|]. split; simpl.
    + intros k.
      replace (RecursiveStackMap.processableId st - 1 + 1)%Z
        with (RecursiveStackMap.processableId st) by lia.
      destruct (decide (k = RecursiveStackMap.processableId st)) as [->|Hne].
      * rewrite lookup_delete_eq. split; [by intros [? ?]|lia].
      * rewrite lookup_delete_ne by done. rewrite Hkeys. lia.
    + rewrite lookup_delete_ne by lia. done.
  - unfold RecursiveStackMap.view, pop. simpl.
    replace (RecursiveStackMap.processableId st - 1 + 1)%Z
      with (RecursiveStackMap.processableId st) by lia.
    replace (Z.to_nat (RecursiveStackMap.processableId st + 1))
      with (S (Z.to_nat (RecursiveStackMap.processableId st))) by lia.
    simpl. rewrite Z2Nat.id by lia.
    destruct (proj2 (Hkeys (RecursiveStackMap.processableId st))) as [x Hx];
      [lia|].
    rewrite Hx. simpl. apply RecursiveStackMap_slots_delete. lia.
Qed.

Lemma RecursiveStackMap_slots_length (m : gmap Z node) (n : nat) :
  (forall k, (0 <= k < Z.of_nat n)%Z -> is_Some (m !! k)) ->
  length (RecursiveStackMap.slots m n) = n.
Proof.
  induction n as [|k IH]; intros Hk; simpl; [done|].
  destruct (Hk (Z.of_nat k)) as [x ->]; [lia|]. simpl.
  rewrite IH; [done|]. intros j Hj. apply Hk. lia.
Qed.

Lemma RecursiveStackMap_current (st : RecursiveStackMap.t) :
  RecursiveStackMap.wf st ->
  RecursiveStackMap.currentNode st = currentNode (RecursiveStackMap.view st) /\
  RecursiveStackMap.processableId st = processableId (RecursiveStackMap.view st).
Proof.
  intros (Hpid & Hkeys & Hcur). split.
  - unfold RecursiveStackMap.currentNode, currentNode, RecursiveStackMap.view.
    rewrite Hcur.
    destruct (decide (RecursiveStackMap.processableId st = -1)%Z) as [E|Hne].
    + rewrite E. simpl.
      destruct (RecursiveStackMap._stack st !! (-1)%Z) eqn:Hl; [|done].
      assert (is_Some (RecursiveStackMap._stack st !! (-1)%Z)) as Hs by eauto.
      apply Hkeys in Hs. lia.
    + replace (Z.to_nat (RecursiveStackMap.processableId st + 1))
        with (S (Z.to_nat (RecursiveStackMap.processableId st))) by lia.
      simpl. rewrite Z2Nat.id by lia.
      destruct (proj2 (Hkeys (RecursiveStackMap.processableId st))) as [x Hx];
        [lia|].
      by rewrite Hx.
  - unfold processableId, RecursiveStackMap.view.
    rewrite RecursiveStackMap_slots_length; [lia|].
    intros k Hk. apply Hkeys. lia.
Qed.

(** ** IteratorArray yields the elements of its array in turn *)

Lemma IteratorArray_new_to_yield (items : list jsvalue) :
  IteratorArray.to_yield (IteratorArray.new items) = _getIterator items.
Proof. reflexivity. Qed.

(** An [IteratorArray] not yet past the end of its array is done when it has
    nothing to yield, and otherwise gives the head of what it has to yield
    and leaves the tail. *)
Lemma IteratorArray_next_to_yield (it : IteratorArray.t) :
  (-1 <= IteratorArray.currentIndex it <
     Z.of_nat (length (IteratorArray._data it)))%Z ->
  match IteratorArray.to_yield it with
  | [] => (IteratorArray.next it).1 = (JUndefined, true)
  | x :: rest =>
      (IteratorArray.next it).1 = (x, false) /\
      IteratorArray.to_yield (IteratorArray.next it).2 = rest
  end.
Proof.
  destruct it as [i items]. unfold IteratorArray.to_yield, IteratorArray.next,
    IteratorArray.isDone. simpl. intros Hi.
  destruct (drop (Z.to_nat (i + 1)) items) as [|x rest] eqn:Hdrop.
  - apply drop_nil_inv in Hdrop.
    replace (i + 1 =? Z.of_nat (length items))%Z with true
      by (symmetry; apply Z.eqb_eq; lia). done.
  - assert (Hx : items !! Z.to_nat (i + 1) = Some x).
    { rewrite <- (Nat.add_0_r (Z.to_nat (i + 1))), <- lookup_drop.
      by rewrite Hdrop. }
    apply lookup_lt_Some in Hx as Hlt.
    replace (i + 1 =? Z.of_nat (length items))%Z with false
      by (symmetry; apply Z.eqb_neq; lia).
    simpl. rewrite Hx. split; [done|].
    replace (Z.to_nat (i + 1 + 1)) with (Z.to_nat (i + 1) + 1) by lia.
    by rewrite <- drop_drop, Hdrop.
Qed.

(** ** The engine is one pass over the pending objects *)

Lemma work_wrap (v : jsvalue) : work (wrap v) = objects v.
Proof. destruct v; reflexivity. Qed.

Lemma node_depth_wrap (v : jsvalue) : node_depth (wrap v) = depth v.
Proof. destruct v; simpl; unfold node_depth; simpl; auto with lia. Qed.

Lemma objects_falsy (v : jsvalue) : truthy v = false -> objects v = [].
Proof. destruct v; simpl; congruence. Qed.

Lemma pending_cons (n : node) (st : RecursiveStack) :
  pending (n :: st) = work n ++ pending st.
Proof. reflexivity. Qed.

Lemma pending_new (v : jsvalue) : pending (new_RecursiveIterator v) = objects v.
Proof.
  unfold new_RecursiveIterator, push, new_RecursiveStack.
  rewrite pending_cons, work_wrap. apply app_nil_r.
Qed.

(** More budget never changes what a call returns. *)
Lemma array_loop_mono (proc proc' : RecursiveStack -> gmap Z loc -> processed) :
  (forall st storage x, proc st storage = Some x -> proc' st storage = Some x) ->
  forall it st storage x,
    array_loop proc it st storage = Some x ->
    array_loop proc' it st storage = Some x.
Proof.
  intros Hp. induction it as [|item it IH]; intros st storage x; simpl; [done|].
  destruct (instanceof_Object item); [|apply IH].
  destruct (proc _ storage) as [[[[a|] st'] storage']|] eqn:E; [| |done];
    rewrite (Hp _ _ _ E); [done|apply IH].
Qed.

Lemma process_mono (h : heap) (id : option Z) (fuel fuel' : nat)
    (st : RecursiveStack) (storage : gmap Z loc)
    (x : option loc * RecursiveStack * gmap Z loc) :
  fuel <= fuel' ->
  _process h fuel st storage id = Some x ->
  _process h fuel' st storage id = Some x.
Proof.
  revert fuel' st storage x.
  induction fuel as [|fuel IH]; intros fuel' st storage x Hle; [done|].
  destruct fuel' as [|fuel']; [lia|]. simpl.
  destruct (currentNode st) as [n|]; [|done].
  destruct (data n) as [| | | | |items|l d]; try done.
  - apply array_loop_mono. intros st' storage' y. apply IH. lia.
  - destruct (completed n); [done|].
    assert (Hdescend : forall storage1,
      (if truthy d
       then match _process h fuel
                    (push (wrap d) (update_current set_completed st)) storage1 id with
            | Some (Some result, st', storage') => Some (Some result, st', storage')
            | Some (None, st', storage') => Some (None, pop st', storage')
            | None => None
            end
       else Some (None, pop st, storage1)) = Some x ->
      (if truthy d
       then match _process h fuel'
                    (push (wrap d) (update_current set_completed st)) storage1 id with
            | Some (Some result, st', storage') => Some (Some result, st', storage')
            | Some (None, st', storage') => Some (None, pop st', storage')
            | None => None
            end
       else Some (None, pop st, storage1)) = Some x).
    { intros storage1. destruct (truthy d); [|done].
      destruct (_process h fuel _ storage1 id) as [y|] eqn:E; [|done].
      by rewrite (IH fuel' _ _ _ ltac:(lia) E). }
    destruct (undeclared h l storage) as [[i a]|]; [|apply Hdescend].
    destruct (decide (Some i = id)); [done|apply Hdescend].
Qed.

Lemma next_fuel_mono (h : heap) (id : option Z) (fuel fuel' : nat)
    (g : RecursiveIterator) (storage : gmap Z loc)
    (x : IResultGenerator * RecursiveIterator * gmap Z loc) :
  fuel <= fuel' ->
  next_fuel h fuel g storage id = Some x ->
  next_fuel h fuel' g storage id = Some x.
Proof.
  revert fuel' g storage x.
  induction fuel as [|fuel IH]; intros fuel' g storage x Hle; [done|].
  destruct fuel' as [|fuel']; [lia|].
  cbn [next_fuel]. destruct (processableId g <? 0)%Z; [done|].
  destruct (_process h (S fuel) g storage id) as [y|] eqn:E; [|done].
  rewrite (process_mono h id (S fuel) (S fuel') g storage y ltac:(lia) E).
  destruct y as [[[a|] g'] storage']; [done|]. apply IH. lia.
Qed.

Section Engine.
Variable h : heap.
Variable id : option Z.

Lemma scan_app (w1 w2 : list loc) (storage : gmap Z loc) :
  scan h (w1 ++ w2) storage id =
  match scan h w1 storage id with
  | (Some a, pend', storage') => (Some a, pend' ++ w2, storage')
  | (None, _, storage') => scan h w2 storage' id
  end.
Proof.
  revert storage. induction w1 as [|l w1 IH]; intros storage; simpl.
  - reflexivity.
  - destruct (undeclared h l storage) as [[i a]|]; [|apply IH].
    destruct (decide (Some i = id)); [reflexivity|apply IH].
Qed.

Lemma scan_none_nil (w : list loc) (storage storage' : gmap Z loc)
    (pend' : list loc) :
  scan h w storage id = (None, pend', storage') -> pend' = [].
Proof.
  revert storage. induction w as [|l w IH]; intros storage; simpl.
  - congruence.
  - destruct (undeclared h l storage) as [[i a]|]; [|apply IH].
    destruct (decide (Some i = id)); [congruence|apply IH].
Qed.

Lemma array_loop_pass (proc : RecursiveStack -> gmap Z loc -> processed)
    (fuel : nat) (items : list jsvalue) :
  (forall n rest storage, node_depth n <= fuel ->
     pass h id (work n) rest storage (proc (n :: rest) storage)) ->
  forall (it : list jsvalue) (n : node) (rest : RecursiveStack)
         (storage : gmap Z loc),
    data n = JArray items ->
    Forall (fun x => depth x <= fuel) it ->
    pass h id (flat_map objects it) rest storage
         (array_loop proc it (n :: rest) storage).
Proof.
  intros Hproc. induction it as [|item it IH]; intros n rest storage Hn Hd.
  - exists None, rest, storage, []. simpl. auto.
  - apply Forall_cons in Hd as [Hitem Hd]. simpl.
    assert (Hn' : data (set_iterator it n) = JArray items) by exact Hn.
    destruct (instanceof_Object item) eqn:Hobj.
    + unfold push.
      destruct (Hproc (wrap item) (set_iterator it n :: rest) storage)
        as (r & st' & storage' & pend' & -> & Hscan & Hst).
      { rewrite node_depth_wrap. exact Hitem. }
      rewrite work_wrap in Hscan.
      destruct r as [a|].
      * exists (Some a), st', storage', (pend' ++ flat_map objects it).
        rewrite scan_app, Hscan.
        repeat split. rewrite Hst, pending_cons. unfold work. rewrite Hn'.
        simpl. by rewrite app_assoc.
      * subst st'.
        destruct (IH _ rest storage' Hn' Hd)
          as (r & st' & storage'' & pend'' & -> & Hscan' & Hst).
        exists r, st', storage'', pend''.
        rewrite scan_app, Hscan. by repeat split.
    + replace (objects item) with (@nil loc) by (by destruct item).
      apply (IH _ rest storage Hn' Hd).
Qed.

Lemma process_pass (fuel : nat) (n : node) (rest : RecursiveStack)
    (storage : gmap Z loc) :
  node_depth n <= fuel ->
  pass h id (work n) rest storage (_process h fuel (n :: rest) storage id).
Proof.
  revert n rest storage.
  induction fuel as [|fuel IH]; intros n rest storage Hd.
  { unfold node_depth in Hd. lia. }
  assert (Hch : Forall (fun x => depth x <= fuel) (children n)).
  { unfold node_depth in Hd.
    apply (proj1 (Forall_map depth (fun k => k <= fuel) (children n))).
    apply list_max_le. lia. }
  simpl. unfold work at 1. unfold children in Hch.
  destruct (data n) as [| | | | |items|l d] eqn:Hn;
    try (exists None, rest, storage, []; by simpl).
  - (* array *)
    replace (match iterator n with Some it => it | None => _getIterator items end)
      with (default items (iterator n)) by (by destruct (iterator n)).
    eapply array_loop_pass; eauto.
  - (* object *)
    destruct (completed n) eqn:Hc.
    { exists None, rest, storage, []. by simpl. }
    apply Forall_cons in Hch as [Hdd _].
    assert (Hdescend : forall storage1,
      pass h id (objects d) rest storage1
        (if truthy d
         then match _process h fuel
                      (push (wrap d) (update_current set_completed (n :: rest)))
                      storage1 id with
              | Some (Some result, st', storage') =>
                  Some (Some result, st', storage')
              | Some (None, st', storage') => Some (None, pop st', storage')
              | None => None
              end
         else Some (None, pop (n :: rest), storage1))).
    { intros storage1. destruct (truthy d) eqn:Ht.
      - unfold push. simpl.
        destruct (IH (wrap d) (set_completed n :: rest) storage1)
          as (r & st' & storage' & pend' & -> & Hscan & Hst).
        { by rewrite node_depth_wrap. }
        rewrite work_wrap in Hscan.
        destruct r as [a|].
        + exists (Some a), st', storage', pend'. repeat split; [done|].
          rewrite Hst, pending_cons. unfold work. simpl. by rewrite Hn.
        + subst st'. exists None, rest, storage', pend'. by simpl.
      - rewrite (objects_falsy d Ht). exists None, rest, storage1, []. by simpl. }
    unfold pass. cbn [scan].
    destruct (undeclared h l storage) as [[i a]|]; [|apply Hdescend].
    destruct (decide (Some i = id)); [|apply Hdescend].
    exists (Some a), (n :: rest), (<[i:=a]> storage), (l :: objects d).
    repeat split. rewrite pending_cons. unfold work. by rewrite Hn, Hc.
Qed.

(** A call of [_process] that returns [undefined] has popped the wrapper it
    was called for and left the wrappers below as they were: the local [node]
    of a caller is the current wrapper again. *)
Lemma process_undefined_pops (fuel : nat) (n : node) (rest st' : RecursiveStack)
    (storage storage' : gmap Z loc) :
  _process h fuel (n :: rest) storage id = Some (None, st', storage') ->
  st' = rest.
Proof.
  intros E. destruct (le_lt_dec (node_depth n) fuel) as [Hle|Hlt].
  - destruct (process_pass fuel n rest storage Hle)
      as (r & st1 & storage1 & pend' & E1 & _ & Hst).
    rewrite E in E1. injection E1 as <- <- <-. done.
  - destruct (process_pass (node_depth n) n rest storage (le_n _))
      as (r & st1 & storage1 & pend' & E1 & _ & Hst).
    rewrite (process_mono h id fuel (node_depth n) _ _ _ ltac:(lia) E) in E1.
    injection E1 as <- <- <-. done.
Qed.

(** [next] with enough fuel is [scan] on the pending objects. *)
Lemma next_fuel_scan (g : RecursiveIterator) (fuel : nat)
    (storage : gmap Z loc) :
  engine_fuel g <= fuel ->
  exists r g' storage',
    next_fuel h fuel g storage id = Some (r, g', storage') /\
    scan h (pending g) storage id = (yielded r, pending g', storage') /\
    (r = Done -> g' = []).
Proof.
  revert fuel storage. induction g as [|n rest IH]; intros fuel storage Hf.
  - destruct fuel; [unfold engine_fuel in Hf; simpl in Hf; lia|].
    exists Done, [], storage. by simpl.
  - unfold engine_fuel in Hf. simpl in Hf.
    destruct fuel as [|fuel]; [lia|].
    change (next_fuel h (S fuel) (n :: rest) storage id) with
      (if (processableId (n :: rest) <? 0)%Z then Some (Done, n :: rest, storage)
       else match _process h (S fuel) (n :: rest) storage id with
            | None => None
            | Some (Some result, g', storage') => Some (Yield result, g', storage')
            | Some (None, g', storage') => next_fuel h fuel g' storage' id
            end).
    replace (processableId (n :: rest) <? 0)%Z with false
      by (symmetry; apply Z.ltb_ge; unfold processableId; simpl; lia).
    destruct (process_pass (S fuel) n rest storage)
      as (r & st' & storage' & pend' & -> & Hscan & Hst); [lia|].
    rewrite pending_cons, scan_app, Hscan.
    destruct r as [a|].
    + exists (Yield a), st', storage'. simpl. rewrite Hst. by repeat split.
    + subst st'. apply IH. unfold engine_fuel. lia.
Qed.
End Engine.

(** ** What one pass records and yields *)

Section Scan.
Variable h : heap.

Lemma undeclared_Some (l : loc) (storage : gmap Z loc) (i : Z) (a : loc) :
  undeclared h l storage = Some (i, a) <->
  declaration h l = Some (i, a) /\ storage !! i = None.
Proof.
  unfold undeclared. destruct (declaration h l) as [[j b]|].
  - destruct (decide (storage !! j = None)) as [E|E].
    + split; [intros [= <- <-]; auto|]. by intros [[= <- <-] _].
    + split; [done|]. intros [[= <- <-] ?]. done.
  - split; [done|]. by intros [? _].
Qed.

Lemma undeclared_None (l : loc) (storage : gmap Z loc) :
  undeclared h l storage = None <->
  match declaration h l with
  | Some (i, _) => is_Some (storage !! i)
  | None => True
  end.
Proof.
  unfold undeclared. destruct (declaration h l) as [[j b]|]; [|done].
  destruct (decide (storage !! j = None)) as [E|E].
  - rewrite E. split; [done|]. by intros [? ?].
  - split; [|done]. intros _. by apply not_eq_None_Some.
Qed.

(** Entries of the storage are never overwritten. *)
Lemma scan_keeps (w : list loc) (storage : gmap Z loc) (id : option Z)
    (M : Z) (b : loc) :
  storage !! M = Some b -> (scan h w storage id).2 !! M = Some b.
Proof.
  revert storage. induction w as [|l w IH]; intros storage HM; simpl; [done|].
  destruct (undeclared h l storage) as [[i a]|] eqn:Hu; [|by apply IH].
  apply undeclared_Some in Hu as [_ Hi].
  assert (<[i:=a]> storage !! M = Some b).
  { rewrite lookup_insert_ne; [done|]. intros ->. congruence. }
  destruct (decide (Some i = id)); [done|by apply IH].
Qed.

(** A new entry is the first structure declared for its id among the
    pending objects. *)
Lemma scan_new (w : list loc) (storage : gmap Z loc) (id : option Z)
    (M : Z) (b : loc) :
  (scan h w storage id).2 !! M = Some b ->
  storage !! M = Some b \/
  (storage !! M = None /\ first_with_id M (omap (declaration h) w) = Some b).
Proof.
  revert storage. induction w as [|l w IH]; intros storage; simpl; [auto|].
  destruct (undeclared h l storage) as [[i a]|] eqn:Hu.
  - apply undeclared_Some in Hu as [Hd Hi]. rewrite Hd. simpl.
    intros HM.
    assert (HM' : <[i:=a]> storage !! M = Some b \/
                  (<[i:=a]> storage !! M = None /\
                   first_with_id M (omap (declaration h) w) = Some b)).
    { destruct (decide (Some i = id)); [by left|by apply IH]. }
    destruct (decide (i = M)) as [->|Hne].
    + rewrite lookup_insert_eq in HM'. right.
      destruct HM' as [[= ->]|[? _]]; [|done].
      split; [done|]. by rewrite ?decide_True.
    + by rewrite lookup_insert_ne in HM'.
  - intros HM. apply IH in HM. apply undeclared_None in Hu.
    destruct (declaration h l) as [[i a]|]; [|done]. simpl.
    destruct (decide (i = M)) as [->|]; [|done].
    destruct Hu as [c Hc]. destruct HM as [?|[? ?]]; [by left|congruence].
Qed.

(** What a pass yields. *)
Lemma scan_result (w : list loc) (storage : gmap Z loc) (id : option Z) :
  (scan h w storage id).1.1 =
  match id with
  | Some N =>
      match storage !! N with
      | None => first_with_id N (omap (declaration h) w)
      | Some _ => None
      end
  | None => None
  end.
Proof.
  revert storage. induction w as [|l w IH]; intros storage; simpl.
  { destruct id; [|done]. by destruct (storage !! _). }
  destruct (undeclared h l storage) as [[i a]|] eqn:Hu.
  - apply undeclared_Some in Hu as [Hd Hi]. rewrite Hd. simpl.
    destruct (decide (Some i = id)) as [<-|Hne]; simpl.
    + by rewrite Hi, decide_True.
    + rewrite IH. destruct id as [N|]; [|done].
      rewrite lookup_insert_ne by congruence.
      rewrite decide_False by congruence. done.
  - rewrite IH. apply undeclared_None in Hu.
    destruct (declaration h l) as [[i a]|]; [|done]. simpl.
    destruct id as [N|]; [|done].
    destruct (decide (i = N)) as [->|]; [|done].
    destruct Hu as [c ->]. done.
Qed.

(** A yielded structure is in the storage under the target id. *)
Lemma scan_yield (w : list loc) (storage : gmap Z loc) (id : option Z)
    (a : loc) :
  (scan h w storage id).1.1 = Some a ->
  exists N, id = Some N /\ (scan h w storage id).2 !! N = Some a.
Proof.
  revert storage. induction w as [|l w IH]; intros storage; simpl; [done|].
  destruct (undeclared h l storage) as [[i b]|] eqn:Hu; [|apply IH].
  destruct (decide (Some i = id)) as [<-|Hne]; [|apply IH].
  simpl. intros [= ->]. exists i. by rewrite lookup_insert_eq.
Qed.

(** A pass that yields nothing has every declared id in the storage. *)
Lemma scan_done (w : list loc) (storage : gmap Z loc) (id : option Z)
    (M : Z) (b : loc) :
  (scan h w storage id).1.1 = None ->
  first_with_id M (omap (declaration h) w) = Some b ->
  is_Some ((scan h w storage id).2 !! M).
Proof.
  revert storage. induction w as [|l w IH]; intros storage; simpl; [done|].
  destruct (undeclared h l storage) as [[i a]|] eqn:Hu.
  - apply undeclared_Some in Hu as [Hd Hi]. rewrite Hd. simpl.
    destruct (decide (Some i = id)) as [<-|Hne]; [done|].
    intros Hr HM. destruct (decide (i = M)) as [->|]; [|by apply IH].
    exists a. apply scan_keeps. by rewrite lookup_insert_eq.
  - intros Hr HM. apply undeclared_None in Hu.
    destruct (declaration h l) as [[i a]|]; [|by apply IH]. simpl in HM.
    destruct (decide (i = M)) as [->|]; [|by apply IH].
    destruct Hu as [c Hc]. exists c. by apply scan_keeps.
Qed.
End Scan.

(** ** eachFormatEntry visits the carriers among the objects, in order *)

Lemma jsvalue_nested_ind (P : jsvalue -> Prop) :
  P JUndefined -> P JNull -> (forall b, P (JBool b)) -> (forall z, P (JNum z)) ->
  (forall x, P (JStr x)) ->
  (forall items, Forall P items -> P (JArray items)) ->
  (forall l d, P d -> P (JObject l d)) ->
  forall v, P v.
Proof.
  intros HU HN HB HZ HS HA HO.
  fix IH 1. intros [| |b|z|x|items|l d].
  - exact HU.
  - exact HN.
  - exact (HB b).
  - exact (HZ z).
  - exact (HS x).
  - apply HA. induction items as [|item items IHitems].
    + constructor.
    + constructor; [exact (IH item)|exact IHitems].
  - exact (HO l d (IH d)).
Qed.

Lemma run_entries_app {A : Type}
    (callback : loc -> heap * A -> outcome unit * (heap * A))
    (l1 l2 : list loc) (st : heap * A) :
  run_entries callback (l1 ++ l2) st =
  match run_entries callback l1 st with
  | (Ok _, st') => run_entries callback l2 st'
  | (Throw e, st') => (Throw e, st')
  end.
Proof.
  revert st. induction l1 as [|l l1 IH]; intros st; simpl; [done|].
  destruct (callback l st) as [[[]|e] st']; [apply IH|done].
Qed.

Section EachFormatEntry.
Context {A : Type}.
Variable callback : loc -> heap * A -> outcome unit * (heap * A).

(** The callback leaves every object a carrier or not as it was. *)
Hypothesis callback_carriers :
  forall l st, is_carrier st.1 l = true ->
  forall l', is_carrier (callback l st).2.1 l' = is_carrier st.1 l'.

Lemma run_entries_carriers (ls : list loc) (st : heap * A) :
  Forall (fun l => is_carrier st.1 l = true) ls ->
  forall l', is_carrier (run_entries callback ls st).2.1 l' = is_carrier st.1 l'.
Proof.
  revert st. induction ls as [|l ls IH]; intros st Hls l'; simpl; [done|].
  apply Forall_cons in Hls as [Hl Hls].
  pose proof (callback_carriers l st Hl) as Hcb.
  destruct (callback l st) as [[[]|e] st']; simpl in *; [|done].
  rewrite IH, Hcb; [done|].
  eapply Forall_impl; [exact Hls|]. intros x Hx. simpl. by rewrite Hcb.
Qed.

Lemma filter_carriers_ext (h h' : heap) (ls : list loc) :
  (forall l, is_carrier h' l = is_carrier h l) ->
  filter (fun l => is_carrier h' l = true) ls =
  filter (fun l => is_carrier h l = true) ls.
Proof.
  intros E. induction ls as [|l ls IH]; [done|].
  rewrite !filter_cons. rewrite IH.
  destruct (decide (is_carrier h' l = true)) as [H1|H1];
    destruct (decide (is_carrier h l = true)) as [H2|H2];
    rewrite E in H1; congruence.
Qed.

Lemma eachFormatEntry_run (v : jsvalue) (st : heap * A) :
  eachFormatEntry v callback st = run_entries callback (carriers st.1 v) st.
Proof.
  revert st. induction v as [| | | | |items IH|l d IH] using jsvalue_nested_ind;
    intros st; try reflexivity.
  - (* array *)
    unfold carriers. simpl.
    revert st. induction IH as [|item items Hitem _ IHitems]; intros st; [done|].
    simpl. rewrite filter_app, run_entries_app. rewrite Hitem.
    fold (carriers st.1 item).
    pose proof (run_entries_carriers (carriers st.1 item) st) as Hc.
    destruct (run_entries callback (carriers st.1 item) st) as [[[]|e] st'];
      [|done].
    rewrite IHitems. f_equal. apply filter_carriers_ext.
    intros l. simpl in Hc. apply Hc.
    apply Forall_forall. intros x Hx. unfold carriers in Hx.
    apply list_elem_of_filter in Hx. tauto.
  - (* object *)
    unfold carriers. simpl. rewrite filter_cons.
    destruct (decide (is_carrier st.1 l = true)) as [Hl|Hl].
    + rewrite Hl. simpl.
      pose proof (callback_carriers l st Hl) as Hc.
      destruct (callback l st) as [[[]|e] st']; [|done]. simpl in Hc.
      rewrite <- (filter_carriers_ext _ st'.1) by (intros; apply Hc).
      fold (carriers st'.1 d).
      destruct (truthy d) eqn:Ht; [apply IH|].
      unfold carriers. by rewrite (objects_falsy d Ht).
    + apply not_true_is_false in Hl. rewrite Hl.
      fold (carriers st.1 d).
      destruct (truthy d) eqn:Ht; [apply IH|].
      unfold carriers. by rewrite (objects_falsy d Ht).
Qed.
End EachFormatEntry.

Lemma run_collect (ls acc : list loc) (h : heap) :
  run_entries collect_entry ls (h, acc) = (Ok (), (h, acc ++ ls)).
Proof.
  revert acc. induction ls as [|l ls IH]; intros acc; simpl.
  - by rewrite app_nil_r.
  - rewrite IH. by rewrite <- app_assoc.
Qed.

(** The entries in document order are the carriers among the objects. *)
Lemma entries_carriers (h : heap) (v : jsvalue) : entries h v = carriers h v.
Proof.
  unfold entries. rewrite eachFormatEntry_run by done.
  by rewrite run_collect.
Qed.

Lemma declaration_carrier (h : heap) (l : loc) :
  is_Some (declaration h l) -> is_carrier h l = true.
Proof.
  unfold declaration, is_carrier.
  destruct (f (fields h l)), (s (fields h l)); intros [? ?]; done.
Qed.

(** The declarations in document order are those of the objects. *)
Lemma declarations_objects (h : heap) (v : jsvalue) :
  declarations h v = omap (declaration h) (objects v).
Proof.
  unfold declarations. rewrite entries_carriers. unfold carriers.
  induction (objects v) as [|l ls IH]; [done|].
  rewrite filter_cons. simpl.
  destruct (decide (is_carrier h l = true)) as [Hl|Hl]; csimpl; rewrite IH.
  - done.
  - destruct (declaration h l) eqn:E; [|done].
    destruct Hl. apply declaration_carrier. by rewrite E.
Qed.

(** ** The controller without the engine *)

Lemma next_scan (h : heap) (g : RecursiveIterator) (storage : gmap Z loc)
    (id : option Z) :
  exists r g' storage',
    next h g storage id = Some (r, g', storage') /\
    scan h (pending g) storage id = (yielded r, pending g', storage') /\
    (r = Done -> g' = []).
Proof. apply next_fuel_scan. done. Qed.

Lemma with_cache_same (c : SbisFormatController) : with_cache c (_cache c) = c.
Proof. by destruct c. Qed.

(** [getFormat] of a controller whose [_generator] is unset, in terms of one
    pass over the objects of its payload. *)
Lemma getFormat_scan (h : heap) (c : SbisFormatController) (id : option Z)
    (copy : bool) :
  _generator c = None ->
  getFormat h c id copy =
  match cache_get c id with
  | Some a => let '(r, h') := copied h copy a in (r, c, h')
  | None =>
      let '(found, _, cache') := scan h (objects (_data c)) (_cache c) id in
      match found with
      | None => (Throw ReferenceError, with_cache c cache', h)
      | Some a => let '(r, h') := copied h copy a in (r, with_cache c cache', h')
      end
  end.
Proof.
  intros Hg. unfold getFormat, generator, with_cache. rewrite Hg.
  destruct (cache_get c id); [done|].
  destruct (next_scan h (new_RecursiveIterator (_data c)) (_cache c) id)
    as (r & g' & cache' & -> & Hscan & _).
  rewrite pending_new in Hscan. rewrite Hscan. by destruct r.
Qed.

Lemma scanFormats_scan (h : heap) (c : SbisFormatController) (v : jsvalue) :
  scanFormats h c v =
  (Ok (), with_cache c (scan h (objects v) (_cache c) None).2, h).
Proof.
  unfold scanFormats. destruct (typeof_object v) eqn:Hv.
  - destruct (next_scan h (new_RecursiveIterator v) (_cache c) None)
      as (r & g' & cache' & -> & Hscan & _).
    rewrite pending_new in Hscan. by rewrite Hscan.
  - replace (objects v) with (@nil loc) by (by destruct v).
    simpl. by rewrite with_cache_same.
Qed.

(** The heap matters to the traversal through [objs] only. *)
Lemma declaration_objs (h h' : heap) (l : loc) :
  objs h' = objs h -> declaration h' l = declaration h l.
Proof. intros E. unfold declaration, fields. by rewrite E. Qed.

Lemma scan_objs (h h' : heap) (w : list loc) (storage : gmap Z loc)
    (id : option Z) :
  objs h' = objs h -> scan h' w storage id = scan h w storage id.
Proof.
  intros E. revert storage. induction w as [|l w IH]; intros storage; simpl; [done|].
  replace (undeclared h' l storage) with (undeclared h l storage)
    by (unfold undeclared; by rewrite (declaration_objs h h' l E)).
  destruct (undeclared h l storage) as [[i a]|]; by rewrite ?IH.
Qed.

Lemma first_declared_objs (h h' : heap) (v : jsvalue) (N : Z) :
  objs h' = objs h -> first_declared h' v N = first_declared h v N.
Proof.
  intros E. unfold first_declared. rewrite !declarations_objects.
  f_equal. induction (objects v) as [|l ls IH]; [done|]. csimpl.
  by rewrite IH, (declaration_objs h h' l E).
Qed.

Lemma copied_objs (h : heap) (copy : bool) (a : loc) :
  objs (copied h copy a).2 = objs h.
Proof.
  unfold copied, _clone. destruct copy; [|done].
  by destruct (arrs h !! a).
Qed.

(** [_clone] and [copied] only add an array. *)
Lemma copied_arrs (h : heap) (copy : bool) (a b : loc) :
  is_Some (arrs h !! b) -> arrs (copied h copy a).2 !! b = arrs h !! b.
Proof.
  unfold copied, _clone. destruct copy; [|done].
  destruct (arrs h !! a); [|done]. simpl. intros Hb.
  rewrite lookup_insert_ne; [done|]. intros <-.
  apply elem_of_dom in Hb. by apply is_fresh in Hb.
Qed.

(** ** What a call changes *)

Lemma run_call_frame (c c' : SbisFormatController) (h h' : heap) (k : call) :
  run_call (c, h) k = (c', h') ->
  _data c' = _data c /\ objs h' = objs h /\
  (forall b, is_Some (arrs h !! b) -> arrs h' !! b = arrs h !! b) /\
  (_generator c = None -> _generator c' = None).
Proof.
  destruct k as [id copy|i fmt|v]; simpl.
  - unfold getFormat.
    destruct (cache_get c id) as [a|].
    + pose proof (copied_objs h copy a). pose proof (copied_arrs h copy a).
      destruct (copied h copy a) as [r h1]. intros [= <- <-]. auto.
    + destruct (next h (generator c) (_cache c) id) as [[[r g'] cache']|];
        [|intros [= <- <-]; auto].
      destruct r as [|a].
      * intros [= <- <-]. simpl. repeat split; auto. by intros ->.
      * pose proof (copied_objs h copy a). pose proof (copied_arrs h copy a).
        destruct (copied h copy a) as [r h1]. intros [= <- <-]. simpl.
        repeat split; auto. by intros ->.
  - unfold setOriginal.
    pose proof (copied_objs h true fmt). pose proof (copied_arrs h true fmt).
    unfold copied in *.
    destruct (_clone h fmt) as [[a|e] h1]; intros [= <- <-]; auto.
  - rewrite scanFormats_scan. intros [= <- <-]. auto.
Qed.

Lemma run_calls_cons (st : SbisFormatController * heap) (k : call)
    (ks : list call) :
  run_calls st (k :: ks) = run_calls (run_call st k) ks.
Proof. reflexivity. Qed.

Lemma run_calls_frame (ks : list call) (c c' : SbisFormatController)
    (h h' : heap) :
  run_calls (c, h) ks = (c', h') ->
  _data c' = _data c /\ objs h' = objs h /\
  (forall b, is_Some (arrs h !! b) -> arrs h' !! b = arrs h !! b) /\
  (_generator c = None -> _generator c' = None).
Proof.
  revert c h. induction ks as [|k ks IH]; intros c h.
  - intros [= <- <-]. auto.
  - rewrite run_calls_cons.
    destruct (run_call (c, h) k) as [c1 h1] eqn:Hk.
    apply run_call_frame in Hk as (Hd & Ho & Ha & Hg).
    intros Hks. apply IH in Hks as (Hd' & Ho' & Ha' & Hg').
    repeat split; try congruence; auto.
    intros b Hb. rewrite Ha', Ha; auto. by rewrite Ha.
Qed.

(** ** Which ids a controller can resolve *)

Lemma first_declared_objects (h : heap) (v : jsvalue) (N : Z) :
  first_declared h v N = first_with_id N (omap (declaration h) (objects v)).
Proof. unfold first_declared. by rewrite declarations_objects. Qed.

Lemma scan_full_result (h : heap) (w : list loc) (storage : gmap Z loc) :
  (scan h w storage None).1.1 = None.
Proof. by rewrite scan_result. Qed.

Lemma scan_cache_known (h : heap) (w : list loc) (storage : gmap Z loc)
    (N : Z) :
  is_Some ((scan h w storage None).2 !! N) <->
  is_Some (storage !! N) \/
  is_Some (first_with_id N (omap (declaration h) w)).
Proof.
  split.
  - intros [b Hb]. apply scan_new in Hb as [?|[_ ?]]; eauto.
  - intros [[b Hb]|[b Hb]].
    + exists b. by apply scan_keeps.
    + eapply scan_done; [apply scan_full_result|exact Hb].
Qed.

Lemma run_call_getFormat (c : SbisFormatController) (h : heap)
    (id : option Z) (copy : bool) :
  _generator c = None ->
  exists h',
    objs h' = objs h /\
    (run_call (c, h) (CallGetFormat id copy) = (c, h') \/
     (cache_get c id = None /\
      run_call (c, h) (CallGetFormat id copy) =
      (with_cache c (scan h (objects (_data c)) (_cache c) id).2, h'))).
Proof.
  intros Hg. simpl. rewrite getFormat_scan by done.
  destruct (cache_get c id) as [a|].
  - pose proof (copied_objs h copy a).
    destruct (copied h copy a) as [r h1]. exists h1. auto.
  - destruct (scan h (objects (_data c)) (_cache c) id)
      as [[[a|] pend'] cache'].
    + pose proof (copied_objs h copy a).
      destruct (copied h copy a) as [r h1]. exists h1. auto.
    + exists h. auto.
Qed.

Lemma known_step (N : Z) (c : SbisFormatController) (h : heap) (k : call) :
  _generator c = None ->
  known N (run_call (c, h) k) <-> known N (c, h) \/ seeds N (c, h) k.
Proof.
  intros Hg. destruct k as [id copy|i fmt|v].
  - destruct (run_call_getFormat c h id copy Hg) as (h' & Ho & [->|[_ ->]]);
      unfold known; simpl; rewrite (first_declared_objs h h') by done.
    + tauto.
    + split; [|intros [[[b Hb]|?]|[]]; [left; exists b; by apply scan_keeps|by right]].
      intros [[b Hb]|?]; [|by left; right]. left.
      apply scan_new in Hb as [?|[_ Hb]]; [eauto|].
      right. rewrite first_declared_objects. eauto.
  - unfold known, seeds. simpl. unfold setOriginal, _clone.
    destruct (arrs h !! fmt) as [fl|] eqn:Hfmt; simpl.
    + rewrite (first_declared_objs h) by done.
      destruct (decide (i = N)) as [->|Hne].
      * rewrite lookup_insert_eq. split; [|eauto]. intros _. right. eauto.
      * rewrite lookup_insert_ne by done. split; [tauto|].
        intros [?|[? _]]; [done|congruence].
    + split; [tauto|]. intros [?|[_ [? ?]]]; [done|congruence].
  - unfold known, seeds. simpl. rewrite scanFormats_scan. simpl.
    rewrite scan_cache_known, !first_declared_objects. tauto.
Qed.

Lemma known_run (N : Z) (ks : list call) (c : SbisFormatController) (h : heap) :
  _generator c = None ->
  known N (run_calls (c, h) ks) <-> known N (c, h) \/ seeded N (c, h) ks.
Proof.
  revert c h. induction ks as [|k ks IH]; intros c h Hg.
  - simpl. tauto.
  - rewrite run_calls_cons. simpl seeded.
    destruct (run_call (c, h) k) as [c1 h1] eqn:Hk.
    pose proof (run_call_frame _ _ _ _ _ Hk) as (_ & _ & _ & Hg1).
    rewrite IH by auto. rewrite <- Hk, known_step by done. tauto.
Qed.

Lemma agrees_step (N : Z) (c : SbisFormatController) (h : heap) (k : call) :
  _generator c = None -> ~ seeds N (c, h) k ->
  agrees N (c, h) -> agrees N (run_call (c, h) k).
Proof.
  intros Hg Hs Ha. destruct k as [id copy|i fmt|v].
  - destruct (run_call_getFormat c h id copy Hg) as (h' & Ho & [->|[_ ->]]);
      unfold agrees; simpl; rewrite (first_declared_objs h h') by done.
    + apply Ha.
    + intros b Hb. apply scan_new in Hb as [?|[_ Hb]]; [by apply Ha|].
      by rewrite first_declared_objects.
  - unfold agrees, seeds in *. simpl in *. unfold setOriginal, _clone.
    destruct (arrs h !! fmt) as [fl|] eqn:Hfmt; simpl; [|done].
    rewrite (first_declared_objs h) by done.
    intros b. rewrite lookup_insert_ne; [apply Ha|].
    intros ->. apply Hs. eauto.
  - unfold agrees, seeds in *. simpl in *. rewrite scanFormats_scan. simpl.
    intros b Hb. apply scan_new in Hb as [?|[_ Hb]]; [by apply Ha|].
    destruct Hs. rewrite first_declared_objects. eauto.
Qed.

Lemma agrees_run (N : Z) (ks : list call) (c : SbisFormatController) (h : heap) :
  _generator c = None -> ~ seeded N (c, h) ks ->
  agrees N (c, h) -> agrees N (run_calls (c, h) ks).
Proof.
  revert c h. induction ks as [|k ks IH]; intros c h Hg Hs Ha; [done|].
  rewrite run_calls_cons. simpl in Hs.
  pose proof (agrees_step N c h k Hg) as Hstep.
  destruct (run_call (c, h) k) as [c1 h1] eqn:Hk.
  pose proof (run_call_frame _ _ _ _ _ Hk) as (_ & _ & _ & Hg1).
  apply IH; auto. rewrite <- Hk. tauto.
Qed.

(** The outcome of a lookup without [copy]. *)
Lemma getFormat_outcome (h : heap) (c : SbisFormatController) (N : Z) :
  _generator c = None -> agrees N (c, h) ->
  exists c',
    getFormat h c (Some N) false =
    (match first_declared h (_data c) N with
     | Some a => Ok a
     | None =>
         match _cache c !! N with
         | Some b => Ok b
         | None => Throw ReferenceError
         end
     end, c', h) /\
    (forall M b, _cache c !! M = Some b -> _cache c' !! M = Some b) /\
    (forall a, first_declared h (_data c) N = Some a -> _cache c' !! N = Some a) /\
    (_cache c !! N = None -> first_declared h (_data c) N = None ->
     forall M a, first_declared h (_data c) M = Some a -> is_Some (_cache c' !! M)).
Proof.
  intros Hg Ha. unfold agrees in Ha. simpl in Ha.
  rewrite getFormat_scan by done. simpl.
  destruct (_cache c !! N) as [b|] eqn:Hc.
  - exists c. rewrite (Ha b eq_refl). repeat split; auto; [congruence|done].
  - pose proof (scan_result h (objects (_data c)) (_cache c) (Some N)) as Hr.
    pose proof (scan_keeps h (objects (_data c)) (_cache c) (Some N)) as Hk.
    pose proof (scan_yield h (objects (_data c)) (_cache c) (Some N)) as Hy.
    pose proof (fun M b => scan_done h (objects (_data c)) (_cache c) (Some N) M b)
      as Hd.
    simpl in Hr. rewrite Hc, <- first_declared_objects in Hr.
    destruct (scan h (objects (_data c)) (_cache c) (Some N))
      as [[found pend'] cache']. simpl in *. subst found.
    exists (with_cache c cache').
    destruct (first_declared h (_data c) N) as [a|] eqn:Hf; simpl.
    + repeat split; auto; [|done].
      intros a' [= <-]. destruct (Hy a eq_refl) as (N' & [= <-] & ?). done.
    + repeat split; auto; [done|].
      intros _ _ M a HM. apply (Hd M a eq_refl).
      by rewrite <- first_declared_objects.
Qed.

(** ** Lookups on a controller bound to a payload *)

Lemma new_controller_agrees (N : Z) (v : jsvalue) (h : heap) :
  agrees N (new_SbisFormatController v, h).
Proof. intros b. simpl. by rewrite lookup_empty. Qed.

Lemma reached_generator (v : jsvalue) (h : heap) (ks : list call) :
  _generator (run_calls (new_SbisFormatController v, h) ks).1 = None /\
  _data (run_calls (new_SbisFormatController v, h) ks).1 = v /\
  objs (run_calls (new_SbisFormatController v, h) ks).2 = objs h.
Proof.
  destruct (run_calls (new_SbisFormatController v, h) ks) as [c' h'] eqn:E.
  apply run_calls_frame in E as (Hd & Ho & _ & Hg). simpl. auto.
Qed.

(** On a controller bound to [v], after any calls that did not put [N] into
    the cache by [setOriginal] or [scanFormats], [getFormat(N)] returns the
    structure declared earliest in [v]. *)
Lemma getFormat_unseeded (h : heap) (v : jsvalue) (ks : list call) (N : Z)
    (a : loc) :
  first_declared h v N = Some a ->
  ~ seeded N (new_SbisFormatController v, h) ks ->
  let st := run_calls (new_SbisFormatController v, h) ks in
  exists c', getFormat st.2 st.1 (Some N) false = (Ok a, c', st.2) /\
             _cache c' !! N = Some a.
Proof.
  intros Hfirst Hseed st.
  destruct (reached_generator v h ks) as (Hg & Hd & Ho). fold st in Hg, Hd, Ho.
  assert (Ha : agrees N st).
  { apply agrees_run; [done|done|apply new_controller_agrees]. }
  destruct st as [c hc]. simpl in *.
  destruct (getFormat_outcome hc c N Hg Ha) as (c' & Hget & _ & Hc' & _).
  rewrite Hd, (first_declared_objs h hc v N Ho), Hfirst in Hget, Hc'.
  exists c'. auto.
Qed.

Lemma lookups_seed_nothing (N : Z) (lookups : list (option Z * bool))
    (st : SbisFormatController * heap) :
  ~ seeded N st (calls_of_lookups lookups).
Proof.
  revert st. induction lookups as [|[id copy] lookups IH]; intros st; simpl.
  - tauto.
  - intros [[]|Hs]. by apply IH in Hs.
Qed.

(** C1. For every payload [v] and every id [N] declared in it with an inline
    structure, on a controller bound to [v], new or after any earlier
    lookups, [getFormat(N)] returns the structure [a] declared earliest in
    document order, and the cache then holds [a] for [N]: no lookup, of [N] or
    of another id, ever makes a later declaration of [N] take its place. *)
Theorem getFormat_earliest_declaration (h : heap) (v : jsvalue)
    (lookups : list (option Z * bool)) (N : Z) (a : loc) :
  first_declared h v N = Some a ->
  let st := run_calls (new_SbisFormatController v, h)
              (calls_of_lookups lookups) in
  exists c', getFormat st.2 st.1 (Some N) false = (Ok a, c', st.2) /\
             _cache c' !! N = Some a.
Proof.
  intros Hfirst. apply getFormat_unseeded; [done|].
  apply lookups_seed_nothing.
Qed.

(** C2. For every payload and ids [A] and [B], [getFormat(B)] after
    [getFormat(A)] on one controller returns what [getFormat(B)] returns on a
    fresh controller on the same payload: the same structure, or the same
    error. *)
Theorem getFormat_after_getFormat (h : heap) (v : jsvalue) (A B : option Z)
    (copyA : bool) :
  let '(_, c1, h1) := getFormat h (new_SbisFormatController v) A copyA in
  (getFormat h1 c1 B false).1.1 =
  (getFormat h (new_SbisFormatController v) B false).1.1.
Proof.
  pose proof (reached_generator v h [CallGetFormat A copyA]) as (Hg & Hd & Ho).
  unfold run_calls in *. simpl in Hg, Hd, Ho.
  destruct (getFormat h (new_SbisFormatController v) A copyA)
    as [[r c1] h1] eqn:E1. simpl in *.
  destruct B as [N|].
  - assert (Ha : agrees N (c1, h1)).
    { pose proof (agrees_step N (new_SbisFormatController v) h
                    (CallGetFormat A copyA) eq_refl (fun x => x)
                    (new_controller_agrees N v h)) as Hs.
      simpl in Hs. by rewrite E1 in Hs. }
    destruct (getFormat_outcome h1 c1 N Hg Ha) as (c' & -> & _).
    destruct (getFormat_outcome h (new_SbisFormatController v) N eq_refl
                (new_controller_agrees N v h)) as (c'' & -> & _).
    simpl. rewrite Hd, (first_declared_objs h h1 v N Ho).
    destruct (first_declared h v N) as [a|] eqn:Hf; [done|].
    destruct (_cache c1 !! N) as [b|] eqn:Hc; [|done].
    specialize (Ha b Hc). simpl in Ha.
    rewrite Hd, (first_declared_objs h h1 v N Ho) in Ha. congruence.
  - rewrite !getFormat_scan by done. simpl.
    pose proof (scan_result h1 (objects (_data c1)) (_cache c1) None) as H1.
    pose proof (scan_result h (objects v) ∅ None) as H2.
    destruct (scan h1 _ _ None) as [[f1 ?] ?], (scan h _ _ None) as [[f2 ?] ?].
    simpl in *. by subst.
Qed.

(** [getFormat] fails with the ReferenceError exactly for an id that is
    neither in the cache nor declared in the payload. *)
Lemma getFormat_fails_iff (h : heap) (c : SbisFormatController) (N : Z)
    (copy : bool) :
  _generator c = None ->
  (getFormat h c (Some N) copy).1.1 = Throw ReferenceError <-> ~ known N (c, h).
Proof.
  intros Hg. rewrite getFormat_scan by done. unfold known. simpl.
  assert (Hcopied : forall a, (copied h copy a).1 <> Throw ReferenceError).
  { intros a. unfold copied, _clone. destruct copy; [|done].
    by destruct (arrs h !! a). }
  destruct (_cache c !! N) as [b|] eqn:Hc.
  - specialize (Hcopied b). destruct (copied h copy b) as [r h']. simpl in *.
    split; [done|]. intros []. eauto.
  - pose proof (scan_result h (objects (_data c)) (_cache c) (Some N)) as Hr.
    simpl in Hr. rewrite Hc, <- first_declared_objects in Hr.
    destruct (scan h (objects (_data c)) (_cache c) (Some N))
      as [[found pend'] cache']. simpl in Hr. subst found.
    destruct (first_declared h (_data c) N) as [a|].
    + specialize (Hcopied a). destruct (copied h copy a) as [r h']. simpl in *.
      split; [done|]. intros []. eauto.
    + simpl. split; [|done]. intros _ [[? ?]|[? ?]]; done.
Qed.

(** C4, amended. On a controller bound to [v], after any calls, [getFormat(N)]
    fails with the ReferenceError if and only if [N] is neither declared in
    [v] with an inline structure, nor was set by [setOriginal], nor was
    declared in a payload given to [scanFormats]; when it fails, the traversal
    it ran has emptied the stack of its engine. *)
Theorem getFormat_fails_iff_unknown (h : heap) (v : jsvalue) (ks : list call)
    (N : Z) (copy : bool) :
  let st := run_calls (new_SbisFormatController v, h) ks in
  ((getFormat st.2 st.1 (Some N) copy).1.1 = Throw ReferenceError <->
   first_declared h v N = None /\ ~ seeded N (new_SbisFormatController v, h) ks)
  /\
  ((getFormat st.2 st.1 (Some N) copy).1.1 = Throw ReferenceError ->
   next st.2 (generator st.1) (_cache st.1) (Some N) =
   Some (Done, [], _cache (getFormat st.2 st.1 (Some N) copy).1.2)).
Proof.
  intros st.
  destruct (reached_generator v h ks) as (Hg & Hd & Ho). fold st in Hg, Hd, Ho.
  pose proof (known_run N ks (new_SbisFormatController v) h eq_refl) as Hk.
  fold st in Hk. destruct st as [c hc]. simpl in *. split.
  - rewrite getFormat_fails_iff, Hk by done. unfold known. simpl.
    rewrite lookup_empty. split.
    + intros Hn. split; [|tauto].
      destruct (first_declared h v N); [|done]. destruct Hn. left. right. eauto.
    + intros [-> ?] [[[? ?]|[? ?]]|?]; done.
  - unfold getFormat.
    destruct (cache_get c (Some N)) as [b|].
    { unfold copied, _clone. destruct copy; [|done].
      by destruct (arrs hc !! b). }
    destruct (next_scan hc (generator c) (_cache c) (Some N))
      as (r & g' & cache' & -> & _ & Hdone).
    destruct r as [|a]; simpl.
    + by rewrite Hdone.
    + unfold copied, _clone. destruct copy; [|done].
      by destruct (arrs hc !! a).
Qed.

(** C10. When [getFormat(id)] fails with the ReferenceError on a controller
    bound to [v], the cache it leaves holds an entry for every id declared in
    [v] with an inline structure, and [getFormat] of such an id then returns
    that entry and changes nothing. *)
Theorem failed_lookup_fills_cache (h : heap) (v : jsvalue) (ks : list call)
    (id : option Z) (copy : bool) (N : Z) (a : loc) :
  let st := run_calls (new_SbisFormatController v, h) ks in
  (getFormat st.2 st.1 id copy).1.1 = Throw ReferenceError ->
  first_declared h v N = Some a ->
  let c' := (getFormat st.2 st.1 id copy).1.2 in
  let h' := (getFormat st.2 st.1 id copy).2 in
  exists b, _cache c' !! N = Some b /\
            getFormat h' c' (Some N) false = (Ok b, c', h').
Proof.
  intros st.
  destruct (reached_generator v h ks) as (Hg & Hd & Ho). fold st in Hg, Hd, Ho.
  destruct st as [c hc]. simpl in *.
  rewrite getFormat_scan by done.
  assert (Hcopied : forall x, (copied hc copy x).1 <> Throw ReferenceError).
  { intros x. unfold copied, _clone. destruct copy; [|done].
    by destruct (arrs hc !! x). }
  destruct (cache_get c id) as [x|].
  { specialize (Hcopied x). by destruct (copied hc copy x). }
  pose proof (fun M b => scan_done hc (objects (_data c)) (_cache c) id M b) as Hdone.
  destruct (scan hc (objects (_data c)) (_cache c) id) as [[[x|] pend'] cache'].
  { specialize (Hcopied x). by destruct (copied hc copy x). }
  simpl. intros _ Hfirst.
  destruct (Hdone N a eq_refl) as [b Hb].
  { by rewrite <- first_declared_objects, Hd, (first_declared_objs h hc). }
  simpl in Hb. exists b. split; [done|].
  unfold getFormat, cache_get. simpl. by rewrite Hb.
Qed.

(** C6. [scanFormats(payload)] runs the engine on [payload] with no target
    until its stack is empty; the cache it leaves holds an entry for every id
    declared in [payload] with an inline structure (the earliest declared one,
    if the id was not in the cache before), and [getFormat] of such an id then
    returns that entry and changes nothing: no engine is run. *)
Theorem scanFormats_fills_cache (h : heap) (c : SbisFormatController)
    (payload : jsvalue) :
  let '(r, c', h') := scanFormats h c payload in
  r = Ok () /\ h' = h /\
  (typeof_object payload = true ->
   next h (new_RecursiveIterator payload) (_cache c) None =
   Some (Done, [], _cache c')) /\
  forall N a, first_declared h payload N = Some a ->
    exists b, _cache c' !! N = Some b /\
              getFormat h' c' (Some N) false = (Ok b, c', h') /\
              (_cache c !! N = None -> b = a).
Proof.
  pose proof (scanFormats_scan h c payload) as E.
  destruct (scanFormats h c payload) as [[r c'] h'].
  injection E as -> -> ->. repeat split.
  - intros _. simpl.
    destruct (next_scan h (new_RecursiveIterator payload) (_cache c) None)
      as (r & g' & cache' & -> & Hscan & Hdone).
    rewrite pending_new in Hscan. rewrite Hscan in *. simpl.
    pose proof (scan_full_result h (objects payload) (_cache c)) as Hr.
    rewrite Hscan in Hr. destruct r; [|done]. by rewrite Hdone.
  - intros N a Hfirst. rewrite first_declared_objects in Hfirst.
    destruct (scan_done h (objects payload) (_cache c) None N a) as [b Hb];
      [apply scan_full_result|done|].
    exists b. simpl. repeat split; [done| |].
    + unfold getFormat, cache_get. simpl. by rewrite Hb.
    + intros Hc. apply scan_new in Hb as [?|[_ ?]]; congruence.
Qed.

(** C7. When [getFormat(N)] resolves to the array [a0], [getFormat(N, true)]
    returns a new array [a], distinct from [a0], with the elements of [a0];
    the cache holds [a0] for [N], and whatever is then written to [a],
    [getFormat(N, false)] returns [a0] with the elements it had. *)
Theorem getFormat_copy_independent (h : heap) (v : jsvalue) (ks : list call)
    (N : Z) (a0 : loc) (c1 : SbisFormatController) :
  let st := run_calls (new_SbisFormatController v, h) ks in
  getFormat st.2 st.1 (Some N) false = (Ok a0, c1, st.2) ->
  is_Some (arrs st.2 !! a0) ->
  exists a h2,
    getFormat st.2 st.1 (Some N) true = (Ok a, c1, h2) /\
    a <> a0 /\
    _cache c1 !! N = Some a0 /\
    arrs h2 !! a = arrs h2 !! a0 /\
    forall fl : list IFieldFormat,
      let h3 := {| objs := objs h2; arrs := <[a := fl]> (arrs h2) |} in
      getFormat h3 c1 (Some N) false = (Ok a0, c1, h3) /\
      arrs h3 !! a0 = arrs st.2 !! a0.
Proof.
  intros st.
  destruct (reached_generator v h ks) as (Hg & _ & _). fold st in Hg.
  destruct st as [c hc]. simpl in *.
  rewrite !getFormat_scan by done. intros Hget [fl0 Hfl0].
  set (a := fresh (dom (arrs hc))).
  assert (Hne : a <> a0).
  { intros E. apply (is_fresh (dom (arrs hc))). fold a. rewrite E.
    apply elem_of_dom. eauto. }
  assert (Hcache : _cache c1 !! N = Some a0 /\
    match cache_get c (Some N) with
    | Some x => x = a0 /\ c1 = c
    | None =>
        let '(found, _, cache') := scan hc (objects (_data c)) (_cache c) (Some N) in
        found = Some a0 /\ c1 = with_cache c cache'
    end).
  { simpl in *. destruct (_cache c !! N) as [x|] eqn:Hx.
    - injection Hget as -> ->. auto.
    - pose proof (scan_yield hc (objects (_data c)) (_cache c) (Some N)) as Hy.
      destruct (scan hc (objects (_data c)) (_cache c) (Some N))
        as [[[x|] pend'] cache']; [|done].
      simpl in *. injection Hget as -> <-.
      destruct (Hy a0 eq_refl) as (N' & [= <-] & ?). auto. }
  destruct Hcache as [Hc1 Hcase].
  exists a, {| objs := objs hc; arrs := <[a := fl0]> (arrs hc) |}.
  assert (Hcopy : copied hc true a0 =
                  (Ok a, {| objs := objs hc; arrs := <[a := fl0]> (arrs hc) |})).
  { unfold copied, _clone. by rewrite Hfl0. }
  repeat split.
  - destruct (cache_get c (Some N)) as [x|].
    + destruct Hcase as [-> ->]. by rewrite Hcopy.
    + destruct (scan hc (objects (_data c)) (_cache c) (Some N))
        as [[found pend'] cache'].
      destruct Hcase as [-> ->]. by rewrite Hcopy.
  - done.
  - done.
  - simpl. rewrite lookup_insert_eq. by rewrite lookup_insert_ne.
  - unfold getFormat, cache_get. simpl. by rewrite Hc1.
  - simpl. by rewrite !lookup_insert_ne.
Qed.

(** ** The engine on its own *)

Lemma record_undeclared (h : heap) (storage : gmap Z loc) (l : loc) :
  undeclared h l (record h storage l) = None.
Proof.
  unfold record. destruct (undeclared h l storage) as [[i a]|] eqn:E; [|done].
  apply undeclared_Some in E as [Hd _]. apply undeclared_None. rewrite Hd.
  rewrite lookup_insert_eq. eauto.
Qed.

Lemma scan_split (h : heap) (w : list loc) (storage : gmap Z loc)
    (id : option Z) :
  match scan h w storage id with
  | (None, pend', storage') =>
      pend' = [] /\ storage' = foldl (record h) storage w
  | (Some a, pend', storage') =>
      exists w1 l w2,
        w = w1 ++ l :: w2 /\ pend' = l :: w2 /\
        storage' = foldl (record h) storage (w1 ++ [l])
  end.
Proof.
  revert storage. induction w as [|l w IH]; intros storage; simpl; [done|].
  assert (Hrec : record h storage l =
                 match undeclared h l storage with
                 | Some (i, a) => <[i:=a]> storage
                 | None => storage
                 end) by done.
  destruct (undeclared h l storage) as [[i a]|] eqn:E.
  - destruct (decide (Some i = id)).
    + exists [], l, w. simpl. by rewrite Hrec.
    + specialize (IH (<[i:=a]> storage)). rewrite Hrec.
      destruct (scan h w (<[i:=a]> storage) id) as [[[b|] pend'] storage'];
        [|done].
      destruct IH as (w1 & l' & w2 & -> & -> & ->). exists (l :: w1), l', w2.
      simpl. by rewrite Hrec.
  - specialize (IH storage). rewrite Hrec.
    destruct (scan h w storage id) as [[[b|] pend'] storage']; [|done].
    destruct IH as (w1 & l' & w2 & -> & -> & ->). exists (l :: w1), l', w2.
    simpl. by rewrite Hrec.
Qed.

Lemma record_keeps_undeclared (h : heap) (storage : gmap Z loc) (l x : loc) :
  undeclared h l storage = None -> undeclared h l (record h storage x) = None.
Proof.
  intros Hl. unfold record.
  destruct (undeclared h x storage) as [[i a]|] eqn:Hx; [|done].
  apply undeclared_Some in Hx as [_ Hi].
  apply undeclared_None in Hl. apply undeclared_None.
  destruct (declaration h l) as [[j b]|]; [|done].
  destruct Hl as [c Hc]. exists c. rewrite lookup_insert_ne; [done|].
  intros ->. congruence.
Qed.

Lemma passed_recorded (h : heap) (passed : list loc) (storage0 : gmap Z loc)
    (l : loc) :
  l ∈ passed -> undeclared h l (foldl (record h) storage0 passed) = None.
Proof.
  assert (Hkeep : forall w storage,
            undeclared h l storage = None ->
            undeclared h l (foldl (record h) storage w) = None).
  { induction w as [|x w IH]; intros storage Hl; [done|].
    simpl. by apply IH, record_keeps_undeclared. }
  revert storage0. induction passed as [|x passed IH]; intros storage0 Hin.
  - by apply elem_of_nil in Hin.
  - simpl. apply elem_of_cons in Hin as [->|Hin]; [|by apply IH].
    apply Hkeep, record_undeclared.
Qed.

Lemma passed_once_next (h : heap) (v : jsvalue) (storage0 : gmap Z loc)
    (g g' : RecursiveIterator) (storage storage' : gmap Z loc)
    (id : option Z) (r : IResultGenerator) :
  passed_once h v storage0 g storage ->
  next h g storage id = Some (r, g', storage') ->
  passed_once h v storage0 g' storage' /\
  (r = Done -> g' = [] /\ storage' = foldl (record h) storage0 (objects v)).
Proof.
  intros (passed & rest & Hv & Hs & Hp & _) Hnext.
  destruct (next_scan h g storage id) as (r1 & g1 & s1 & E & Hscan & Hdone).
  rewrite Hnext in E.
  assert (r1 = r /\ g1 = g' /\ s1 = storage') as (-> & -> & ->)
    by (by injection E).
  clear E.
  assert (Hrest : scan h rest storage id = (yielded r, pending g', storage')).
  { destruct Hp as [<-|(passed' & l & -> & Hp)]; [done|].
    rewrite Hp in Hscan. simpl in Hscan. subst storage.
    rewrite foldl_app in *. simpl in *.
    by rewrite record_undeclared in Hscan. }
  pose proof (scan_split h rest storage id) as Hsplit. rewrite Hrest in Hsplit.
  destruct r as [|a]; simpl in Hsplit.
  - destruct Hsplit as [Hnil ->]. subst storage. split.
    + exists (passed ++ rest), []. rewrite app_nil_r, <- foldl_app.
      repeat split; auto. intros l. apply passed_recorded.
    + intros _. split; [by apply Hdone|]. by rewrite Hv, foldl_app.
  - split; [|done]. destruct Hsplit as (w1 & l & w2 & -> & Hpend & ->).
    subst storage. rewrite <- foldl_app.
    exists (passed ++ w1 ++ [l]), w2. repeat split.
    + by rewrite Hv, <- !app_assoc.
    + right. exists (passed ++ w1), l. by rewrite <- app_assoc.
    + intros l'. apply passed_recorded.
Qed.

Lemma scan_full (h : heap) (w : list loc) (storage : gmap Z loc) :
  scan h w storage None = (None, [], foldl (record h) storage w).
Proof.
  pose proof (scan_split h w storage None) as Hs.
  pose proof (scan_full_result h w storage) as Hr.
  destruct (scan h w storage None) as [[[a|] pend'] storage']; [done|].
  by destruct Hs as [-> ->].
Qed.

Lemma drive_passed_once (h : heap) (v : jsvalue) (storage0 : gmap Z loc)
    (ids : list (option Z)) (g : RecursiveIterator) (storage : gmap Z loc) :
  passed_once h v storage0 g storage ->
  exists rs g' storage',
    drive h g storage ids = Some (rs, g', storage') /\
    length rs = length ids /\
    passed_once h v storage0 g' storage' /\
    (last rs = Some Done ->
     g' = [] /\ storage' = foldl (record h) storage0 (objects v)).
Proof.
  revert g storage. induction ids as [|id ids IH]; intros g storage Hp.
  - exists [], g, storage. by repeat split.
  - simpl.
    destruct (next_scan h g storage id) as (r & g1 & s1 & Hnext & _).
    rewrite Hnext.
    destruct (passed_once_next h v storage0 g g1 storage s1 id r Hp Hnext)
      as [Hp1 Hdone].
    destruct (IH g1 s1 Hp1) as (rs & g2 & s2 & Hdrive & Hlen & Hp2 & Hlast).
    rewrite Hdrive. exists (r :: rs), g2, s2.
    split; [done|]. split; [simpl; lia|]. split; [done|]. intros Hl.
    destruct rs as [|r' rs].
    + destruct ids; [|done]. simpl in Hdrive, Hl.
      injection Hdrive as <- <-. injection Hl as ->. by apply Hdone.
    + by apply Hlast.
Qed.

(** C9. For every payload, every call of [next] returns, a yielded
    structure or [Done], under any budget of at least [engine_fuel] and the
    same under each.  Across the calls on one engine, whatever their targets,
    the engine passes the objects of the payload in document order, each once:
    those passed and those not reached make up the objects of the payload,
    the storage is what recording the passed ones in turn makes of the
    initial one, and no passed object can be recorded again; the object at
    which a call yielded stays on the stack, and the next call resumes in it.
    When a call returns [Done] the stack is empty, every object has been
    passed and every declared id is in the storage. *)
Theorem engine_returns_and_passes_once (h : heap) (v : jsvalue)
    (storage0 : gmap Z loc) (ids : list (option Z)) :
  (forall g storage id fuel,
     exists r g' storage',
       next h g storage id = Some (r, g', storage') /\
       (engine_fuel g <= fuel ->
        next_fuel h fuel g storage id = Some (r, g', storage'))) /\
  exists rs g storage,
    drive h (new_RecursiveIterator v) storage0 ids = Some (rs, g, storage) /\
    length rs = length ids /\
    passed_once h v storage0 g storage /\
    (last rs = Some Done ->
     g = [] /\ storage = foldl (record h) storage0 (objects v) /\
     forall N a, first_declared h v N = Some a -> is_Some (storage !! N)).
Proof.
  split.
  - intros g storage id fuel.
    destruct (next_scan h g storage id) as (r & g' & storage' & Hnext & _).
    exists r, g', storage'. split; [done|]. intros Hle.
    by apply (next_fuel_mono h id (engine_fuel g)).
  - destruct (drive_passed_once h v storage0 ids (new_RecursiveIterator v) storage0)
      as (rs & g & storage & Hd & Hlen & Hp & Hlast).
    { exists [], (objects v). repeat split.
      - left. apply pending_new.
      - intros l Hl. by apply elem_of_nil in Hl. }
    exists rs, g, storage. split; [done|]. split; [done|]. split; [done|].
    intros Hdone. destruct (Hlast Hdone) as [-> ->]. split; [done|].
    split; [done|]. intros N a Hfirst.
    rewrite first_declared_objects in Hfirst.
    pose proof (scan_done h (objects v) storage0 None N a
                  (scan_full_result _ _ _) Hfirst) as Hs.
    by rewrite scan_full in Hs.
Qed.

(** ** recoverData *)

Lemma patched_refl (h : heap) (cache : gmap Z loc) : patched h h cache.
Proof. split; [done|]. intros l. auto. Qed.

Lemma patched_cache (h0 hk : heap) (cache cache' : gmap Z loc) :
  (forall M b, cache !! M = Some b -> cache' !! M = Some b) ->
  patched h0 hk cache -> patched h0 hk cache'.
Proof.
  intros Hm [Ha Hp]. split; [done|]. intros l.
  destruct (Hp l) as [Hf [Hs|(Hs & i & a & Hi & Ha' & Hc)]]; split; auto.
  right. split; [done|]. exists i, a. auto.
Qed.

Lemma fields_set_s (h : heap) (l l' : loc) (a : loc) :
  fields (set_s h l a) l' =
  if decide (l' = l) then {| f := f (fields h l); s := Some a |}
  else fields h l'.
Proof.
  unfold fields at 1, set_s. simpl. destruct (decide (l' = l)) as [->|Hne].
  - by rewrite lookup_insert_eq.
  - by rewrite lookup_insert_ne.
Qed.

Lemma fields_delete_f (h : heap) (l l' : loc) :
  fields (delete_f h l) l' =
  if decide (l' = l) then {| f := None; s := s (fields h l) |}
  else fields h l'.
Proof.
  unfold fields at 1, delete_f. simpl. destruct (decide (l' = l)) as [->|Hne].
  - by rewrite lookup_insert_eq.
  - by rewrite lookup_insert_ne.
Qed.

Lemma fields_delete_all (ls : list loc) (h : heap) (l : loc) :
  f (fields (foldl delete_f h ls) l) =
    (if decide (l ∈ ls) then None else f (fields h l)) /\
  s (fields (foldl delete_f h ls) l) = s (fields h l) /\
  arrs (foldl delete_f h ls) = arrs h.
Proof.
  revert h. induction ls as [|x ls IH]; intros h; cbn [foldl].
  - rewrite decide_False; [done|]. apply not_elem_of_nil.
  - destruct (IH (delete_f h x)) as (Hf & Hs & Ha).
    rewrite Hf, Hs, Ha, fields_delete_f. repeat split.
    + destruct (decide (l ∈ ls)) as [Hin|Hin].
      * rewrite decide_True; [done|]. by apply list_elem_of_further.
      * destruct (decide (l = x)) as [->|Hne]; simpl.
        -- rewrite decide_True; [done|]. apply list_elem_of_here.
        -- rewrite decide_False; [done|].
           intros Hx. apply elem_of_cons in Hx as [?|?]; done.
    + by destruct (decide (l = x)) as [->|Hne].
Qed.

(** On a patched heap the engine records and yields what it does on the
    original one, once the storage holds the cache. *)
Lemma scan_patched (h0 hk : heap) (cache : gmap Z loc) (w : list loc)
    (storage : gmap Z loc) (id : option Z) :
  patched h0 hk cache ->
  (forall M b, cache !! M = Some b -> storage !! M = Some b) ->
  scan hk w storage id = scan h0 w storage id.
Proof.
  intros [_ Hp]. revert storage.
  induction w as [|l w IH]; intros storage Hm; simpl; [done|].
  assert (Hu : undeclared hk l storage = undeclared h0 l storage).
  { unfold undeclared, declaration.
    destruct (Hp l) as [-> [->|(Hs & i & a & Hi & -> & Hc)]]; [done|].
    rewrite Hs, Hi. apply Hm in Hc.
    destruct (decide (storage !! i = None)); congruence. }
  rewrite Hu. destruct (undeclared h0 l storage) as [[i a]|] eqn:E; [|by apply IH].
  apply undeclared_Some in E as [_ Hi].
  assert (forall M b, cache !! M = Some b -> <[i:=a]> storage !! M = Some b).
  { intros M b HM. apply Hm in HM. rewrite lookup_insert_ne; [done|].
    intros ->. congruence. }
  destruct (decide (Some i = id)); [done|by apply IH].
Qed.

Lemma getFormat_objs (h : heap) (c : SbisFormatController) (id : option Z)
    (copy : bool) :
  objs (getFormat h c id copy).2 = objs h.
Proof.
  pose proof (run_call_frame c (getFormat h c id copy).1.2 h
                (getFormat h c id copy).2 (CallGetFormat id copy)) as Hf.
  simpl in Hf. destruct (getFormat h c id copy) as [[r c'] h'].
  by destruct (Hf eq_refl) as (_ & ? & _).
Qed.

Lemma is_carrier_objs (h h' : heap) (l : loc) :
  objs h' = objs h -> is_carrier h' l = is_carrier h l.
Proof. intros E. unfold is_carrier, fields. by rewrite E. Qed.

Lemma recover_entry_carriers (l : loc)
    (st : heap * (SbisFormatController * list loc)) :
  is_carrier st.1 l = true ->
  forall l', is_carrier (recover_entry l st).2.1 l' = is_carrier st.1 l'.
Proof.
  destruct st as [h [c res]]. simpl. intros Hl l'.
  assert (Hset : forall h' a, objs h' = objs h ->
            is_carrier (set_s h' l a) l' = is_carrier h l').
  { intros h' a E. unfold is_carrier at 1. rewrite fields_set_s.
    destruct (decide (l' = l)) as [->|_]; [|by apply is_carrier_objs].
    simpl. by rewrite Hl. }
  destruct (s (fields h l)) as [a|]; simpl; [by apply Hset|].
  pose proof (getFormat_objs h c (f (fields h l)) false) as Ho.
  destruct (getFormat h c (f (fields h l)) false) as [[[a|e] c'] h']; simpl in *.
  - by apply Hset.
  - by apply is_carrier_objs.
Qed.

Lemma patched_set_s (h0 hk : heap) (cache : gmap Z loc) (l : loc) (a : loc) :
  patched h0 hk cache ->
  (s (fields hk l) = Some a \/
   (s (fields h0 l) = None /\
    exists i, f (fields h0 l) = Some i /\ cache !! i = Some a)) ->
  patched h0 (set_s hk l a) cache.
Proof.
  intros [Ha Hp] Hl. split; [done|]. intros l'. rewrite fields_set_s.
  destruct (decide (l' = l)) as [->|_]; [|apply Hp]. simpl.
  destruct (Hp l) as [Hf Hs]. split; [done|].
  destruct Hl as [E|(Hs0 & i & Hi & Hc)].
  - rewrite <- E. destruct Hs as [->|(Hs0 & i & b & Hi & Hb & Hc)]; [by left|].
    right. split; [done|]. exists i, b. auto.
  - right. split; [done|]. exists i, a. auto.
Qed.

Lemma recovering_push (h0 : heap) (c0 : SbisFormatController) (hk : heap)
    (ck ck' : SbisFormatController) (res : list loc) (l : loc) (a : loc) :
  recovering h0 c0 hk ck res ->
  _data ck' = _data ck -> _generator ck' = _generator ck ->
  (forall M b, _cache ck !! M = Some b -> _cache ck' !! M = Some b) ->
  (forall M b, _cache ck' !! M = Some b ->
     _cache ck !! M = Some b \/
     (_cache ck !! M = None /\ first_declared h0 (_data c0) M = Some b)) ->
  (s (fields hk l) = Some a \/
   (s (fields h0 l) = None /\
    exists i, f (fields h0 l) = Some i /\ _cache ck' !! i = Some a)) ->
  recovering h0 c0 (set_s hk l a) ck' (res ++ [l]).
Proof.
  intros (Hp & Hd & Hg & Hk & Hn & Hr) Hd' Hg' Hk' Hn' Hl.
  split; [|repeat split].
  - apply (patched_set_s h0 hk (_cache ck') l a); [|done].
    by apply patched_cache with (cache := _cache ck).
  - congruence.
  - congruence.
  - auto.
  - intros M b HM. destruct (Hn' M b HM) as [?|[Hnone ?]]; [by apply Hn|].
    right. split; [|done]. destruct (_cache c0 !! M) as [x|] eqn:E; [|done].
    apply Hk in E. congruence.
  - intros l' Hin. rewrite fields_set_s.
    destruct (decide (l' = l)) as [->|Hne]; [by eexists|].
    apply Hr. apply elem_of_app in Hin as [?|Hin]; [done|].
    by apply list_elem_of_singleton in Hin.
Qed.

Lemma recover_entry_step (h0 : heap) (c0 : SbisFormatController) (hk : heap)
    (ck : SbisFormatController) (res : list loc) (l : loc) :
  recovering h0 c0 hk ck res ->
  is_carrier h0 l = true ->
  (forall i, s (fields h0 l) = None -> f (fields h0 l) = Some i ->
             known i (c0, h0)) ->
  exists hk' ck',
    recover_entry l (hk, (ck, res)) = (Ok (), (hk', (ck', res ++ [l]))) /\
    recovering h0 c0 hk' ck' (res ++ [l]).
Proof.
  intros Hrec Hl Hknown.
  pose proof Hrec as (Hp & Hd & Hg & Hk & Hn & Hr).
  unfold recover_entry.
  destruct (s (fields hk l)) as [a|] eqn:Hs.
  { exists (set_s hk l a), ck. split; [done|].
    apply (recovering_push h0 c0 hk ck ck res l a); auto. }
  destruct Hp as [Ha Hp]. destruct (Hp l) as [Hf Hs'].
  assert (Hs0 : s (fields h0 l) = None).
  { destruct Hs' as [<-|(? & _)]; done. }
  assert (exists i, f (fields h0 l) = Some i) as [i Hi].
  { unfold is_carrier in Hl. rewrite Hs0 in Hl.
    destruct (f (fields h0 l)) as [i|]; [by exists i|done]. }
  rewrite Hf, Hi. rewrite getFormat_scan by done. simpl.
  destruct (_cache ck !! i) as [a|] eqn:Hc.
  { exists (set_s hk l a), ck. split; [done|].
    apply (recovering_push h0 c0 hk ck ck res l a); eauto. }
  rewrite (scan_patched h0 hk (_cache ck)), Hd by done.
  pose proof (scan_result h0 (objects (_data c0)) (_cache ck) (Some i)) as Hres.
  pose proof (scan_keeps h0 (objects (_data c0)) (_cache ck) (Some i)) as Hkeep.
  pose proof (scan_new h0 (objects (_data c0)) (_cache ck) (Some i)) as Hnew.
  pose proof (scan_yield h0 (objects (_data c0)) (_cache ck) (Some i)) as Hy.
  simpl in Hres. rewrite Hc, <- first_declared_objects in Hres.
  destruct (scan h0 (objects (_data c0)) (_cache ck) (Some i))
    as [[found pend'] cache']. simpl in *. subst found.
  destruct (Hknown i Hs0 Hi) as [[x Hx]|[a Hfirst]]; simpl in *.
  { apply Hk in Hx. congruence. }
  rewrite Hfirst.
  exists (set_s hk l a), (with_cache ck cache'). split; [done|].
  apply (recovering_push h0 c0 hk ck (with_cache ck cache') res l a); auto.
  - simpl. intros M b HM. apply Hnew in HM as [?|[? HM]]; [by left|right].
    by rewrite first_declared_objects.
  - right. split; [done|]. exists i. split; [done|]. simpl.
    rewrite Hfirst in Hy. destruct (Hy a eq_refl) as (N' & [= <-] & ?). done.
Qed.

Lemma recover_run (h0 : heap) (c0 : SbisFormatController) (ls : list loc) :
  forall hk ck res,
    recovering h0 c0 hk ck res ->
    Forall (fun l => is_carrier h0 l = true /\
              forall i, s (fields h0 l) = None -> f (fields h0 l) = Some i ->
                        known i (c0, h0)) ls ->
    exists hn cn,
      run_entries recover_entry ls (hk, (ck, res)) =
        (Ok (), (hn, (cn, res ++ ls))) /\
      recovering h0 c0 hn cn (res ++ ls).
Proof.
  induction ls as [|l ls IH]; intros hk ck res Hrec Hls.
  - exists hk, ck. rewrite app_nil_r. auto.
  - apply Forall_cons in Hls as [[Hl Hknown] Hls]. cbn [run_entries].
    destruct (recover_entry_step h0 c0 hk ck res l Hrec Hl Hknown)
      as (hk' & ck' & -> & Hrec').
    destruct (IH hk' ck' (res ++ [l]) Hrec' Hls) as (hn & cn & -> & Hrecn).
    exists hn, cn. by rewrite <- app_assoc in *.
Qed.

(** C5, amended. When [getFormat] of the controller resolves the id of every
    carrier of the payload that has [f] and no [s] (the id is in its cache or
    declared in the payload it is bound to), [recoverData(payload,
    controller)] returns [payload]; afterwards no object of the payload,
    through arrays and [d] at any depth, has an [f]; every carrier that had
    [f] and no [s] has as [s] what [getFormat(f)] of the controller returned
    before the call and returns after it; an [s] that was there is kept and
    no array is touched.  The controller is the given one, with [_generator]
    unset as the class leaves it, or a new one on the payload. *)
Theorem recoverData_recovers (h : heap) (v : jsvalue)
    (controller : option SbisFormatController) :
  let c0 := default (new_SbisFormatController v) controller in
  _generator c0 = None ->
  (forall l i, l ∈ entries h v -> s (fields h l) = None ->
               f (fields h l) = Some i -> known i (c0, h)) ->
  exists c' h',
    recoverData h v controller = (Ok v, c', h') /\
    (forall l, l ∈ objects v -> f (fields h' l) = None) /\
    (forall l i, l ∈ entries h v -> s (fields h l) = None ->
                 f (fields h l) = Some i ->
       exists a, s (fields h' l) = Some a /\
                 (getFormat h c0 (Some i) false).1.1 = Ok a /\
                 getFormat h' c' (Some i) false = (Ok a, c', h')) /\
    (forall l, is_Some (s (fields h l)) -> s (fields h' l) = s (fields h l)) /\
    arrs h' = arrs h.
Proof.
  intros c0 Hg Hknown. rewrite entries_carriers in *.
  destruct (recover_run h c0 (carriers h v) h c0 []) as (hn & cn & Hrun & Hrec).
  { repeat split; auto using patched_refl. intros l Hl. by apply elem_of_nil in Hl. }
  { apply Forall_forall. intros l Hl. split; [|by eauto].
    unfold carriers in Hl. apply list_elem_of_filter in Hl. tauto. }
  simpl in Hrun, Hrec.
  destruct Hrec as ([Harrs Hp] & Hd & Hgn & Hk & Hn & Hr).
  exists cn, (foldl delete_f hn (carriers h v)).
  unfold recoverData, recoverFormats. fold c0.
  rewrite (eachFormatEntry_run recover_entry recover_entry_carriers).
  simpl. rewrite Hrun. split; [done|].
  pose proof (fields_delete_all (carriers h v) hn) as Hdel.
  repeat split.
  - intros l Hl. destruct (Hdel l) as (-> & _ & _).
    destruct (decide (l ∈ carriers h v)) as [|Hnot]; [done|].
    destruct (Hp l) as [-> _].
    assert (Hc : is_carrier h l <> true).
    { intros Hc. apply Hnot. unfold carriers. by apply list_elem_of_filter. }
    unfold is_carrier in Hc.
    destruct (f (fields h l)); [|done]. destruct Hc.
    by rewrite orb_true_r.
  - intros l i Hl Hs Hi. destruct (Hdel l) as (_ & -> & _).
    destruct (Hr l Hl) as [a Ha]. exists a. split; [done|].
    destruct (Hp l) as [_ [E|(_ & i' & a' & Hi' & Ha' & Hc)]]; [congruence|].
    assert (i' = i) as -> by congruence. assert (a' = a) as -> by congruence.
    split.
    + rewrite getFormat_scan by done. simpl.
      destruct (Hn i a Hc) as [E0|[E0 Hfirst]]; rewrite E0; [done|].
      pose proof (scan_result h (objects (_data c0)) (_cache c0) (Some i)) as Hres.
      simpl in Hres. rewrite E0, <- first_declared_objects, Hfirst in Hres.
      destruct (scan h (objects (_data c0)) (_cache c0) (Some i))
        as [[found pend'] cache']. simpl in Hres. by subst found.
    + unfold getFormat, cache_get. simpl. by rewrite Hc.
  - intros l [a Ha]. destruct (Hdel l) as (_ & -> & _).
    destruct (Hp l) as [_ [E|(E & _)]]; congruence.
  - destruct (Hdel 1%positive) as (_ & _ & ->). done.
Qed.

(** ** The statements on concrete payloads *)

(** The scenario of the specification: [getFormat(1)] is [[{n:'id'}]],
    [getFormat(2)] is [[{n:'x'}]] and [getFormat(3)] fails. *)
Example spec_scenario :
  let c0 := new_SbisFormatController spec_payload in
  let '(r1, c1, h1) := getFormat spec_heap c0 (Some 1%Z) false in
  let '(r2, c2, h2) := getFormat h1 c1 (Some 2%Z) false in
  let '(r3, c3, h3) := getFormat h2 c2 (Some 3%Z) false in
  r1 = Ok 10%positive /\ r2 = Ok 11%positive /\ r3 = Throw ReferenceError /\
  arrs h3 !! 10%positive = Some [FieldFormat "id" "Number"] /\
  arrs h3 !! 11%positive = Some [FieldFormat "x" "String"].
Proof. vm_compute. repeat split; reflexivity. Qed.

Lemma getFormat_earliest_declaration_witness :
  first_declared twice_heap twice_payload 1 = Some 10%positive /\
  let st := run_calls (new_SbisFormatController twice_payload, twice_heap)
              (calls_of_lookups [(Some 1%Z, true); (Some 2%Z, false)]) in
  exists c', getFormat st.2 st.1 (Some 1%Z) false = (Ok 10%positive, c', st.2) /\
             _cache c' !! 1%Z = Some 10%positive.
Proof.
  assert (H1 : first_declared twice_heap twice_payload 1 = Some 10%positive)
    by (vm_compute; reflexivity).
  split; [exact H1|].
  exact (getFormat_earliest_declaration twice_heap twice_payload
           [(Some 1%Z, true); (Some 2%Z, false)] 1 10%positive H1).
Defined.

(** C3, on the scenario: [getFormat(2)] runs the engine up to object 2 and
    returns; [_generator] is still unset, and the engine the next lookup gets
    from [generator] is not the paused one but a new one at the root, with all
    three objects pending again. *)
Lemma generator_restarts_at_root :
  let c0 := new_SbisFormatController spec_payload in
  let c1 := (getFormat spec_heap c0 (Some 2%Z) false).1.2 in
  next spec_heap (generator c0) (_cache c0) (Some 2%Z) =
    Some (Yield 11%positive, paused_engine, _cache c1) /\
  (getFormat spec_heap c0 (Some 2%Z) false).1.1 = Ok 11%positive /\
  _generator c1 = None /\
  generator c1 = new_RecursiveIterator spec_payload /\
  pending paused_engine = [2%positive; 3%positive] /\
  pending (generator c1) = [1%positive; 2%positive; 3%positive].
Proof. vm_compute. repeat split; reflexivity. Qed.

(** On no controller the class produces is [_generator] set. *)
Lemma generator_always_new (h : heap) (v : jsvalue) (ks : list call) :
  generator (run_calls (new_SbisFormatController v, h) ks).1 =
  new_RecursiveIterator v.
Proof.
  destruct (reached_generator v h ks) as (Hg & Hd & _).
  unfold generator. by rewrite Hg, Hd.
Qed.

(** C4 as stated fails: the id 7 does not occur in the payload the controller
    is bound to and nothing was set by [setOriginal], yet [getFormat(7)]
    returns, because [scanFormats] recorded the id from another payload. *)
Lemma scanFormats_resolves_counterexample :
  let ks := [CallGetFormat (Some 1%Z) false; CallScanFormats other_payload] in
  let st := run_calls (new_SbisFormatController spec_payload, two_heap) ks in
  first_declared two_heap spec_payload 7 = None /\
  ~ seeded_by_setOriginal 7 (new_SbisFormatController spec_payload, two_heap) ks /\
  (getFormat st.2 st.1 (Some 7%Z) false).1.1 = Ok 12%positive.
Proof.
  split; [by vm_compute|]. split; [simpl; tauto|by vm_compute].
Qed.

(** C5 as stated fails: on [{f:5}] [recoverData] does not return but throws
    the ReferenceError of [getFormat(5)], and the object keeps its [f]. *)
Lemma recoverData_throws_counterexample :
  (recoverData dangling_heap dangling_payload None).1.1 = Throw ReferenceError /\
  f (fields (recoverData dangling_heap dangling_payload None).2 4%positive) =
    Some 5%Z.
Proof. split; by vm_compute. Qed.

Lemma recoverData_recovers_witness :
  exists c' h',
    recoverData spec_heap spec_payload None = (Ok spec_payload, c', h') /\
    (forall l, l ∈ objects spec_payload -> f (fields h' l) = None) /\
    (forall l i, l ∈ entries spec_heap spec_payload ->
                 s (fields spec_heap l) = None ->
                 f (fields spec_heap l) = Some i ->
       exists a, s (fields h' l) = Some a /\
                 (getFormat spec_heap (new_SbisFormatController spec_payload)
                    (Some i) false).1.1 = Ok a /\
                 getFormat h' c' (Some i) false = (Ok a, c', h')) /\
    (forall l, is_Some (s (fields spec_heap l)) ->
               s (fields h' l) = s (fields spec_heap l)) /\
    arrs h' = arrs spec_heap.
Proof.
  apply (recoverData_recovers spec_heap spec_payload None).
  - reflexivity.
  - intros l i Hl Hs Hi. right. vm_compute in Hl.
    apply elem_of_cons in Hl as [->|Hl]; [vm_compute in Hs; discriminate|].
    apply elem_of_cons in Hl as [->|Hl]; [vm_compute in Hs; discriminate|].
    apply elem_of_cons in Hl as [->|Hl]; [|by apply elem_of_nil in Hl].
    vm_compute in Hi. injection Hi as <-.
    exists 10%positive. vm_compute. reflexivity.
Defined.

Lemma getFormat_copy_independent_witness :
  let st := run_calls (new_SbisFormatController spec_payload, spec_heap)
              [CallGetFormat (Some 2%Z) false] in
  let c1 := (getFormat st.2 st.1 (Some 1%Z) false).1.2 in
  exists a h2,
    getFormat st.2 st.1 (Some 1%Z) true = (Ok a, c1, h2) /\
    a <> 10%positive /\
    _cache c1 !! 1%Z = Some 10%positive /\
    arrs h2 !! a = arrs h2 !! 10%positive /\
    forall fl : list IFieldFormat,
      let h3 := {| objs := objs h2; arrs := <[a := fl]> (arrs h2) |} in
      getFormat h3 c1 (Some 1%Z) false = (Ok 10%positive, c1, h3) /\
      arrs h3 !! 10%positive = arrs st.2 !! 10%positive.
Proof.
  apply (getFormat_copy_independent spec_heap spec_payload
           [CallGetFormat (Some 2%Z) false] 1 10%positive).
  - vm_compute. reflexivity.
  - vm_compute. eexists. reflexivity.
Defined.

Lemma failed_lookup_fills_cache_witness :
  let st := run_calls (new_SbisFormatController spec_payload, spec_heap)
              [CallGetFormat (Some 1%Z) false] in
  let c' := (getFormat st.2 st.1 (Some 3%Z) false).1.2 in
  let h' := (getFormat st.2 st.1 (Some 3%Z) false).2 in
  exists b, _cache c' !! 2%Z = Some b /\
            getFormat h' c' (Some 2%Z) false = (Ok b, c', h').
Proof.
  apply (failed_lookup_fills_cache spec_heap spec_payload
           [CallGetFormat (Some 1%Z) false] (Some 3%Z) false 2 11%positive).
  - vm_compute. reflexivity.
  - vm_compute. reflexivity.
Defined.

(** C8. [getFormat], [scanFormats] and [setOriginal] never modify the payload
    the controller is bound to: after any sequence of such calls [data] is the
    value it was, every object has the [f] and [s] it had, and every array
    that existed holds what it held.  What the calls change is the cache, the
    engine if [_generator] holds one, and the arrays they newly allocate. *)
Theorem calls_leave_payload (c : SbisFormatController) (h : heap)
    (ks : list call) :
  _data (run_calls (c, h) ks).1 = _data c /\
  objs (run_calls (c, h) ks).2 = objs h /\
  (forall b, is_Some (arrs h !! b) ->
             arrs (run_calls (c, h) ks).2 !! b = arrs h !! b) /\
  (forall l, fields (run_calls (c, h) ks).2 l = fields h l) /\
  entries (run_calls (c, h) ks).2 (_data (run_calls (c, h) ks).1) =
    entries h (_data c).
Proof.
  destruct (run_calls (c, h) ks) as [c' h'] eqn:E.
  apply run_calls_frame in E as (Hd & Ho & Ha & _). simpl.
  repeat split; auto.
  - intros l. unfold fields. by rewrite Ho.
  - rewrite Hd, !entries_carriers. unfold carriers.
    apply filter_carriers_ext. intros l. by apply is_carrier_objs.
Qed.

(** * Further properties of the code *)

(** ** IteratorArray *)

Lemma IteratorArray_calls_S (n : nat) (it : IteratorArray.t) :
  (IteratorArray_calls (S n) it).1 =
  (IteratorArray.next it).1 :: (IteratorArray_calls n (IteratorArray.next it).2).1.
Proof.
  cbn [IteratorArray_calls].
  destruct (IteratorArray.next it) as [[v d] it']. simpl.
  by destruct (IteratorArray_calls n it').
Qed.

Lemma IteratorArray_next_advances (it : IteratorArray.t) :
  (IteratorArray.next it).2 =
  {| IteratorArray.currentIndex := IteratorArray.currentIndex it + 1;
     IteratorArray._data := IteratorArray._data it |}.
Proof. unfold IteratorArray.next. by destruct (IteratorArray.isDone _). Qed.

(** Once [currentIndex] has reached the length of the array, [isDone()] is
    false at every later call. *)
Lemma IteratorArray_calls_past_end (k : nat) (it : IteratorArray.t) :
  (Z.of_nat (length (IteratorArray._data it)) <= IteratorArray.currentIndex it)%Z ->
  (IteratorArray_calls k it).1 = replicate k (JUndefined, false).
Proof.
  revert it. induction k as [|k IH]; intros it Hi; [done|].
  rewrite IteratorArray_calls_S, IH
    by (rewrite IteratorArray_next_advances; simpl; lia).
  simpl. f_equal.
  unfold IteratorArray.next, IteratorArray.isDone. simpl.
  replace (IteratorArray.currentIndex it + 1 =?
           Z.of_nat (length (IteratorArray._data it)))%Z with false
    by (symmetry; apply Z.eqb_neq; lia).
  rewrite lookup_ge_None_2 by lia. done.
Qed.

Lemma IteratorArray_calls_to_yield (k : nat) (ys : list jsvalue) :
  forall it : IteratorArray.t,
  (-1 <= IteratorArray.currentIndex it <
     Z.of_nat (length (IteratorArray._data it)))%Z ->
  IteratorArray.to_yield it = ys ->
  (IteratorArray_calls (S (length ys) + k) it).1 =
  map (fun x => (x, false)) ys ++
  (JUndefined, true) :: replicate k (JUndefined, false).
Proof.
  induction ys as [|y ys IH]; intros it Hi Hy;
    pose proof (IteratorArray_next_to_yield it Hi) as Hn; rewrite Hy in Hn;
    cbn [length Nat.add]; rewrite IteratorArray_calls_S.
  - rewrite Hn. simpl. f_equal.
    apply IteratorArray_calls_past_end.
    rewrite IteratorArray_next_advances. simpl.
    unfold IteratorArray.to_yield in Hy. apply drop_nil_inv in Hy. lia.
  - destruct Hn as [-> Hrest]. simpl. f_equal.
    apply (IH _); [|done].
    rewrite IteratorArray_next_advances. simpl.
    unfold IteratorArray.to_yield in Hy.
    assert (length (drop (Z.to_nat (IteratorArray.currentIndex it + 1))
                      (IteratorArray._data it)) = S (length ys)) as Hl
      by (by rewrite Hy).
    rewrite length_drop in Hl. lia.
Qed.

(** X1. On a new [IteratorArray] over [items], the calls of [next()] return
    the elements of [items] in their order, each with [done: false], then
    [{value: undefined, done: true}] once; every call after that returns
    [{value: undefined, done: false}], because [isDone()] tests
    [currentIndex === length] and [currentIndex] has moved past the length. *)
Theorem IteratorArray_yields_array_then_done (items : list jsvalue) (k : nat) :
  (IteratorArray_calls (S (length items) + k) (IteratorArray.new items)).1 =
  map (fun x => (x, false)) items ++
  (JUndefined, true) :: replicate k (JUndefined, false).
Proof.
  apply IteratorArray_calls_to_yield; [simpl; lia|].
  apply IteratorArray_new_to_yield.
Qed.

(** ** RecursiveStack *)

Lemma RecursiveStackMap_steps (ops : list stack_op) :
  forall st : RecursiveStackMap.t,
  RecursiveStackMap.wf st ->
  pops_in_bounds (length (RecursiveStackMap.view st)) ops = true ->
  RecursiveStackMap.wf (foldl RecursiveStackMap_step st ops) /\
  RecursiveStackMap.view (foldl RecursiveStackMap_step st ops) =
    foldl RecursiveStack_step (RecursiveStackMap.view st) ops.
Proof.
  induction ops as [|[n|] ops IH]; intros st Hwf Hb;
    cbn [foldl RecursiveStackMap_step RecursiveStack_step].
  - done.
  - destruct (RecursiveStackMap_push n st Hwf) as [Hwf' Hview].
    simpl in Hb. rewrite <- Hview. apply IH; [done|]. by rewrite Hview.
  - simpl in Hb.
    destruct (RecursiveStackMap_current st Hwf) as [_ Hpid].
    destruct (RecursiveStackMap.view st) as [|x l] eqn:Hv; [done|].
    destruct (RecursiveStackMap_pop st Hwf) as [Hwf' Hview].
    { rewrite Hpid. unfold processableId. simpl. lia. }
    rewrite Hv in Hview. simpl in Hview.
    unfold pop. simpl. rewrite <- Hview. apply IH; [done|]. by rewrite Hview.
Qed.

(** X2. After any calls of [push] and [pop] on a new [RecursiveStack], none
    of the [pop]s made on an empty stack, the stack is last-in first-out:
    [currentNode] is the wrapper pushed last among those not yet popped
    ([undefined] if there is none), [processableId] is the number of wrappers
    on the stack less one, so [-1] exactly on the empty stack, and the keys of
    [_stack] are [0 .. processableId]. *)
Theorem RecursiveStack_is_a_stack (ops : list stack_op) :
  pops_in_bounds 0 ops = true ->
  let st := foldl RecursiveStackMap_step RecursiveStackMap.new ops in
  let l := foldl RecursiveStack_step new_RecursiveStack ops in
  RecursiveStackMap.view st = l /\
  RecursiveStackMap.currentNode st = head l /\
  RecursiveStackMap.processableId st = (Z.of_nat (length l) - 1)%Z /\
  dom (RecursiveStackMap._stack st) =
    list_to_set (map Z.of_nat (seq 0 (length l))).
Proof.
  intros Hb st l.
  destruct RecursiveStackMap_new as [Hwf0 Hv0].
  destruct (RecursiveStackMap_steps ops RecursiveStackMap.new Hwf0) as [Hwf Hview].
  { by rewrite Hv0. }
  rewrite Hv0 in Hview. fold st l in Hwf, Hview.
  destruct (RecursiveStackMap_current st Hwf) as [Hcur Hpid].
  rewrite Hview in Hcur, Hpid.
  repeat split; try done.
  destruct Hwf as (Hge & Hkeys & _).
  apply set_eq. intros k. rewrite elem_of_dom, Hkeys, Hpid.
  unfold processableId.
  rewrite elem_of_list_to_set, list_elem_of_fmap.
  split.
  - intros Hk. exists (Z.to_nat k). split; [lia|].
    apply elem_of_seq. lia.
  - intros (n & -> & Hn). apply elem_of_seq in Hn. lia.
Qed.

Lemma RecursiveStack_is_a_stack_witness :
  let ops := [OpPush (wrap JNull); OpPush (wrap JUndefined); OpPop] in
  let st := foldl RecursiveStackMap_step RecursiveStackMap.new ops in
  RecursiveStackMap.currentNode st = Some (wrap JNull) /\
  RecursiveStackMap.processableId st = 0%Z.
Proof.
  intros ops st.
  destruct (RecursiveStack_is_a_stack ops eq_refl) as (_ & Hc & Hp & _).
  split; [exact Hc|exact Hp].
Defined.

(** X3. On a [RecursiveStack] in the state that [push] and [pop] keep it in
    ([wf]), [pop()] after [push(node)] gives back the stack as it was:
    [_stack], [_current] and [processableId]. *)
Theorem RecursiveStack_pop_undoes_push (n : node) (st : RecursiveStackMap.t) :
  RecursiveStackMap.wf st ->
  RecursiveStackMap.pop (RecursiveStackMap.push n st) = st.
Proof.
  intros (Hge & Hkeys & Hcur). destruct st as [m cur pid]. simpl in *.
  unfold RecursiveStackMap.pop, RecursiveStackMap.push. simpl.
  replace (pid + 1 - 1)%Z with pid by lia.
  assert (Hnone : m !! (pid + 1)%Z = None).
  { apply eq_None_not_Some. rewrite Hkeys. lia. }
  rewrite delete_insert_id by done.
  rewrite lookup_insert_ne by lia. by rewrite Hcur.
Qed.

Lemma RecursiveStack_pop_undoes_push_witness :
  RecursiveStackMap.pop
    (RecursiveStackMap.push (wrap spec_payload)
       (RecursiveStackMap.push (wrap JNull) RecursiveStackMap.new)) =
  RecursiveStackMap.push (wrap JNull) RecursiveStackMap.new.
Proof.
  apply RecursiveStack_pop_undoes_push.
  apply RecursiveStackMap_push. apply RecursiveStackMap_new.
Defined.

(** ** eachFormatEntry *)

(** X4. With a callback that leaves every object a carrier or not as it was,
    [eachFormatEntry(data, callback)] calls the callback on the objects of
    [data] that have [s] or [f], and on no other, in document order (an
    object before what its [d] holds, the items of an array from left to
    right), each as often as it occurs; when a call of the callback throws,
    the walk ends there with that exception and no later object is visited. *)
Theorem eachFormatEntry_document_order {A : Type}
    (callback : loc -> heap * A -> outcome unit * (heap * A))
    (v : jsvalue) (st : heap * A) :
  (forall l st, is_carrier st.1 l = true ->
     forall l', is_carrier (callback l st).2.1 l' = is_carrier st.1 l') ->
  eachFormatEntry v callback st =
  run_entries callback
    (filter (fun l => is_carrier st.1 l = true) (objects v)) st.
Proof.
  intros Hcb. change (filter _ (objects v)) with (carriers st.1 v).
  by apply eachFormatEntry_run.
Qed.

Lemma eachFormatEntry_document_order_witness :
  eachFormatEntry spec_payload collect_entry (spec_heap, []) =
  (Ok (), (spec_heap, [1%positive; 2%positive; 3%positive])).
Proof.
  rewrite (eachFormatEntry_document_order collect_entry spec_payload
             (spec_heap, [])).
  - by vm_compute.
  - intros l st _ l'. reflexivity.
Defined.

(** ** RecursiveIterator.next *)

(** X5. [next(storage, id)] yields exactly when [id] is given, is not in
    [storage], and is declared (with [f] and a structure [s]) by an object the
    engine has still to visit; it then yields the structure of the first
    such object and [storage] holds it for [id].  In every other case, also
    when [id] is already in [storage], it returns [done].  No entry of
    [storage] is removed or replaced. *)
Theorem next_yields_first_pending (h : heap) (g : RecursiveIterator)
    (storage : gmap Z loc) (id : option Z) :
  exists g' storage',
    next h g storage id =
    Some (match id with
          | Some N =>
              match storage !! N with
              | Some _ => Done
              | None =>
                  match first_with_id N (omap (declaration h) (pending g)) with
                  | Some a => Yield a
                  | None => Done
                  end
              end
          | None => Done
          end, g', storage') /\
    (forall M b, storage !! M = Some b -> storage' !! M = Some b) /\
    (forall N a, id = Some N -> storage !! N = None ->
       first_with_id N (omap (declaration h) (pending g)) = Some a ->
       storage' !! N = Some a).
Proof.
  destruct (next_scan h g storage id) as (r & g' & storage' & -> & Hscan & _).
  pose proof (scan_result h (pending g) storage id) as Hr.
  pose proof (scan_yield h (pending g) storage id) as Hy.
  pose proof (scan_keeps h (pending g) storage id) as Hk.
  rewrite Hscan in Hr, Hy, Hk. simpl in Hr, Hy, Hk.
  exists g', storage'. split; [|split].
  - f_equal. f_equal. f_equal. destruct id as [N|]; [|by destruct r].
    destruct (storage !! N); [by destruct r|].
    destruct (first_with_id N (omap (declaration h) (pending g)));
      destruct r; simpl in Hr; congruence.
  - intros M b. apply Hk.
  - intros N a -> Hs Hf. rewrite Hs, Hf in Hr.
    destruct (Hy a Hr) as (N' & [= <-] & ?). done.
Qed.

(** X6. Once [next] has returned [done], every further call of [next] on
    that engine, whatever its target, returns [done] again and leaves the
    storage as it is. *)
Theorem next_done_stays_done (h : heap) (g g' : RecursiveIterator)
    (storage storage' : gmap Z loc) (id : option Z) (ids : list (option Z)) :
  next h g storage id = Some (Done, g', storage') ->
  drive h g' storage' ids = Some (replicate (length ids) Done, g', storage').
Proof.
  intros Hnext.
  destruct (next_scan h g storage id) as (r & g1 & s1 & E & _ & Hdone).
  rewrite Hnext in E. injection E as <- <- <-.
  rewrite (Hdone eq_refl). clear.
  induction ids as [|id' ids IH]; [done|].
  cbn [drive length replicate].
  change (next h [] storage' id') with (Some (Done, @nil node, storage')).
  cbv iota beta. by rewrite IH.
Qed.

Lemma next_done_stays_done_witness :
  drive dangling_heap [] ∅ [Some 5%Z; None] = Some ([Done; Done], [], ∅).
Proof.
  apply (next_done_stays_done dangling_heap
           (new_RecursiveIterator dangling_payload) [] ∅ ∅ (Some 5%Z)
           [Some 5%Z; None]).
  by vm_compute.
Defined.

(** ** The cache of the controller *)

(** What a full pass leaves in the storage for an id. *)
Lemma scan_cache (h : heap) (w : list loc) (storage : gmap Z loc) (N : Z) :
  (scan h w storage None).2 !! N =
  match storage !! N with
  | Some b => Some b
  | None => first_with_id N (omap (declaration h) w)
  end.
Proof.
  destruct (storage !! N) as [b|] eqn:Hs; [by apply scan_keeps|].
  destruct (first_with_id N (omap (declaration h) w)) as [a|] eqn:Hf.
  - destruct (scan_done h w storage None N a (scan_full_result h w storage) Hf)
      as [b Hb].
    rewrite Hb. apply scan_new in Hb as [?|[_ ?]]; congruence.
  - destruct ((scan h w storage None).2 !! N) as [b|] eqn:Hb; [|done].
    apply scan_new in Hb as [?|[_ ?]]; congruence.
Qed.

(** A pass over objects whose ids are all in the storage changes nothing. *)
Lemma scan_again (h : heap) (w : list loc) (storage : gmap Z loc)
    (id : option Z) :
  (forall l, l ∈ w -> undeclared h l storage = None) ->
  scan h w storage id = (None, [], storage).
Proof.
  induction w as [|l w IH]; intros Hw; simpl; [done|].
  rewrite Hw by apply list_elem_of_here.
  apply IH. intros x Hx. apply Hw. by apply list_elem_of_further.
Qed.

Lemma run_call_keeps (c : SbisFormatController) (h : heap) (k : call)
    (M : Z) (b : loc) :
  _cache c !! M = Some b -> ~ sets_original M k ->
  _cache (run_call (c, h) k).1 !! M = Some b.
Proof.
  intros Hc Hk. destruct k as [id copy|i fmt|v]; simpl.
  - unfold getFormat. destruct (cache_get c id) as [a|].
    + by destruct (copied h copy a).
    + destruct (next_scan h (generator c) (_cache c) id)
        as (r & g' & cache' & -> & Hscan & _).
      pose proof (scan_keeps h (pending (generator c)) (_cache c) id M b Hc) as Hk'.
      rewrite Hscan in Hk'. simpl in Hk'.
      destruct r as [|a]; [done|]. by destruct (copied h copy a).
  - unfold setOriginal. destruct (_clone h fmt) as [[a|e] h']; [|done].
    simpl in *. by rewrite lookup_insert_ne.
  - rewrite scanFormats_scan. simpl. by apply scan_keeps.
Qed.

Lemma run_calls_keeps (ks : list call) (c : SbisFormatController) (h : heap)
    (M : Z) (b : loc) :
  _cache c !! M = Some b -> Forall (fun k => ~ sets_original M k) ks ->
  _cache (run_calls (c, h) ks).1 !! M = Some b.
Proof.
  revert c h. induction ks as [|k ks IH]; intros c h Hc Hks; [done|].
  apply Forall_cons in Hks as [Hk Hks]. rewrite run_calls_cons.
  pose proof (run_call_keeps c h k M b Hc Hk) as Hstep.
  destruct (run_call (c, h) k) as [c1 h1]. by apply IH.
Qed.

(** X7. An entry of the cache is never dropped, and is replaced by
    [setOriginal] of its id alone: through any calls of [getFormat],
    [scanFormats] and [setOriginal] of other ids the cache holds the same
    structure for the id, and [getFormat] of it returns that structure without
    changing the controller or the heap. *)
Theorem cache_entry_persists (c : SbisFormatController) (h : heap)
    (ks : list call) (M : Z) (b : loc) :
  _cache c !! M = Some b ->
  Forall (fun k => ~ sets_original M k) ks ->
  let st := run_calls (c, h) ks in
  _cache st.1 !! M = Some b /\
  getFormat st.2 st.1 (Some M) false = (Ok b, st.1, st.2).
Proof.
  intros Hc Hks st.
  pose proof (run_calls_keeps ks c h M b Hc Hks) as Hk. fold st in Hk.
  split; [done|]. unfold getFormat, cache_get. simpl. by rewrite Hk.
Qed.

Lemma cache_entry_persists_witness :
  let c := {| _cache := {[ 1%Z := 11%positive ]}; _data := spec_payload;
              _generator := None |} in
  let ks := [CallGetFormat (Some 2%Z) true; CallSetOriginal 2%Z 10%positive;
             CallScanFormats twice_payload; CallGetFormat (Some 1%Z) false] in
  let st := run_calls (c, spec_heap) ks in
  _cache st.1 !! 1%Z = Some 11%positive /\
  getFormat st.2 st.1 (Some 1%Z) false = (Ok 11%positive, st.1, st.2).
Proof.
  intros c ks. apply (cache_entry_persists c spec_heap ks 1 11%positive).
  - reflexivity.
  - repeat (apply Forall_cons; split; [simpl; try tauto; lia|]).
    apply Forall_nil_2.
Defined.

(** X8. After [setOriginal(N, data)] with an array [data], [getFormat(N)]
    returns a copy of [data] made at the call: an array that did not exist
    before, with the elements [data] had.  It does so whatever the cache held
    for [N] and whatever the payload declares for [N], through any later calls
    of [getFormat], [scanFormats] and [setOriginal] of other ids, and whatever
    is written to [data] afterwards. *)
Theorem setOriginal_getFormat (c : SbisFormatController) (h : heap) (N : Z)
    (fmt : loc) (fl : list IFieldFormat) (ks : list call) :
  arrs h !! fmt = Some fl ->
  Forall (fun k => ~ sets_original N k) ks ->
  let st := run_calls (c, h) (CallSetOriginal N fmt :: ks) in
  exists a,
    getFormat st.2 st.1 (Some N) false = (Ok a, st.1, st.2) /\
    arrs h !! a = None /\
    arrs st.2 !! a = Some fl /\
    forall fl' : list IFieldFormat,
      let h3 := {| objs := objs st.2; arrs := <[fmt := fl']> (arrs st.2) |} in
      getFormat h3 st.1 (Some N) false = (Ok a, st.1, h3) /\
      arrs h3 !! a = Some fl.
Proof.
  intros Hfmt Hks st. unfold st. rewrite run_calls_cons. simpl run_call.
  unfold setOriginal, _clone. rewrite Hfmt.
  set (a := fresh (dom (arrs h))).
  set (c1 := {| _cache := <[N:=a]> (_cache c); _data := _data c;
                _generator := _generator c |}).
  set (h1 := {| objs := objs h; arrs := <[a:=fl]> (arrs h) |}).
  assert (Ha : arrs h !! a = None).
  { apply not_elem_of_dom. apply is_fresh. }
  assert (Hc1 : _cache c1 !! N = Some a) by apply lookup_insert_eq.
  pose proof (run_calls_keeps ks c1 h1 N a Hc1 Hks) as Hk.
  destruct (run_calls (c1, h1) ks) as [c2 h2] eqn:E.
  apply run_calls_frame in E as (_ & _ & Harrs & _).
  assert (Ha2 : arrs h2 !! a = Some fl).
  { rewrite Harrs; simpl; rewrite lookup_insert_eq; eauto. }
  simpl in *. exists a. repeat split; try done.
  - unfold getFormat, cache_get. simpl. by rewrite Hk.
  - unfold getFormat, cache_get. simpl. by rewrite Hk.
  - rewrite lookup_insert_ne; [done|]. intros ->. congruence.
Qed.

Lemma setOriginal_getFormat_witness :
  let ks := [CallGetFormat (Some 1%Z) false; CallScanFormats spec_payload] in
  let st := run_calls (new_SbisFormatController spec_payload, spec_heap)
              (CallSetOriginal 1%Z 11%positive :: ks) in
  exists a,
    getFormat st.2 st.1 (Some 1%Z) false = (Ok a, st.1, st.2) /\
    arrs spec_heap !! a = None /\
    arrs st.2 !! a = Some [FieldFormat "x" "String"] /\
    forall fl' : list IFieldFormat,
      let h3 := {| objs := objs st.2;
                   arrs := <[11%positive := fl']> (arrs st.2) |} in
      getFormat h3 st.1 (Some 1%Z) false = (Ok a, st.1, h3) /\
      arrs h3 !! a = Some [FieldFormat "x" "String"].
Proof.
  intros ks.
  apply (setOriginal_getFormat (new_SbisFormatController spec_payload)
           spec_heap 1 11%positive [FieldFormat "x" "String"] ks).
  - reflexivity.
  - repeat (apply Forall_cons; split; [simpl; tauto|]). apply Forall_nil_2.
Defined.

(** ** scanFormats *)

(** X9. [scanFormats(data)] adds to the cache, for each id declared in [data]
    and not yet in the cache, the structure declared earliest in [data], and
    nothing else: an id that was in the cache keeps its structure, whatever
    [data] declares for it, and an id that [data] does not declare is not
    added. *)
Theorem scanFormats_adds_missing (h : heap) (c : SbisFormatController)
    (v : jsvalue) (N : Z) :
  _cache (scanFormats h c v).1.2 !! N =
  match _cache c !! N with
  | Some b => Some b
  | None => first_declared h v N
  end.
Proof.
  rewrite scanFormats_scan. simpl.
  rewrite scan_cache, first_declared_objects. done.
Qed.

(** X10. [scanFormats] is idempotent: a second [scanFormats] of the same
    data leaves the controller as the first one left it. *)
Theorem scanFormats_idempotent (h : heap) (c : SbisFormatController)
    (v : jsvalue) :
  let '(_, c1, h1) := scanFormats h c v in
  scanFormats h1 c1 v = (Ok (), c1, h1).
Proof.
  rewrite !scanFormats_scan. simpl.
  rewrite scan_full. simpl. rewrite scan_again.
  - done.
  - intros l. apply passed_recorded.
Qed.

(** X11. [scanFormats] of an array does what [scanFormats] of its items, one
    after the other from left to right, does: the controller and the heap
    reached are the same. *)
Theorem scanFormats_array (vs : list jsvalue) (h : heap)
    (c : SbisFormatController) :
  run_calls (c, h) (map CallScanFormats vs) =
  ((scanFormats h c (JArray vs)).1.2, h).
Proof.
  revert c. induction vs as [|v vs IH]; intros c.
  - rewrite scanFormats_scan. simpl. by rewrite with_cache_same.
  - cbn [map]. rewrite run_calls_cons. simpl run_call.
    rewrite (scanFormats_scan h c v). rewrite IH.
    rewrite !scanFormats_scan. simpl.
    rewrite (scan_app h None (objects v) (flat_map objects vs)).
    rewrite (scan_full h (objects v)). done.
Qed.

(** X12. A controller made without data, after [scanFormats(data)], answers
    [getFormat] as a controller bound to [data] does: for every id, given or
    not, and either [copy], the same structure or the same error. *)
Theorem scanFormats_as_bound (h : heap) (v : jsvalue) (id : option Z)
    (copy : bool) :
  let '(_, c1, h1) := scanFormats h (new_SbisFormatController JUndefined) v in
  (getFormat h1 c1 id copy).1.1 =
  (getFormat h (new_SbisFormatController v) id copy).1.1.
Proof.
  rewrite scanFormats_scan. rewrite !getFormat_scan by done.
  destruct id as [N|]; simpl.
  - rewrite scan_cache, lookup_empty.
    pose proof (scan_result h (objects v) ∅ (Some N)) as Hr.
    simpl in Hr. rewrite lookup_empty in Hr.
    destruct (scan h (objects v) ∅ (Some N)) as [[found pend'] cache'].
    simpl in Hr. subst found.
    destruct (first_with_id N (omap (declaration h) (objects v))) as [a|].
    + by destruct (copied h copy a).
    + done.
  - pose proof (scan_full_result h (objects v) ∅) as Hr.
    destruct (scan h (objects v) ∅ None) as [[found pend'] cache'].
    simpl in Hr. by subst found.
Qed.

(** ** getFormat *)

(** X13. [getFormat()] without an id, on a controller bound to [v] after any
    calls, throws the ReferenceError, and leaves the cache as
    [scanFormats(v)] would: with every structure declared in [v] that was
    missing. *)
Theorem getFormat_without_id (h : heap) (v : jsvalue) (ks : list call)
    (copy : bool) :
  let st := run_calls (new_SbisFormatController v, h) ks in
  getFormat st.2 st.1 None copy =
  (Throw ReferenceError, (scanFormats st.2 st.1 v).1.2, st.2).
Proof.
  intros st.
  destruct (reached_generator v h ks) as (Hg & Hd & _). fold st in Hg, Hd.
  rewrite getFormat_scan by done. rewrite scanFormats_scan. simpl.
  rewrite Hd. pose proof (scan_full_result st.2 (objects v) (_cache st.1)) as Hr.
  destruct (scan st.2 (objects v) (_cache st.1) None) as [[found pend'] cache'].
  simpl in Hr. by subst found.
Qed.

(** What a pass that stops at the first declaration of its target leaves in
    the storage. *)
Lemma scan_prefix (h : heap) (N : Z) (a : loc) (ds2 : list (Z * loc))
    (w : list loc) :
  forall (ds1 : list (Z * loc)) (storage : gmap Z loc),
  omap (declaration h) w = ds1 ++ (N, a) :: ds2 ->
  N ∉ ds1.*1 ->
  storage !! N = None ->
  (scan h w storage (Some N)).1.1 = Some a /\
  forall M, (scan h w storage (Some N)).2 !! M =
            match storage !! M with
            | Some b => Some b
            | None => first_with_id M (ds1 ++ [(N, a)])
            end.
Proof.
  induction w as [|l w IH]; intros ds1 storage Hds HN Hs.
  - by destruct ds1.
  - cbn [scan]. unfold undeclared. csimpl in Hds.
    destruct (declaration h l) as [[i b]|] eqn:Hd; [|by apply IH].
    destruct ds1 as [|[j x] ds1]; simpl in Hds.
    + injection Hds as -> -> Hw.
      rewrite decide_True by done. rewrite decide_True by done. simpl.
      split; [done|]. intros M.
      destruct (decide (N = M)) as [->|Hne].
      * by rewrite lookup_insert_eq, Hs.
      * rewrite lookup_insert_ne by done. by destruct (storage !! M).
    + injection Hds as -> -> Hw.
      assert (j <> N /\ N ∉ ds1.*1) as [Hj HN'].
      { rewrite fmap_cons, not_elem_of_cons in HN. simpl in HN.
        split; [intros ->; tauto|tauto]. }
      destruct (decide (storage !! j = None)) as [Hsj|Hsj].
      * rewrite decide_False by congruence.
        destruct (IH ds1 (<[j:=x]> storage) Hw HN') as [Hr Hc].
        { by rewrite lookup_insert_ne. }
        split; [done|]. intros M. rewrite Hc. simpl.
        destruct (decide (j = M)) as [->|Hne].
        -- by rewrite lookup_insert_eq, Hsj.
        -- by rewrite lookup_insert_ne.
      * destruct (IH ds1 storage Hw HN' Hs) as [Hr Hc].
        split; [done|]. intros M. rewrite Hc. simpl.
        destruct (storage !! M) as [y|] eqn:HM; [done|].
        rewrite decide_False; [done|]. intros ->. done.
Qed.

(** X14. [getFormat(N)] on a new controller goes no further into the payload
    than the first declaration of [N]: it returns the structure of that
    declaration, and the cache then holds the ids declared up to there, each
    with the earliest of its structures; an id declared only further on is
    not in the cache. *)
Theorem getFormat_stops_at_declaration (h : heap) (v : jsvalue) (N : Z)
    (a : loc) (ds1 ds2 : list (Z * loc)) :
  declarations h v = ds1 ++ (N, a) :: ds2 ->
  N ∉ ds1.*1 ->
  let '(r, c', _) := getFormat h (new_SbisFormatController v) (Some N) false in
  r = Ok a /\ forall M, _cache c' !! M = first_with_id M (ds1 ++ [(N, a)]).
Proof.
  intros Hds HN. rewrite getFormat_scan by done. simpl.
  rewrite lookup_empty. rewrite declarations_objects in Hds.
  destruct (scan_prefix h N a ds2 (objects v) ds1 ∅ Hds HN (lookup_empty N))
    as [Hr Hc].
  destruct (scan h (objects v) ∅ (Some N)) as [[found pend'] cache'].
  simpl in *. subst found. split; [done|].
  intros M. rewrite Hc. by rewrite lookup_empty.
Qed.

Lemma getFormat_stops_at_declaration_witness :
  let '(r, c', _) :=
    getFormat spec_heap (new_SbisFormatController spec_payload) (Some 1%Z) false in
  r = Ok 10%positive /\
  forall M, _cache c' !! M = first_with_id M [(1%Z, 10%positive)].
Proof.
  apply (getFormat_stops_at_declaration spec_heap spec_payload 1 10%positive
           [] [(2%Z, 11%positive)]).
  - by vm_compute.
  - apply not_elem_of_nil.
Defined.

(** ** recoverData on any payload *)

(** A lookup without [copy] leaves the heap as it is, and fails with the
    ReferenceError only. *)
Lemma getFormat_nocopy (h : heap) (c : SbisFormatController) (id : option Z) :
  (getFormat h c id false).2 = h /\
  forall e, (getFormat h c id false).1.1 = Throw e -> e = ReferenceError.
Proof.
  unfold getFormat. destruct (cache_get c id) as [a|]; [done|].
  destruct (next_scan h (generator c) (_cache c) id)
    as (r & g' & cache' & -> & _).
  destruct r as [|a]; simpl; [|done]. split; [done|]. by intros e [= <-].
Qed.

Lemma run_entries_throw {A : Type}
    (callback : loc -> heap * A -> outcome unit * (heap * A))
    (ls : list loc) (st st' : heap * A) (e : error) :
  run_entries callback ls st = (Throw e, st') ->
  exists before l after st1,
    ls = before ++ l :: after /\
    run_entries callback before st = (Ok (), st1) /\
    callback l st1 = (Throw e, st').
Proof.
  revert st. induction ls as [|x ls IH]; intros st; simpl; [done|].
  destruct (callback x st) as [[[]|e'] st1] eqn:Hx.
  - intros Hrun. destruct (IH _ Hrun) as (before & l & after & st2 & -> & Hb & Hl).
    exists (x :: before), l, after, st2. simpl. by rewrite Hx.
  - intros [= -> ->]. exists [], x, ls, st. auto.
Qed.

(** What the entries visited without a throw have done to the heap. *)
Lemma recover_entries_ok (ls : list loc) :
  forall (hk : heap) (ck : SbisFormatController) (res : list loc)
         (hn : heap) (cn : SbisFormatController) (resn : list loc),
  run_entries recover_entry ls (hk, (ck, res)) = (Ok (), (hn, (cn, resn))) ->
  resn = res ++ ls /\
  arrs hn = arrs hk /\
  (forall l, f (fields hn l) = f (fields hk l)) /\
  (forall l, is_Some (s (fields hk l)) -> s (fields hn l) = s (fields hk l)) /\
  (forall l, l ∉ ls -> objs hn !! l = objs hk !! l) /\
  (forall l, l ∈ ls ->
     exists a, objs hn !! l = Some {| f := f (fields hk l); s := Some a |}).
Proof.
  induction ls as [|x ls IH]; intros hk ck res hn cn resn.
  - intros [= <- <- <-]. rewrite app_nil_r. repeat split; auto.
    intros l Hl. by apply elem_of_nil in Hl.
  - cbn [run_entries].
    destruct (recover_entry x (hk, (ck, res))) as [[[]|e] [h1 [c1 res1]]] eqn:Hx;
      [|done].
    intros Hrun. apply IH in Hrun as (-> & Ha & Hf & Hs & Hout & Hin).
    assert (exists a, h1 = set_s hk x a /\ res1 = res ++ [x] /\
              (s (fields hk x) = None \/ s (fields hk x) = Some a))
      as (a & -> & -> & Hsx).
    { unfold recover_entry in Hx.
      destruct (s (fields hk x)) as [a|] eqn:Hsx.
      - injection Hx as <- <- <-. eauto.
      - destruct (getFormat_nocopy hk ck (f (fields hk x))) as [Hh _].
        destruct (getFormat hk ck (f (fields hk x)) false) as [[[a|e] c'] h'];
          [|done].
        simpl in Hh. subst h'. injection Hx as <- <- <-. eauto. }
    assert (Hfx : forall l, f (fields (set_s hk x a) l) = f (fields hk l)).
    { intros l. rewrite fields_set_s. by destruct (decide (l = x)) as [->|]. }
    assert (Hsx' : forall l, is_Some (s (fields hk l)) ->
                     s (fields (set_s hk x a) l) = s (fields hk l)).
    { intros l Hl. rewrite fields_set_s. destruct (decide (l = x)) as [->|]; [|done].
      simpl. destruct Hsx as [E|E]; rewrite E in *; [by destruct Hl|done]. }
    split; [by rewrite <- app_assoc|]. split; [done|].
    split; [intros l; by rewrite Hf|].
    split.
    { intros l Hl. rewrite Hs, Hsx'; [done|done|]. by rewrite Hsx'. }
    split.
    { intros l Hl. apply not_elem_of_cons in Hl as [Hne Hl].
      rewrite Hout by done. simpl. by rewrite lookup_insert_ne. }
    intros l Hl. destruct (decide (l ∈ ls)) as [Hls|Hls].
    + destruct (Hin l Hls) as [b Hb]. exists b. by rewrite Hb, Hfx.
    + apply elem_of_cons in Hl as [->|Hl]; [|done].
      exists a. rewrite Hout by done. simpl. by rewrite lookup_insert_eq.
Qed.

Lemma recoverFormats_run (h : heap) (v : jsvalue) (c : SbisFormatController) :
  eachFormatEntry v recover_entry (h, (c, [])) =
  run_entries recover_entry (entries h v) (h, (c, [])).
Proof.
  rewrite entries_carriers.
  apply (eachFormatEntry_run recover_entry recover_entry_carriers v (h, (c, []))).
Qed.

Lemma objs_delete_all (ls : list loc) (h : heap) (l : loc) :
  objs (foldl delete_f h ls) !! l =
  if decide (l ∈ ls) then Some {| f := None; s := s (fields h l) |}
  else objs h !! l.
Proof.
  revert h. induction ls as [|x ls IH]; intros h; cbn [foldl].
  - rewrite decide_False; [done|]. apply not_elem_of_nil.
  - rewrite IH. destruct (decide (l ∈ ls)) as [Hin|Hin].
    + rewrite decide_True by (by apply list_elem_of_further).
      rewrite fields_delete_f. by destruct (decide (l = x)) as [->|].
    + destruct (decide (l = x)) as [->|Hne].
      * rewrite decide_True by apply list_elem_of_here.
        simpl. by rewrite lookup_insert_eq.
      * rewrite decide_False.
        -- simpl. by rewrite lookup_insert_ne.
        -- intros Hx. apply elem_of_cons in Hx as [?|?]; done.
Qed.

(** X15. Whether it returns or throws, [recoverData] changes nothing but the
    carriers of its payload: no array is copied or written to, an object that
    [eachFormatEntry] does not visit keeps its fields, and an [s] that was
    there is never replaced. *)
Theorem recoverData_frame (h : heap) (v : jsvalue)
    (controller : option SbisFormatController) :
  let h' := (recoverData h v controller).2 in
  arrs h' = arrs h /\
  (forall l, l ∉ entries h v -> fields h' l = fields h l) /\
  (forall l, is_Some (s (fields h l)) -> s (fields h' l) = s (fields h l)).
Proof.
  unfold recoverData, recoverFormats. rewrite recoverFormats_run.
  set (c := default (new_SbisFormatController v) controller).
  destruct (run_entries recover_entry (entries h v) (h, (c, [])))
    as [[[]|e] [h1 [c1 res]]] eqn:Hrun.
  - apply recover_entries_ok in Hrun as (-> & Ha & Hf & Hs & Hout & Hin).
    simpl. split; [|split].
    + destruct (fields_delete_all (entries h v) h1 1%positive) as (_ & _ & ->).
      done.
    + intros l Hl. unfold fields at 1.
      rewrite objs_delete_all, decide_False by done.
      rewrite Hout by done. done.
    + intros l Hl.
      destruct (fields_delete_all (entries h v) h1 l) as (_ & -> & _). auto.
  - apply run_entries_throw in Hrun
      as (before & x & after & [h2 [c2 res2]] & Hsplit & Hb & Hx).
    apply recover_entries_ok in Hb as (-> & Ha & Hf & Hs & Hout & Hin).
    assert (h1 = h2) as ->.
    { unfold recover_entry in Hx. destruct (s (fields h2 x)); [done|].
      destruct (getFormat_nocopy h2 c2 (f (fields h2 x))) as [Hh _].
      destruct (getFormat h2 c2 (f (fields h2 x)) false) as [[[a|e'] c'] h'];
        [done|].
      simpl in Hh. by injection Hx as _ <- _ _. }
    simpl. split; [done|]. split; [|done].
    intros l Hl. unfold fields. rewrite Hout; [done|].
    intros Hin'. apply Hl. rewrite Hsplit. apply elem_of_app. by left.
Qed.

(** X16. When [recoverData] throws, it throws the ReferenceError of a
    [getFormat] that found no structure for the [f] of a carrier without
    [s]; no [f] has been deleted, of any object; the carriers visited before
    that one have their [s], and every other object is as it was. *)
Theorem recoverData_failure (h : heap) (v : jsvalue)
    (controller : option SbisFormatController) (e : error)
    (c' : SbisFormatController) (h' : heap) :
  recoverData h v controller = (Throw e, c', h') ->
  e = ReferenceError /\
  (forall l, f (fields h' l) = f (fields h l)) /\
  exists before l after,
    entries h v = before ++ l :: after /\
    s (fields h l) = None /\ s (fields h' l) = None /\
    (forall x, x ∈ before -> is_Some (s (fields h' x))) /\
    (forall x, x ∉ before -> fields h' x = fields h x).
Proof.
  unfold recoverData, recoverFormats. rewrite recoverFormats_run.
  set (c := default (new_SbisFormatController v) controller).
  destruct (run_entries recover_entry (entries h v) (h, (c, [])))
    as [[[]|e1] [h1 [c1 res]]] eqn:Hrun; [done|].
  intros [= -> -> ->].
  apply run_entries_throw in Hrun
    as (before & x & after & [h2 [c2 res2]] & Hsplit & Hb & Hx).
  apply recover_entries_ok in Hb as (-> & Ha & Hf & Hs & Hout & Hin).
  assert (h' = h2 /\ e = ReferenceError /\ s (fields h2 x) = None)
    as (-> & -> & Hsx).
  { unfold recover_entry in Hx. destruct (s (fields h2 x)); [done|].
    destruct (getFormat_nocopy h2 c2 (f (fields h2 x))) as [Hh He].
    destruct (getFormat h2 c2 (f (fields h2 x)) false) as [[[a|e'] c''] h''];
      [done|].
    simpl in Hh, He. injection Hx as -> -> _ _. split; [done|]. split; [|done].
    by apply He. }
  split; [done|]. split; [done|].
  exists before, x, after. split; [done|].
  assert (Hsx0 : s (fields h x) = None).
  { destruct (s (fields h x)) as [a|] eqn:E; [|done].
    rewrite Hs in Hsx by (by rewrite E). congruence. }
  split; [done|]. split; [done|]. split.
  - intros y Hy. destruct (Hin y Hy) as [a Ha']. unfold fields. rewrite Ha'.
    simpl. eauto.
  - intros y Hy. unfold fields. by rewrite Hout.
Qed.

Lemma recoverData_failure_witness :
  exists c' h',
    recoverData dangling_heap dangling_payload None =
      (Throw ReferenceError, c', h') /\
    f (fields h' 4%positive) = Some 5%Z.
Proof.
  destruct (recoverData dangling_heap dangling_payload None)
    as [[r c'] h'] eqn:E.
  assert (Hr : r = Throw ReferenceError) by (vm_compute in E; congruence).
  subst r. exists c', h'. split; [done|].
  destruct (recoverData_failure dangling_heap dangling_payload None
              ReferenceError c' h' E) as (_ & Hf & _).
  rewrite Hf. by vm_compute.
Defined.

Lemma set_s_same (h : heap) (l a : loc) :
  objs h !! l = Some {| f := None; s := Some a |} -> set_s h l a = h.
Proof.
  intros Hl. unfold set_s, fields. rewrite Hl. simpl.
  rewrite insert_id by done. by destruct h.
Qed.

Lemma delete_f_same (h : heap) (l a : loc) :
  objs h !! l = Some {| f := None; s := Some a |} -> delete_f h l = h.
Proof.
  intros Hl. unfold delete_f, fields. rewrite Hl. simpl.
  rewrite insert_id by done. by destruct h.
Qed.

(** Entries that have their [s] and no [f] are left as they are. *)
Lemma recover_entries_recovered (ls : list loc) (h : heap)
    (c : SbisFormatController) (res : list loc) :
  (forall l, l ∈ ls -> exists a, objs h !! l = Some {| f := None; s := Some a |}) ->
  run_entries recover_entry ls (h, (c, res)) = (Ok (), (h, (c, res ++ ls))) /\
  foldl delete_f h ls = h.
Proof.
  revert res. induction ls as [|x ls IH]; intros res Hls.
  - by rewrite app_nil_r.
  - destruct (Hls x) as [a Hx]; [apply list_elem_of_here|].
    assert (Hstep : recover_entry x (h, (c, res)) =
                    (Ok (), (h, (c, res ++ [x])))).
    { unfold recover_entry, fields at 1. rewrite Hx. simpl.
      by rewrite (set_s_same h x a Hx). }
    cbn [run_entries foldl]. rewrite Hstep, (delete_f_same h x a Hx).
    destruct (IH (res ++ [x])) as [-> ->].
    { intros l Hl. apply Hls. by apply list_elem_of_further. }
    by rewrite <- app_assoc.
Qed.

(** X17. [recoverData] is idempotent: on a payload that a call of
    [recoverData] has returned, another call, with any controller or none,
    returns the payload, consults no controller and leaves the heap as it
    is. *)
Theorem recoverData_idempotent (h : heap) (v : jsvalue)
    (controller controller2 : option SbisFormatController)
    (c1 : SbisFormatController) (h1 : heap) :
  recoverData h v controller = (Ok v, c1, h1) ->
  recoverData h1 v controller2 =
  (Ok v, default (new_SbisFormatController v) controller2, h1).
Proof.
  unfold recoverData at 1, recoverFormats. rewrite recoverFormats_run.
  set (c := default (new_SbisFormatController v) controller).
  destruct (run_entries recover_entry (entries h v) (h, (c, [])))
    as [[[]|e] [h' [c' res]]] eqn:Hrun; [|done].
  intros [= -> <-].
  apply recover_entries_ok in Hrun as (-> & Ha & Hf & Hs & Hout & Hin).
  simpl.
  assert (Hdone : forall l, l ∈ entries h v ->
            exists a, objs (foldl delete_f h' (entries h v)) !! l =
                      Some {| f := None; s := Some a |}).
  { intros l Hl. rewrite objs_delete_all, decide_True by done.
    destruct (Hin l Hl) as [a Hl']. exists a. unfold fields. by rewrite Hl'. }
  assert (Hrest : forall l, l ∉ entries h v ->
            objs (foldl delete_f h' (entries h v)) !! l = objs h !! l).
  { intros l Hl. rewrite objs_delete_all, decide_False by done. by apply Hout. }
  set (h2 := foldl delete_f h' (entries h v)) in *.
  assert (Hsame : entries h2 v = entries h v).
  { rewrite !entries_carriers. apply filter_carriers_ext. intros l.
    destruct (decide (l ∈ entries h v)) as [Hl|Hl].
    - destruct (Hdone l Hl) as [a Hl'].
      rewrite entries_carriers in Hl. apply list_elem_of_filter in Hl as [-> _].
      unfold is_carrier, fields. by rewrite Hl'.
    - unfold is_carrier, fields. by rewrite Hrest. }
  unfold recoverData, recoverFormats. rewrite recoverFormats_run, Hsame.
  destruct (recover_entries_recovered (entries h v) _
              (default (new_SbisFormatController v) controller2) [] Hdone)
    as [-> Hdel].
  simpl. by rewrite Hdel.
Qed.

Lemma recoverData_idempotent_witness :
  exists c1 h1,
    recoverData spec_heap spec_payload None = (Ok spec_payload, c1, h1) /\
    recoverData h1 spec_payload None =
      (Ok spec_payload, new_SbisFormatController spec_payload, h1).
Proof.
  destruct (recoverData spec_heap spec_payload None) as [[r c1] h1] eqn:E.
  assert (Hr : r = Ok spec_payload)
    by (vm_compute in E; injection E as <- _ _; reflexivity).
  subst r. exists c1, h1. split; [done|].
  apply (recoverData_idempotent spec_heap spec_payload None None c1 h1 E).
Defined.

(** X19. After [recoverData] has returned, its payload declares no id any
    more, no object of it having an [f]: a new controller bound to the
    recovered payload resolves nothing, [getFormat] of every id throws the
    ReferenceError. *)
Theorem recoverData_erases_ids (h : heap) (v : jsvalue)
    (controller : option SbisFormatController) (c1 : SbisFormatController)
    (h1 : heap) :
  recoverData h v controller = (Ok v, c1, h1) ->
  declarations h1 v = [] /\
  forall (N : Z) (copy : bool),
    (getFormat h1 (new_SbisFormatController v) (Some N) copy).1.1 =
    Throw ReferenceError.
Proof.
  unfold recoverData, recoverFormats. rewrite recoverFormats_run.
  set (c := default (new_SbisFormatController v) controller).
  destruct (run_entries recover_entry (entries h v) (h, (c, [])))
    as [[[]|e] [h' [c' res]]] eqn:Hrun; [|done].
  intros [= -> <-].
  apply recover_entries_ok in Hrun as (-> & Ha & Hf & Hs & Hout & Hin).
  simpl.
  assert (Hnone : omap (declaration (foldl delete_f h' (entries h v)))
                    (objects v) = []).
  { assert (Hall : forall l, l ∈ objects v ->
              declaration (foldl delete_f h' (entries h v)) l = None).
    { intros l Hl. unfold declaration.
      destruct (fields_delete_all (entries h v) h' l) as (-> & _ & _).
      destruct (decide (l ∈ entries h v)) as [Hin'|Hin']; [done|].
      rewrite Hf. rewrite entries_carriers in Hin'. unfold carriers in Hin'.
      rewrite list_elem_of_filter in Hin'.
      destruct (f (fields h l)) as [i|] eqn:Hfl; [|done].
      destruct Hin'. split; [|done]. unfold is_carrier. rewrite Hfl.
      by rewrite orb_true_r. }
    induction (objects v) as [|l ls IH]; [done|]. csimpl.
    rewrite Hall by apply list_elem_of_here.
    apply IH. intros x Hx. apply Hall. by apply list_elem_of_further. }
  split; [by rewrite declarations_objects|].
  intros N copy. rewrite getFormat_scan by done. simpl. rewrite lookup_empty.
  pose proof (scan_result (foldl delete_f h' (entries h v)) (objects v) ∅ (Some N))
    as Hr.
  simpl in Hr. rewrite lookup_empty, Hnone in Hr.
  destruct (scan _ (objects v) ∅ (Some N)) as [[found pend'] cache'].
  simpl in Hr. by subst found.
Qed.

Lemma recoverData_erases_ids_witness :
  exists c1 h1,
    recoverData spec_heap spec_payload None = (Ok spec_payload, c1, h1) /\
    declarations h1 spec_payload = [] /\
    (getFormat h1 (new_SbisFormatController spec_payload) (Some 1%Z) false).1.1 =
      Throw ReferenceError.
Proof.
  destruct (recoverData spec_heap spec_payload None) as [[r c1] h1] eqn:E.
  assert (Hr : r = Ok spec_payload)
    by (vm_compute in E; injection E as <- _ _; reflexivity).
  subst r. exists c1, h1. split; [done|].
  destruct (recoverData_erases_ids spec_heap spec_payload None c1 h1 E)
    as [Hd Hg].
  split; [exact Hd|apply Hg].
Defined.

(** ** The engine on the objects of the classes *)

Lemma Classes_slots_ext (e e' : Classes.t) (n : nat) :
  (forall k, (0 <= k < Z.of_nat n)%Z -> Classes.slot e' k = Classes.slot e k) ->
  Classes.slots e' n = Classes.slots e n.
Proof.
  induction n as [|n IH]; intros Hk; simpl; [done|].
  rewrite Hk by lia. rewrite IH; [done|]. intros k Hk'. apply Hk. lia.
Qed.

Lemma Classes_slot_wf (e : Classes.t) (k : Z) :
  Classes.wf e -> (0 <= k <= Classes.processableId e)%Z ->
  exists r w, Classes._stack e !! k = Some r /\
              Classes.wrappers e !! r = Some w /\
              Classes.slot e k = Some w /\ Classes.iterator_ok w.
Proof.
  intros (_ & Hkeys & _ & Hw & _) Hk.
  destruct (proj2 (Hkeys k) Hk) as [r Hr].
  destruct (Hw k r Hr) as (w & Hw' & Hok).
  exists r, w. unfold Classes.slot. rewrite Hr. simpl. auto.
Qed.

Lemma Classes_slots_length (e : Classes.t) (n : nat) :
  Classes.wf e -> (Z.of_nat n <= Classes.processableId e + 1)%Z ->
  length (Classes.slots e n) = n.
Proof.
  intros Hwf. induction n as [|n IH]; intros Hn; simpl; [done|].
  destruct (Classes_slot_wf e (Z.of_nat n) Hwf) as (r & w & _ & _ & -> & _);
    [lia|].
  simpl. rewrite IH; [done|lia].
Qed.

Lemma Classes_view_length (e : Classes.t) :
  Classes.wf e ->
  Z.of_nat (length (Classes.view e)) = (Classes.processableId e + 1)%Z.
Proof.
  intros Hwf. unfold Classes.view.
  rewrite Classes_slots_length; [|done|]; destruct Hwf as (? & _); lia.
Qed.

(** The top of a stack that is not empty. *)
Lemma Classes_view_top (e : Classes.t) :
  Classes.wf e -> (0 <= Classes.processableId e)%Z ->
  exists r w,
    Classes._current e = Some r /\
    Classes._stack e !! Classes.processableId e = Some r /\
    Classes.wrappers e !! r = Some w /\ Classes.iterator_ok w /\
    Classes.view e =
      Classes.node_of w :: Classes.slots e (Z.to_nat (Classes.processableId e)).
Proof.
  intros Hwf Hp.
  destruct (Classes_slot_wf e (Classes.processableId e) Hwf)
    as (r & w & Hr & Hw & Hs & Hok); [lia|].
  exists r, w. destruct Hwf as (_ & _ & Hcur & _).
  rewrite Hcur. split; [done|]. split; [done|]. split; [done|]. split; [done|].
  unfold Classes.view.
  replace (Z.to_nat (Classes.processableId e + 1))
    with (S (Z.to_nat (Classes.processableId e))) by lia.
  cbn [Classes.slots]. rewrite Z2Nat.id by lia. by rewrite Hs.
Qed.

Lemma Classes_view_empty (e : Classes.t) :
  Classes.wf e -> (Classes.processableId e < 0)%Z -> Classes.view e = [].
Proof.
  intros (Hge & _) Hp. unfold Classes.view.
  by replace (Z.to_nat (Classes.processableId e + 1)) with 0 by lia.
Qed.

Lemma Classes_push (v : jsvalue) (e : Classes.t) :
  Classes.wf e ->
  Classes.wf (Classes.push v e) /\
  Classes.view (Classes.push v e) = wrap v :: Classes.view e /\
  Classes.same_below e (Classes.push v e).
Proof.
  intros Hwf. pose proof Hwf as (Hge & Hkeys & Hcur & Hw & Hinj).
  set (r := fresh (dom (Classes.wrappers e))).
  assert (Hr : Classes.wrappers e !! r = None).
  { apply not_elem_of_dom. apply is_fresh. }
  assert (Hnot : forall k, Classes._stack e !! k <> Some r).
  { intros k Hk. destruct (Hw k r Hk) as (w & Hw' & _). congruence. }
  assert (Hslot : forall k, (k <= Classes.processableId e)%Z ->
            Classes.slot (Classes.push v e) k = Classes.slot e k).
  { intros k Hk. unfold Classes.slot, Classes.push. simpl.
    rewrite lookup_insert_ne by lia.
    destruct (Classes._stack e !! k) as [r'|] eqn:Hr'; [|done]. simpl.
    rewrite lookup_insert_ne; [done|]. fold r. intros <-. by apply (Hnot k). }
  split; [|split].
  - split; [simpl; lia|]. split; [|split; [|split]]; simpl.
    + intros k. destruct (decide (k = Classes.processableId e + 1)%Z) as [->|Hne].
      * rewrite lookup_insert_eq. split; [lia|eauto].
      * rewrite lookup_insert_ne by done. rewrite Hkeys. lia.
    + by rewrite lookup_insert_eq.
    + intros k r'. fold r.
      destruct (decide (k = Classes.processableId e + 1)%Z) as [->|Hne].
      * rewrite lookup_insert_eq. intros [= <-].
        rewrite lookup_insert_eq. eexists. split; [done|]. by intros it.
      * rewrite lookup_insert_ne by done. intros Hk.
        destruct (Hw k r' Hk) as (w & Hw' & Hok). exists w. split; [|done].
        rewrite lookup_insert_ne; [done|]. intros <-. congruence.
    + intros k k' r'. fold r.
      destruct (decide (k = Classes.processableId e + 1)%Z) as [->|Hne];
        destruct (decide (k' = Classes.processableId e + 1)%Z) as [->|Hne'];
        rewrite ?lookup_insert_eq, ?lookup_insert_ne by done.
      * done.
      * intros [= <-] Hk'. by apply Hnot in Hk'.
      * intros Hk [= <-]. by apply Hnot in Hk.
      * apply Hinj.
  - unfold Classes.view at 1. simpl Classes.processableId.
    replace (Z.to_nat (Classes.processableId e + 1 + 1))
      with (S (Z.to_nat (Classes.processableId e + 1))) by lia.
    cbn [Classes.slots]. rewrite Z2Nat.id by lia.
    unfold Classes.slot at 1. simpl. rewrite lookup_insert_eq. simpl.
    fold r. rewrite lookup_insert_eq. f_equal.
    apply Classes_slots_ext. intros k Hk. apply Hslot. lia.
  - intros k Hk _. simpl. rewrite lookup_insert_ne by lia. done.
Qed.

Lemma Classes_pop (e : Classes.t) :
  Classes.wf e -> (0 <= Classes.processableId e)%Z ->
  Classes.wf (Classes.pop e) /\
  Classes.view (Classes.pop e) = pop (Classes.view e) /\
  Classes.same_below e (Classes.pop e).
Proof.
  intros Hwf Hp. pose proof Hwf as (Hge & Hkeys & Hcur & Hw & Hinj).
  assert (Hslot : forall k, (k < Classes.processableId e)%Z ->
            Classes.slot (Classes.pop e) k = Classes.slot e k).
  { intros k Hk. unfold Classes.slot, Classes.pop. simpl.
    by rewrite lookup_delete_ne by lia. }
  split; [|split].
  - split; [simpl; lia|]. split; [|split; [|split]]; simpl.
    + intros k.
      replace (Classes.processableId e - 1 + 1)%Z
        with (Classes.processableId e) by lia.
      destruct (decide (k = Classes.processableId e)) as [->|Hne].
      * rewrite lookup_delete_eq. split; [by intros [? ?]|lia].
      * rewrite lookup_delete_ne by done. rewrite Hkeys. lia.
    + rewrite lookup_delete_ne by lia. done.
    + intros k r Hk. apply lookup_delete_Some in Hk as [_ Hk]. eauto.
    + intros k k' r Hk Hk'. apply lookup_delete_Some in Hk as [_ Hk].
      apply lookup_delete_Some in Hk' as [_ Hk']. eauto.
  - destruct (Classes_view_top e Hwf Hp) as (r & w & _ & _ & _ & _ & ->).
    unfold pop. simpl. unfold Classes.view. simpl Classes.processableId.
    replace (Classes.processableId e - 1 + 1)%Z
      with (Classes.processableId e) by lia.
    apply Classes_slots_ext. intros k Hk. apply Hslot. lia.
  - intros k _ Hk. simpl in *. rewrite lookup_delete_ne by lia. done.
Qed.

(** A write to the wrapper on top of the stack. *)
Lemma Classes_write_top (r : loc) (g : Classes.wrapper -> Classes.wrapper)
    (w : Classes.wrapper) (e : Classes.t) :
  Classes.wf e -> Classes._current e = Some r ->
  Classes.wrappers e !! r = Some w -> Classes.iterator_ok (g w) ->
  Classes.wf (Classes.write r g e) /\
  Classes.view (Classes.write r g e) =
    Classes.node_of (g w) :: pop (Classes.view e).
Proof.
  intros Hwf Hr Hw Hok. pose proof Hwf as (Hge & Hkeys & Hcur & Hws & Hinj).
  assert (Hp : (0 <= Classes.processableId e)%Z).
  { rewrite Hcur in Hr. assert (is_Some (Classes._stack e !! Classes.processableId e))
      as Hs by eauto. apply Hkeys in Hs. lia. }
  rewrite Hcur in Hr.
  split.
  - split; [done|]. split; [done|]. split; [done|]. split; [|done].
    simpl. intros k r' Hk. destruct (decide (r' = r)) as [->|Hne].
    + exists (g w). rewrite lookup_alter_eq, Hw. done.
    + rewrite lookup_alter_ne by done. eauto.
  - destruct (Classes_view_top e Hwf Hp) as (r0 & w0 & _ & Hr0 & Hw0 & _ & ->).
    unfold pop. simpl. unfold Classes.view. simpl Classes.processableId.
    replace (Z.to_nat (Classes.processableId e + 1))
      with (S (Z.to_nat (Classes.processableId e))) by lia.
    cbn [Classes.slots]. rewrite Z2Nat.id by lia.
    unfold Classes.slot at 1. simpl. rewrite Hr. simpl.
    rewrite lookup_alter_eq, Hw. simpl. f_equal.
    apply Classes_slots_ext. intros k Hk. unfold Classes.slot. simpl.
    destruct (Classes._stack e !! k) as [r'|] eqn:Hr'; [|done]. simpl.
    rewrite lookup_alter_ne; [done|]. intros <-.
    assert (k = Classes.processableId e) by eauto. lia.
Qed.

(** A write to a wrapper that is not on the stack. *)
Lemma Classes_write_off (r : loc) (g : Classes.wrapper -> Classes.wrapper)
    (e : Classes.t) :
  Classes.wf e -> (forall k, Classes._stack e !! k <> Some r) ->
  Classes.wf (Classes.write r g e) /\
  Classes.view (Classes.write r g e) = Classes.view e.
Proof.
  intros Hwf Hnot. pose proof Hwf as (Hge & Hkeys & Hcur & Hws & Hinj).
  split.
  - split; [done|]. split; [done|]. split; [done|]. split; [|done].
    simpl. intros k r' Hk. rewrite lookup_alter_ne; [eauto|].
    intros <-. by apply (Hnot k).
  - unfold Classes.view. simpl Classes.processableId.
    apply Classes_slots_ext. intros k Hk. unfold Classes.slot. simpl.
    destruct (Classes._stack e !! k) as [r'|] eqn:Hr'; [|done]. simpl.
    rewrite lookup_alter_ne; [done|]. intros <-. by apply (Hnot k).
Qed.

Lemma Classes_write_push (r : loc) (g : Classes.wrapper -> Classes.wrapper)
    (v : jsvalue) (e : Classes.t) :
  is_Some (Classes.wrappers e !! r) ->
  Classes.write r g (Classes.push v e) = Classes.push v (Classes.write r g e).
Proof.
  intros Hr. unfold Classes.write, Classes.push. simpl.
  rewrite dom_alter_L. f_equal.
  rewrite alter_insert_ne; [done|]. intros E.
  apply elem_of_dom in Hr. rewrite E in Hr. by apply is_fresh in Hr.
Qed.

(** One call of [next()] on the iterator of a wrapper. *)
Lemma Classes_iterator_next (it : Classes.array_iterator) :
  match it with
  | Classes.Native _ => True
  | Classes.Fallback i =>
      (-1 <= IteratorArray.currentIndex i <
         Z.of_nat (length (IteratorArray._data i)))%Z
  end ->
  match Classes.to_yield it with
  | [] => (Classes.iterator_next it).1 = (JUndefined, true)
  | x :: rest =>
      (Classes.iterator_next it).1 = (x, false) /\
      Classes.to_yield (Classes.iterator_next it).2 = rest /\
      match (Classes.iterator_next it).2 with
      | Classes.Native _ => True
      | Classes.Fallback i =>
          (-1 <= IteratorArray.currentIndex i <
             Z.of_nat (length (IteratorArray._data i)))%Z
      end
  end.
Proof.
  destruct it as [[|x rest]|i]; simpl; [done|done|].
  intros Hi. pose proof (IteratorArray_next_to_yield i Hi) as Hn.
  pose proof (IteratorArray_next_advances i) as Hadv.
  destruct (IteratorArray.to_yield i) as [|x rest] eqn:Hy.
  - destruct (IteratorArray.next i) as [[v d] i']. simpl in *. done.
  - destruct Hn as [Hv Hrest].
    assert (Hlt : (IteratorArray.currentIndex i + 1 <
                   Z.of_nat (length (IteratorArray._data i)))%Z).
    { unfold IteratorArray.to_yield in Hy.
      assert (length (drop (Z.to_nat (IteratorArray.currentIndex i + 1))
                        (IteratorArray._data i)) = S (length rest)) as Hl
        by (by rewrite Hy).
      rewrite length_drop in Hl. lia. }
    destruct (IteratorArray.next i) as [[v d] i']. simpl in *.
    subst i'. simpl. split; [done|]. split; [done|]. lia.
Qed.

Lemma Classes_same_below_trans (e e1 e2 : Classes.t) :
  Classes.same_below e e1 -> Classes.same_below e1 e2 ->
  (Classes.processableId e <= Classes.processableId e1)%Z ->
  Classes.same_below e e2.
Proof.
  intros H1 H2 Hle k Hk Hk2. rewrite H2 by lia. apply H1; lia.
Qed.

(** [pop()] and then a write to the wrapper that was popped. *)
Lemma Classes_pop_write (r : loc) (g : Classes.wrapper -> Classes.wrapper)
    (e : Classes.t) :
  Classes.wf e -> Classes._current e = Some r ->
  Classes.wf (Classes.write r g (Classes.pop e)) /\
  Classes.view (Classes.write r g (Classes.pop e)) = pop (Classes.view e) /\
  Classes.same_below e (Classes.write r g (Classes.pop e)).
Proof.
  intros Hwf Hr. pose proof Hwf as (Hge & Hkeys & Hcur & Hws & Hinj).
  rewrite Hcur in Hr.
  assert (Hp : (0 <= Classes.processableId e)%Z).
  { assert (is_Some (Classes._stack e !! Classes.processableId e)) as Hs by eauto.
    apply Hkeys in Hs. lia. }
  destruct (Classes_pop e Hwf Hp) as (Hwf' & Hview & Hsame).
  destruct (Classes_write_off r g (Classes.pop e) Hwf') as [Hwf'' Hview''].
  { intros k Hk. simpl in Hk. apply lookup_delete_Some in Hk as [Hne Hk].
    assert (k = Classes.processableId e) by eauto. lia. }
  split; [done|]. split; [congruence|]. exact Hsame.
Qed.

Lemma Classes_node_of_set_iterator (it : Classes.array_iterator)
    (w : Classes.wrapper) :
  Classes.node_of (Classes.set_iterator it w) =
  set_iterator (Classes.to_yield it) (Classes.node_of w).
Proof. done. Qed.

Lemma Classes_node_of_set_completed (w : Classes.wrapper) :
  Classes.node_of (Classes.set_completed w) = set_completed (Classes.node_of w).
Proof. done. Qed.

(** The loop of the list engine does not read the iterator of the wrapper
    it is called on. *)
Lemma array_loop_iterator (proc : RecursiveStack -> gmap Z loc -> processed)
    (it it0 : list jsvalue) (n : node) (rest : RecursiveStack)
    (storage : gmap Z loc) :
  array_loop proc it (set_iterator it0 n :: rest) storage =
  array_loop proc it (n :: rest) storage.
Proof. by destruct it. Qed.

Section ClassesSimulation.
Variable env : bool.
Variable h : heap.
Variable id : option Z.

Lemma Classes_array_loop_sim
    (proc : RecursiveStack -> gmap Z loc -> processed)
    (procC : Classes.t -> gmap Z loc -> Classes.processed) :
  (forall e storage, Classes.wf e ->
     simulates e (proc (Classes.view e) storage) (procC e storage)) ->
  (forall st storage l' s', proc st storage = Some (None, l', s') -> l' = pop st) ->
  forall (it : list jsvalue) (n : nat) (r : loc) (e : Classes.t)
         (storage : gmap Z loc) (w : Classes.wrapper)
         (itC : Classes.array_iterator),
    Classes.wf e -> Classes._current e = Some r ->
    Classes.wrappers e !! r = Some w -> Classes.iterator w = Some itC ->
    Classes.to_yield itC = it -> length it < n ->
    simulates e (array_loop proc it (Classes.view e) storage)
                (Classes.array_loop procC n r e storage).
Proof.
  intros Hproc Hpops.
  induction it as [|item it IH]; intros n r e storage w itC Hwf Hr Hw HitC Hy Hn;
    (destruct n as [|n]; [simpl in Hn; lia|]);
    pose proof Hwf as (Hge & Hkeys & Hcur & Hws & Hinj);
    assert (Hrs : Classes._stack e !! Classes.processableId e = Some r)
      by (by rewrite <- Hcur);
    destruct (Hws _ _ Hrs) as (w' & Hw' & Hok);
    rewrite Hw in Hw'; injection Hw' as <-;
    destruct (Hok itC HitC) as [(items & Hdata & Hlen) Hrange];
    pose proof (Classes_iterator_next itC Hrange) as Hnext; rewrite Hy in Hnext;
    cbn [Classes.array_loop]; rewrite Hw; simpl; rewrite HitC;
    destruct (Classes.iterator_next itC) as [[v d] itC'] eqn:E; simpl in Hnext.
  - injection Hnext as -> ->. intros x l' s'. simpl. intros [= <- <- <-].
    change (Classes.pop (Classes.write r (Classes.set_iterator itC') e))
      with (Classes.write r (Classes.set_iterator itC') (Classes.pop e)).
    destruct (Classes_pop_write r (Classes.set_iterator itC') e Hwf Hr)
      as (Hwf' & Hview & Hsame).
    eexists. split; [done|]. auto.
  - destruct Hnext as ([= -> ->] & Hy' & Hrange').
    set (e1 := Classes.write r (Classes.set_iterator itC') e).
    assert (Hok1 : Classes.iterator_ok (Classes.set_iterator itC' w)).
    { intros it1 [= <-]. split; [|done]. exists items. split; [done|].
      rewrite Hy'. rewrite Hy in Hlen. simpl in Hlen. lia. }
    destruct (Classes_write_top r (Classes.set_iterator itC') w e Hwf Hr Hw Hok1)
      as [Hwf1 Hview1]. fold e1 in Hwf1, Hview1.
    rewrite Classes_node_of_set_iterator, Hy' in Hview1.
    assert (Hup : update_current (set_iterator it) (Classes.view e) =
                  Classes.view e1).
    { rewrite Hview1.
      assert (Hp : (0 <= Classes.processableId e)%Z).
      { assert (is_Some (Classes._stack e !! Classes.processableId e)) as Hs
          by eauto. apply Hkeys in Hs. lia. }
      destruct (Classes_view_top e Hwf Hp) as (r0 & w0 & Hr0 & _ & Hw0 & _ & ->).
      rewrite Hr in Hr0. injection Hr0 as <-. rewrite Hw in Hw0.
      by injection Hw0 as <-. }
    assert (Hr1 : Classes._current e1 = Some r) by done.
    assert (Hw1 : Classes.wrappers e1 !! r = Some (Classes.set_iterator itC' w)).
    { unfold e1. simpl. by rewrite lookup_alter_eq, Hw. }
    assert (Hsame1 : Classes.same_below e e1) by (by intros k _ _).
    simpl array_loop. rewrite Hup.
    destruct (instanceof_Object item).
    + destruct (Classes_push item e1 Hwf1) as (Hwf2 & Hview2 & Hsame2).
      unfold push. rewrite <- Hview2.
      pose proof (Hproc (Classes.push item e1) storage Hwf2) as Hsim.
      pose proof (Hpops (Classes.view (Classes.push item e1)) storage) as Hpop.
      destruct (proc (Classes.view (Classes.push item e1)) storage)
        as [[[[a|] l2] s2]|]; [| |by intros x l' s'].
      * destruct (Hsim (Some a) l2 s2 eq_refl) as (e2 & -> & Hv2 & Hwf2' & Hs2).
        intros x l' s' [= <- <- <-]. exists e2. split; [done|].
        split; [done|]. split; [done|].
        apply (Classes_same_below_trans e e1 e2); [done| |done].
        apply (Classes_same_below_trans e1 (Classes.push item e1) e2);
          [done|done|simpl; lia].
      * destruct (Hsim None l2 s2 eq_refl) as (e2 & -> & Hv2 & Hwf2' & Hs2).
        specialize (Hpop l2 s2 eq_refl). rewrite Hview2 in Hpop.
        simpl in Hpop. subst l2.
        assert (Hpid2 : Classes.processableId e2 = Classes.processableId e).
        { pose proof (Classes_view_length e2 Hwf2') as L2.
          pose proof (Classes_view_length e1 Hwf1) as L1.
          rewrite Hv2 in L2. simpl in L1. lia. }
        assert (Hs12 : Classes.same_below e1 e2).
        { apply (Classes_same_below_trans e1 (Classes.push item e1) e2);
            [done|done|simpl; lia]. }
        assert (Hr2 : Classes._current e2 = Some r).
        { destruct Hwf2' as (_ & _ & -> & _). rewrite Hpid2.
          rewrite Hs12 by (simpl; lia). done. }
        assert (Hp2 : (0 <= Classes.processableId e2)%Z).
        { pose proof (Classes_view_length e2 Hwf2') as L2.
          rewrite Hv2, Hview1 in L2. simpl in L2. lia. }
        destruct (Classes_view_top e2 Hwf2' Hp2)
          as (r2 & w2 & Hr2' & _ & Hw2 & _ & Htop2).
        rewrite Hr2 in Hr2'. injection Hr2' as <-.
        rewrite Hv2, Hview1 in Htop2.
        apply (f_equal (fun l => iterator <$> head l)) in Htop2.
        simpl in Htop2.
        assert (exists itC2, Classes.iterator w2 = Some itC2 /\
                             Classes.to_yield itC2 = it) as (itC2 & HitC2 & Hy2).
        { destruct (Classes.iterator w2) as [itC2|]; [|done].
          injection Htop2 as ->. eauto. }
        rewrite <- Hv2.
        intros x l' s' Hres.
        destruct (IH n r e2 s2 w2 itC2 Hwf2' Hr2 Hw2 HitC2 Hy2 ltac:(simpl in Hn; lia)
                    x l' s' Hres) as (e' & -> & Hv' & Hwf' & Hs').
        exists e'. split; [done|]. split; [done|]. split; [done|].
        apply (Classes_same_below_trans e e2 e'); [|done|lia].
        apply (Classes_same_below_trans e e1 e2); [done|done|done].
    + intros x l' s' Hres.
      destruct (IH n r e1 storage _ itC' Hwf1 Hr1 Hw1 eq_refl Hy'
                  ltac:(simpl in Hn; lia) x l' s' Hres)
        as (e' & -> & Hv' & Hwf' & Hs').
      exists e'. split; [done|]. split; [done|]. split; [done|].
      apply (Classes_same_below_trans e e1 e'); [done|done|done].
Qed.

Lemma process_pops (fuel : nat) (st : RecursiveStack) (storage : gmap Z loc)
    (l' : RecursiveStack) (s' : gmap Z loc) :
  _process h fuel st storage id = Some (None, l', s') -> l' = pop st.
Proof.
  destruct st as [|n rest]; [by destruct fuel|].
  apply process_undefined_pops.
Qed.

Lemma Classes_process_sim (fuel : nat) :
  forall (e : Classes.t) (storage : gmap Z loc),
    Classes.wf e ->
    simulates e (_process h fuel (Classes.view e) storage id)
                (Classes._process env h fuel e storage id).
Proof.
  induction fuel as [|fuel IH]; intros e storage Hwf; [by intros x l' s'|].
  pose proof Hwf as (Hge & Hkeys & Hcur & Hws & Hinj).
  destruct (decide (Classes.processableId e < 0)%Z) as [Hneg|Hp].
  { rewrite (Classes_view_empty e Hwf Hneg). by intros x l' s'. }
  destruct (Classes_view_top e Hwf ltac:(lia))
    as (r & w & Hr & Hrs & Hw & Hok & Htop).
  cbn [_process Classes._process]. unfold Classes.currentNode.
  rewrite Hr, Hw. rewrite Htop at 1. cbn [currentNode head].
  change (data (Classes.node_of w)) with (Classes.data w).
  change (iterator (Classes.node_of w))
    with (Classes.to_yield <$> Classes.iterator w).
  change (completed (Classes.node_of w)) with (Classes.completed w).
  assert (Hpop : simulates e (Some (None, pop (Classes.view e), storage))
                   (Some (None, Classes.pop e, storage))).
  { intros x l' s' [= <- <- <-].
    destruct (Classes_pop e Hwf ltac:(lia)) as (Hwf' & Hview & Hsame).
    eexists. split; [done|]. auto. }
  destruct (Classes.data w) as [| | | | |items|l d] eqn:Hdata; try exact Hpop.
  - (* array *)
    destruct (Classes.iterator w) as [itC|] eqn:HitC;
      cbn -[Classes.array_loop array_loop].
    + destruct (Hok itC HitC) as [(items' & Hdata' & Hlen) _].
      rewrite Hdata in Hdata'. injection Hdata' as <-.
      apply (Classes_array_loop_sim
               (fun st' s' => _process h fuel st' s' id)
               (fun e' s' => Classes._process env h fuel e' s' id)
               IH (process_pops fuel) (Classes.to_yield itC) (S (length items))
               r e storage w itC); auto. lia.
    + set (itC := Classes._getIterator env items).
      assert (Hy : Classes.to_yield itC = items) by (unfold itC; by destruct env).
      assert (Hok1 : Classes.iterator_ok (Classes.set_iterator itC w)).
      { intros it1 [= <-]. split.
        - exists items. by rewrite Hy.
        - unfold itC. destruct env; simpl; [done|lia]. }
      destruct (Classes_write_top r (Classes.set_iterator itC) w e Hwf Hr Hw Hok1)
        as [Hwf1 Hview1].
      rewrite Classes_node_of_set_iterator, Hy in Hview1.
      set (e1 := Classes.write r (Classes.set_iterator itC) e) in *.
      assert (Hloop : array_loop (fun st' s' => _process h fuel st' s' id)
                        (_getIterator items) (Classes.view e) storage =
                      array_loop (fun st' s' => _process h fuel st' s' id)
                        items (Classes.view e1) storage).
      { rewrite Hview1, Htop. unfold pop. simpl tail.
        by rewrite array_loop_iterator. }
      rewrite Hloop. intros x l' s' Hres.
      destruct (Classes_array_loop_sim
                  (fun st' s' => _process h fuel st' s' id)
                  (fun e' s' => Classes._process env h fuel e' s' id)
                  IH (process_pops fuel) items (S (length items))
                  r e1 storage (Classes.set_iterator itC w) itC Hwf1)
        with (x := x) (l' := l') (s' := s')
        as (e' & -> & Hv' & Hwf' & Hs'); auto.
      { unfold e1. simpl. by rewrite lookup_alter_eq, Hw. }
      exists e'. split; [done|]. split; [done|]. split; [done|].
      intros k Hk Hk'. apply Hs'; done.
  - (* object *)
    destruct (Classes.completed w) eqn:Hc; [exact Hpop|].
    assert (Hokc : Classes.iterator_ok (Classes.set_completed w)).
    { intros it1 Hit1. apply (Hok it1 Hit1). }
    destruct (Classes_write_top r Classes.set_completed w e Hwf Hr Hw Hokc)
      as [Hwf1 Hview1].
    rewrite Classes_node_of_set_completed in Hview1.
    set (e1 := Classes.write r Classes.set_completed e) in *.
    assert (Hup : update_current set_completed (Classes.view e) = Classes.view e1).
    { by rewrite Hview1, Htop. }
    assert (Hdescend : forall storage1,
      simulates e
        (if truthy d
         then match _process h fuel
                      (push (wrap d) (update_current set_completed (Classes.view e)))
                      storage1 id with
              | Some (Some result, st', storage') =>
                  Some (Some result, st', storage')
              | Some (None, st', storage') => Some (None, pop st', storage')
              | None => None
              end
         else Some (None, pop (Classes.view e), storage1))
        (if truthy d
         then match Classes._process env h fuel
                      (Classes.write r Classes.set_completed (Classes.push d e))
                      storage1 id with
              | Some (Some result, e', storage') =>
                  Some (Some result, e', storage')
              | Some (None, e', storage') =>
                  Some (None, Classes.write r Classes.set_completed (Classes.pop e'),
                        storage')
              | None => None
              end
         else Some (None, Classes.write r Classes.set_completed (Classes.pop e),
                    storage1))).
    { intros storage1. destruct (truthy d).
      - rewrite Classes_write_push by eauto. fold e1. rewrite Hup.
        destruct (Classes_push d e1 Hwf1) as (Hwf2 & Hview2 & Hsame2).
        unfold push. rewrite <- Hview2.
        pose proof (IH (Classes.push d e1) storage1 Hwf2) as Hsim.
        pose proof (process_pops fuel (Classes.view (Classes.push d e1)) storage1)
          as Hpops.
        destruct (_process h fuel (Classes.view (Classes.push d e1)) storage1 id)
          as [[[[a|] l2] s2]|]; [| |by intros x l' s'].
        + destruct (Hsim (Some a) l2 s2 eq_refl) as (e2 & -> & Hv2 & Hwf2' & Hs2).
          intros x l' s' [= <- <- <-]. exists e2. split; [done|].
          split; [done|]. split; [done|].
          intros k Hk Hk'. rewrite Hs2 by (simpl; lia).
          rewrite Hsame2 by (simpl; lia). done.
        + destruct (Hsim None l2 s2 eq_refl) as (e2 & -> & Hv2 & Hwf2' & Hs2).
          specialize (Hpops l2 s2 eq_refl). rewrite Hview2 in Hpops.
          simpl in Hpops. subst l2.
          assert (Hpid2 : Classes.processableId e2 = Classes.processableId e).
          { pose proof (Classes_view_length e2 Hwf2') as L2.
            pose proof (Classes_view_length e1 Hwf1) as L1.
            rewrite Hv2 in L2. simpl in L1. lia. }
          assert (Hr2 : Classes._current e2 = Some r).
          { destruct Hwf2' as (_ & _ & -> & _). rewrite Hpid2.
            rewrite Hs2 by (simpl; lia). rewrite Hsame2 by (simpl; lia). done. }
          destruct (Classes_pop_write r Classes.set_completed e2 Hwf2' Hr2)
            as (Hwf3 & Hview3 & Hsame3).
          intros x l' s' [= <- <- <-]. eexists. split; [done|].
          split; [by rewrite Hview3, Hv2|]. split; [done|].
          intros k Hk Hk'. simpl in Hk'. rewrite Hsame3 by (simpl; lia).
          rewrite Hs2 by (simpl; lia). rewrite Hsame2 by (simpl; lia). done.
      - destruct (Classes_pop_write r Classes.set_completed e Hwf Hr)
          as (Hwf3 & Hview3 & Hsame3).
        intros x l' s' [= <- <- <-]. eexists. split; [done|]. auto. }
    destruct (undeclared h l storage) as [[i a]|]; [|apply Hdescend].
    destruct (decide (Some i = id)); [|apply Hdescend].
    intros x l' s' [= <- <- <-]. exists e. split; [done|].
    split; [done|]. split; [done|]. by intros k _ _.
Qed.

Lemma Classes_next_fuel_sim (fuel : nat) :
  forall (e : Classes.t) (storage : gmap Z loc) (r : IResultGenerator)
         (g' : RecursiveIterator) (s' : gmap Z loc),
    Classes.wf e ->
    next_fuel h fuel (Classes.view e) storage id = Some (r, g', s') ->
    exists e', Classes.next_fuel env h fuel e storage id = Some (r, e', s') /\
               Classes.view e' = g' /\ Classes.wf e'.
Proof.
  induction fuel as [|fuel IH]; intros e storage r g' s' Hwf; [done|].
  cbn [next_fuel Classes.next_fuel].
  assert (Hpid : processableId (Classes.view e) = Classes.processableId e).
  { unfold processableId. pose proof (Classes_view_length e Hwf). lia. }
  rewrite Hpid. destruct (Classes.processableId e <? 0)%Z.
  { intros [= <- <- <-]. eauto. }
  pose proof (Classes_process_sim (S fuel) e storage Hwf) as Hsim.
  destruct (_process h (S fuel) (Classes.view e) storage id)
    as [[[[a|] l2] s2]|]; [| |done].
  - destruct (Hsim (Some a) l2 s2 eq_refl) as (e2 & -> & Hv2 & Hwf2 & _).
    intros [= <- <- <-]. eauto.
  - destruct (Hsim None l2 s2 eq_refl) as (e2 & -> & Hv2 & Hwf2 & _).
    rewrite <- Hv2. by apply IH.
Qed.
End ClassesSimulation.

Lemma Classes_next_sim (env : bool) (h : heap) (id : option Z) (e : Classes.t)
    (storage : gmap Z loc) :
  Classes.wf e ->
  exists r e' s',
    Classes.next env h e storage id = Some (r, e', s') /\
    next h (Classes.view e) storage id = Some (r, Classes.view e', s') /\
    Classes.wf e'.
Proof.
  intros Hwf.
  destruct (next_scan h (Classes.view e) storage id)
    as (r & g' & s' & Hnext & _).
  destruct (Classes_next_fuel_sim env h id (engine_fuel (Classes.view e))
              e storage r g' s' Hwf Hnext) as (e' & HnextC & <- & Hwf').
  exists r, e', s'. auto.
Qed.

Lemma Classes_drive_sim (env : bool) (h : heap) (ids : list (option Z)) :
  forall (e : Classes.t) (storage : gmap Z loc),
    Classes.wf e ->
    exists rs e' s',
      Classes.drive env h e storage ids = Some (rs, e', s') /\
      drive h (Classes.view e) storage ids = Some (rs, Classes.view e', s') /\
      Classes.wf e'.
Proof.
  induction ids as [|id ids IH]; intros e storage Hwf.
  - exists [], e, storage. auto.
  - cbn [drive Classes.drive].
    destruct (Classes_next_sim env h id e storage Hwf)
      as (r & e1 & s1 & -> & -> & Hwf1).
    destruct (IH e1 s1 Hwf1) as (rs & e2 & s2 & -> & -> & Hwf2).
    exists (r :: rs), e2, s2. auto.
Qed.

Lemma Classes_new (v : jsvalue) :
  Classes.wf (Classes.new_RecursiveIterator v) /\
  Classes.view (Classes.new_RecursiveIterator v) = new_RecursiveIterator v.
Proof.
  assert (Hwf0 : Classes.wf Classes.new_RecursiveStack).
  { split; [simpl; lia|]. split; [|split; [done|split]].
    - intros k. simpl. rewrite lookup_empty. split; [by intros [? ?]|lia].
    - intros k r. simpl. by rewrite lookup_empty.
    - intros k k' r. simpl. by rewrite lookup_empty. }
  destruct (Classes_push v Classes.new_RecursiveStack Hwf0) as (Hwf & Hview & _).
  split; [done|]. unfold Classes.new_RecursiveIterator. by rewrite Hview.
Qed.

(** X18. The engine as the classes are written, with the wrappers held by
    reference in the [Map] of [RecursiveStack] and the arrays iterated by
    the native iterator or by [IteratorArray] as [doesEnvSupportIterator()]
    answers, returns at every call of [next], over any calls on one engine
    with any targets, the same result and leaves the same storage in both
    environments, which are those of the engine on the list of wrappers; its
    stack stays in the state that [push] and [pop] keep: no [pop] is made on
    an empty stack, and no [IteratorArray] of a wrapper on it has been called
    past its [done]; read from its top it is that list. *)
Theorem engine_of_the_classes (h : heap) (v : jsvalue)
    (storage0 : gmap Z loc) (ids : list (option Z)) :
  exists rs g storage,
    drive h (new_RecursiveIterator v) storage0 ids = Some (rs, g, storage) /\
    forall doesEnvSupportIterator : bool,
      exists e,
        Classes.drive doesEnvSupportIterator h
          (Classes.new_RecursiveIterator v) storage0 ids =
          Some (rs, e, storage) /\
        Classes.view e = g /\ Classes.wf e.
Proof.
  destruct (Classes_new v) as [Hwf Hview].
  destruct (Classes_drive_sim true h ids _ storage0 Hwf)
    as (rs & e & s & _ & Hd & _).
  rewrite Hview in Hd. exists rs, (Classes.view e), s. split; [done|].
  intros env.
  destruct (Classes_drive_sim env h ids _ storage0 Hwf)
    as (rs' & e' & s'' & HdC & Hd' & Hwf').
  rewrite Hview, Hd in Hd'. injection Hd' as <- Hv <-.
  exists e'. auto.
Qed.
